(** * logbull-go: the batching log sender and its supporting invariants

    A shallow embedding of the Go packages [logbull/core],
    [logbull/internal/formatting], [logbull/internal/validation] and
    [logbull/handlers], followed by the properties of the specification
    that were checked against them and by further properties of the code.

    Conventions of the embedding.
    - Go [string] is [String.string] (a sequence of bytes); the comparison
      operators of Go on strings are the bytewise lexicographic order,
      which is [String.compare].
    - Go [int64] is [Z] together with [wrap64], written at every place
      where the source does arithmetic that can leave the range.
    - Go [map[string]any] is [gmap string any]; a nil map is [None].
      Ranging over a map visits the entries in an order the language
      leaves unspecified, so a loop over a map is a fold over an arbitrary
      permutation of [map_to_list].
    - A [select] statement with several ready communications picks one of
      them at random (Go language specification, "Select statements"), the
      [default] branch is taken only when no communication is ready. The
      sender is therefore a step relation and not a function.
    - Functions of the Go standard library that the source calls
      ([json.Marshal], [fmt.Sprint], [url.Parse]) are fields of the class
      [Runtime]; [time.Unix], [Time.Format], [strings.TrimSpace] and the
      two regular expressions are written out. *)

From Stdlib Require Import ZArith List String Ascii Lia Permutation Sorted.
From stdpp Require Import gmap strings list.

Open Scope string_scope.
Open Scope Z_scope.

(** ** Go primitives *)

Module golang.

(** Two's complement wrap-around of [int64] arithmetic. *)
Definition min_int64 : Z := - 2 ^ 63.
Definition max_int64 : Z := 2 ^ 63 - 1.

Definition wrap64 (z : Z) : Z := (z + 2 ^ 63) mod 2 ^ 64 - 2 ^ 63.

Definition is_int64 (z : Z) : Prop := min_int64 <= z <= max_int64.

(** The order of Go on strings. *)
Definition string_lt (a b : string) : Prop := String.compare a b = Lt.

(** One decimal digit, and a non-negative number on exactly [w] digits
    (what [Time.Format] prints for the zero-padded layout elements). *)
Definition digit (n : Z) : ascii := ascii_of_N (48 + Z.to_N (n mod 10)).

Fixpoint pad (w : nat) (n : Z) : string :=
  match w with
  | O => EmptyString
  | S w' => pad w' (n / 10) +:+ String (digit n) EmptyString
  end.

(** [%d] of [fmt]: a sign and the decimal digits, no padding. *)
Fixpoint decimal_digits (fuel : nat) (n : Z) : string :=
  match fuel with
  | O => EmptyString
  | S fuel' =>
      if n <? 10 then String (digit n) EmptyString
      else decimal_digits fuel' (n / 10) +:+ String (digit n) EmptyString
  end.

Definition format_d (n : Z) : string :=
  if n <? 0 then "-" +:+ decimal_digits (S (Z.to_nat (Z.log2 (- n)))) (- n)
  else decimal_digits (S (Z.to_nat (Z.log2 n))) n.

(** Lexicographic combination of two comparisons. *)
Definition lexc (c1 c2 : comparison) : comparison :=
  match c1 with
  | Eq => c2
  | _ => c1
  end.

End golang.

(** ** Package [time] of the standard library, as far as [formatTimestamp]
    uses it *)

Module time.

(** A [time.Time] in UTC: seconds since the Unix epoch and the nanosecond
    within the second. *)
Record Time : Type := mkTime { unixSec : Z; nsec : Z }.

(** [time.Unix(sec, nsec)]: "it is valid to pass nsec outside the range
    [0, 999999999]"; the quotient is Go's truncated division. *)
Definition Unix (sec nsec : Z) : Time :=
  if (nsec <? 0) || (1000000000 <=? nsec) then
    let n := Z.quot nsec 1000000000 in
    let sec := sec + n in
    let nsec := nsec - n * 1000000000 in
    if nsec <? 0 then mkTime (sec - 1) (nsec + 1000000000)
    else mkTime sec nsec
  else mkTime sec nsec.

(** The proleptic Gregorian date of a day number (days since 1970-01-01),
    by cutting off 400-year, 100-year, 4-year and 1-year cycles of a
    calendar whose years start on March 1st. *)
Definition yearDay (doe : Z) : Z * Z :=
  let n100 := Z.min (doe / 36524) 3 in
  let d1 := doe - 36524 * n100 in
  let n4 := d1 / 1461 in
  let d2 := d1 - 1461 * n4 in
  let n1 := Z.min (d2 / 365) 3 in
  (100 * n100 + 4 * n4 + n1, d2 - 365 * n1).

Definition monthDay (doy : Z) : Z * Z :=
  let mp := (5 * doy + 2) / 153 in
  (mp, doy - (153 * mp + 2) / 5 + 1).

Definition Date (days : Z) : Z * Z * Z :=
  let z := days + 719468 in
  let era := z / 146097 in
  let doe := z mod 146097 in
  let '(yoe, doy) := yearDay doe in
  let '(mp, d) := monthDay doy in
  let m := if mp <? 10 then mp + 3 else mp - 9 in
  let y := yoe + 400 * era in
  (if m <=? 2 then y + 1 else y, m, d).

(** [t.Format("2006-01-02T15:04:05.000000000Z")]. *)
Definition Format (t : Time) : string :=
  let days := unixSec t / 86400 in
  let sod := unixSec t mod 86400 in
  let '(y, m, d) := Date days in
  golang.pad 4 y +:+ "-" +:+ golang.pad 2 m +:+ "-" +:+ golang.pad 2 d +:+ "T"
  +:+ golang.pad 2 (sod / 3600) +:+ ":" +:+ golang.pad 2 (sod mod 3600 / 60)
  +:+ ":" +:+ golang.pad 2 (sod mod 60) +:+ "." +:+ golang.pad 9 (nsec t) +:+ "Z".

(** The order of dates [(year, month, day)]. *)
Definition date_compare (a b : Z * Z * Z) : comparison :=
  golang.lexc (a.1.1 ?= b.1.1) (golang.lexc (a.1.2 ?= b.1.2) (a.2 ?= b.2)).

End time.

(** ** Package [strings]: [TrimSpace] *)

Module strings.

Definition byte (c : ascii) : N := N_of_ascii c.

(** [asciiSpace]: tab, line feed, vertical tab, form feed, carriage
    return, space. *)
Definition asciiSpace (c : ascii) : bool :=
  let n := byte c in ((9 <=? n) && (n <=? 13) || (n =? 32))%N.

(** The UTF-8 encodings of the other code points of [unicode.IsSpace]:
    U+0085 and U+00A0 on two bytes; U+1680, U+2000 to U+200A, U+2028,
    U+2029, U+202F, U+205F and U+3000 on three bytes. *)
Definition space2 (c1 c2 : ascii) : bool :=
  ((byte c1 =? 194) && ((byte c2 =? 133) || (byte c2 =? 160)))%N.

Definition space3 (c1 c2 c3 : ascii) : bool :=
  ((byte c1 =? 225) && (byte c2 =? 154) && (byte c3 =? 128)
   || (byte c1 =? 226) && (byte c2 =? 128)
      && ((128 <=? byte c3) && (byte c3 <=? 138)
          || (byte c3 =? 168) || (byte c3 =? 169) || (byte c3 =? 175))
   || (byte c1 =? 226) && (byte c2 =? 129) && (byte c3 =? 159)
   || (byte c1 =? 227) && (byte c2 =? 128) && (byte c3 =? 128))%N.

(** [TrimLeftFunc(s, unicode.IsSpace)] on the bytes of [s]. *)
Fixpoint trimLeft (s : list ascii) : list ascii :=
  match s with
  | c1 :: s1 =>
      if asciiSpace c1 then trimLeft s1
      else match s1 with
           | c2 :: s2 =>
               if space2 c1 c2 then trimLeft s2
               else match s2 with
                    | c3 :: s3 => if space3 c1 c2 c3 then trimLeft s3 else s
                    | [] => s
                    end
           | [] => s
           end
  | [] => []
  end.

(** [TrimRightFunc(s, unicode.IsSpace)], on the reversed bytes: the last
    rune is decoded from the nearest rune start before the end. *)
Fixpoint trimRightRev (r : list ascii) : list ascii :=
  match r with
  | c1 :: r1 =>
      if asciiSpace c1 then trimRightRev r1
      else match r1 with
           | c2 :: r2 =>
               if space2 c2 c1 then trimRightRev r2
               else match r2 with
                    | c3 :: r3 => if space3 c3 c2 c1 then trimRightRev r3 else r
                    | [] => r
                    end
           | [] => r
           end
  | [] => []
  end.

Definition TrimSpace (s : string) : string :=
  string_of_list_ascii
    (rev (trimRightRev (rev (trimLeft (list_ascii_of_string s))))).

(** No white space at the head of a list of bytes. *)
Definition headClean (s : list ascii) : Prop :=
  match s with
  | [] => True
  | c1 :: s1 =>
      asciiSpace c1 = false
      /\ match s1 with
         | [] => True
         | c2 :: s2 =>
             space2 c1 c2 = false
             /\ match s2 with
                | [] => True
                | c3 :: _ => space3 c1 c2 c3 = false
                end
         end
  end.

(** The same for the reversed list: no white space at the end. *)
Definition lastClean (r : list ascii) : Prop :=
  match r with
  | [] => True
  | c1 :: r1 =>
      asciiSpace c1 = false
      /\ match r1 with
         | [] => True
         | c2 :: r2 =>
             space2 c2 c1 = false
             /\ match r2 with
                | [] => True
                | c3 :: _ => space3 c3 c2 c1 = false
                end
         end
  end.

End strings.

(** ** What the source takes from the Go runtime and standard library *)

Record URL : Type := mkURL { Scheme : string; URLHost : string }.

(** An error value is its message. *)
Definition error : Type := option string.

Class Runtime : Type := {
  (** the dynamic type [any] of field values *)
  any : Type;
  (** [value == nil] *)
  isNil : any -> bool;
  (** a Go string stored in an [any] *)
  anyString : string -> any;
  (** [json.Marshal(value)]: the encoding, or [None] when it fails *)
  json_Marshal : any -> option string;
  (** [fmt.Sprint(value)], which is also the verb [%v] *)
  fmt_Sprint : any -> string;
  (** [%v] of a [map[string]any] *)
  fmt_Sprint_map : gmap string any -> string;
  (** [url.Parse(host)]: the URL or the error *)
  url_Parse : string -> URL + string;
}.

(** [json.Marshal] never fails on a string (invalid UTF-8 is replaced). *)
Definition marshals_strings (R : Runtime) : Prop :=
  forall s : string, json_Marshal (anyString s) <> None.

(** ** Package [validation] *)

Module validation.
Section validation.
Context {R : Runtime}.

Definition maxMessageLength : Z := 10000.
Definition maxFieldsCount : Z := 100.
Definition maxFieldKeyLen : Z := 100.

Definition len (s : string) : Z := Z.of_nat (String.length s).

Definition isHex (c : ascii) : bool :=
  let n := strings.byte c in
  ((48 <=? n) && (n <=? 57) || (65 <=? n) && (n <=? 70)
   || (97 <=? n) && (n <=? 102))%N.

(** [n] hexadecimal digits at the head of [s]; the rest of [s]. *)
Fixpoint hexRun (n : nat) (s : list ascii) : option (list ascii) :=
  match n with
  | O => Some s
  | S n' => match s with
            | c :: s' => if isHex c then hexRun n' s' else None
            | [] => None
            end
  end.

Definition dash (s : list ascii) : option (list ascii) :=
  match s with
  | c :: s' => if (strings.byte c =? 45)%N then Some s' else None
  | [] => None
  end.

(** [uuidPattern.MatchString]: the pattern is anchored at both ends,
    groups of 8, 4, 4, 4 and 12 hexadecimal digits separated by dashes. *)
Fixpoint hexGroups (groups : list nat) (s : list ascii) : bool :=
  match groups with
  | [] => false
  | n :: groups' =>
      match hexRun n s, groups' with
      | Some [], [] => true
      | Some s', _ :: _ =>
          match dash s' with
          | Some s'' => hexGroups groups' s''
          | None => false
          end
      | _, _ => false
      end
  end.

Definition uuidPattern (s : string) : bool :=
  hexGroups [8; 4; 4; 4; 12]%nat (list_ascii_of_string s).

Definition isKeyChar (c : ascii) : bool :=
  let n := strings.byte c in
  ((97 <=? n) && (n <=? 122) || (65 <=? n) && (n <=? 90)
   || (48 <=? n) && (n <=? 57) || (n =? 95) || (n =? 45) || (n =? 46))%N.

(** [apiKeyPattern.MatchString]: ten or more characters of the class. *)
Definition apiKeyPattern (s : string) : bool :=
  forallb isKeyChar (list_ascii_of_string s) && (10 <=? len s).

Definition ValidateProjectID (projectID : string) : error :=
  let projectID := strings.TrimSpace projectID in
  if decide (projectID = EmptyString) then Some "project ID cannot be empty"
  else if negb (uuidPattern projectID) then
    Some ("invalid project ID format '" +:+ projectID
          +:+ "'. Must be a valid UUID format: xxxxxxxx-xxxx-xxxx-xxxx-xxxxxxxxxxxx")
  else None.

Definition ValidateHostURL (host : string) : error :=
  let host := strings.TrimSpace host in
  if decide (host = EmptyString) then Some "host URL cannot be empty"
  else match url_Parse host with
       | inr err => Some ("invalid host URL format: " +:+ err)
       | inl parsedURL =>
           if negb (bool_decide (Scheme parsedURL = "http"))
              && negb (bool_decide (Scheme parsedURL = "https"))
           then Some ("host URL must use http or https scheme, got: "
                      +:+ Scheme parsedURL)
           else if decide (URLHost parsedURL = EmptyString)
           then Some "host URL must have a host component"
           else None
       end.

Definition ValidateAPIKey (apiKey : string) : error :=
  let apiKey := strings.TrimSpace apiKey in
  if len apiKey <? 10 then Some "API key must be at least 10 characters long"
  else if negb (apiKeyPattern apiKey) then
    Some "invalid API key format. API key must contain only alphanumeric characters, underscores, hyphens, and dots"
  else None.

Definition ValidateLogMessage (message : string) : error :=
  let message := strings.TrimSpace message in
  if decide (message = EmptyString) then Some "log message cannot be empty"
  else if maxMessageLength <? len message then
    Some ("log message too long (" +:+ golang.format_d (len message)
          +:+ " chars). Maximum allowed: " +:+ golang.format_d maxMessageLength)
  else None.

(** The loop of [ValidateLogFields] over the keys, in the order [keys] in
    which the map yields them; it returns at the first bad key. *)
Fixpoint validateKeys (keys : list string) : error :=
  match keys with
  | [] => None
  | key :: keys' =>
      let key := strings.TrimSpace key in
      if decide (key = EmptyString) then Some "field key cannot be empty"
      else if maxFieldKeyLen <? len key then
        Some ("field key too long (" +:+ golang.format_d (len key)
              +:+ " chars). Maximum: " +:+ golang.format_d maxFieldKeyLen)
      else validateKeys keys'
  end.

(** [ValidateLogFields fields err]: the call can return [err]. *)
Definition ValidateLogFields (fields : option (gmap string any))
    (err : error) : Prop :=
  match fields with
  | None => err = None
  | Some m =>
      if maxFieldsCount <? Z.of_nat (size m) then
        err = Some ("too many fields (" +:+ golang.format_d (Z.of_nat (size m))
                    +:+ "). Maximum allowed: " +:+ golang.format_d maxFieldsCount)
      else exists order, order ≡ₚ map_to_list m /\ err = validateKeys order.*1
  end.

End validation.
End validation.

(** ** Package [formatting] *)

Module formatting.
Section formatting.
Context {R : Runtime}.

Definition defaultMaxMessageLength : Z := 10000.

Definition FormatMessage (message : string) : string :=
  let message := strings.TrimSpace message in
  if defaultMaxMessageLength <? validation.len message then
    String.substring 0 (Z.to_nat (defaultMaxMessageLength - 3)) message +:+ "..."
  else message.

Definition isJSONSerializable (value : any) : bool :=
  match json_Marshal value with
  | Some _ => true
  | None => false
  end.

Definition convertToString (value : any) : string :=
  if isNil value then "null"
  else match json_Marshal value with
       | None => fmt_Sprint value
       | Some data => data
       end.

(** The body of the loop of [EnsureFields] for one entry of the map. *)
Definition ensureEntry (formatted : gmap string any) (kv : string * any)
    : gmap string any :=
  let key := strings.TrimSpace kv.1 in
  if decide (key = EmptyString) then formatted
  else if isJSONSerializable kv.2 then <[key := kv.2]> formatted
  else <[key := anyString (convertToString kv.2)]> formatted.

(** [EnsureFields fields formatted]: the call can return [formatted]. The
    result depends on the order of the range when two keys have the same
    trimmed form. *)
Definition EnsureFields (fields : option (gmap string any))
    (formatted : gmap string any) : Prop :=
  match fields with
  | None => formatted = ∅
  | Some m =>
      exists order, order ≡ₚ map_to_list m
                    /\ formatted = foldl ensureEntry ∅ order
  end.

(** What the specification asks of a sanitized mapping, and what makes a
    mapping a fixed point of [EnsureFields]: the keys are not empty and are
    their own trimmed form, the values are serializable. *)
Definition sanitized (m : gmap string any) : Prop :=
  map_Forall (fun key value =>
                key <> EmptyString /\ strings.TrimSpace key = key
                /\ isJSONSerializable value = true) m.

(** [MergeFields base additional result]. *)
Definition MergeFields (base additional : option (gmap string any))
    (result : gmap string any) : Prop :=
  exists result0 extra order,
    EnsureFields base result0 /\ EnsureFields additional extra
    /\ order ≡ₚ map_to_list extra
    /\ result = foldl (fun r kv => <[kv.1 := kv.2]> r) result0 order.

End formatting.
End formatting.

(** ** Package [core] *)

Module core.

(** What a call does, or the panic that ends it. *)
Inductive outcome (A : Type) : Type :=
| Returns (a : A)
| Panics (msg : string).
Arguments Returns {A} a.
Arguments Panics {A} msg.

Section core.
Context {R : Runtime}.

Definition nl : string := String (ascii_of_N 10) EmptyString.

(** *** types.go *)

Definition LogLevel : Type := string.

Definition DEBUG : LogLevel := "DEBUG".
Definition INFO : LogLevel := "INFO".
Definition WARNING : LogLevel := "WARNING".
Definition ERROR : LogLevel := "ERROR".
Definition CRITICAL : LogLevel := "CRITICAL".

Record LogEntry : Type := mkLogEntry {
  Level : string;
  Message : string;
  Timestamp : string;
  Fields : option (gmap string any);
}.

Record RejectedLog : Type := mkRejectedLog {
  Index : Z;
  RejectedMessage : string;
}.

Record LogBullResponse : Type := mkLogBullResponse {
  Accepted : Z;
  Rejected : Z;
  ResponseMessage : string;
  Errors : list RejectedLog;
}.

Record Config : Type := mkConfig {
  ProjectID : string;
  Host : string;
  APIKey : string;
  ConfigLogLevel : LogLevel;
}.

Definition levelPriority : gmap LogLevel Z :=
  list_to_map
    [(DEBUG, 10); (INFO, 20); (WARNING, 30); (ERROR, 40); (CRITICAL, 50)].

(** Indexing a Go map with a missing key gives the zero value. *)
Definition Priority (l : LogLevel) : Z := default 0 (levelPriority !! l).

Definition lenFields (fields : option (gmap string any)) : Z :=
  match fields with
  | None => 0
  | Some m => Z.of_nat (size m)
  end.

(** *** timestamp.go *)

Definition formatTimestamp (timestampNs : Z) : string :=
  let seconds := Z.quot timestampNs 1000000000 in
  let nanos := Z.rem timestampNs 1000000000 in
  time.Format (time.Unix seconds nanos).

(** [GenerateUniqueTimestamp now last] is the body of the critical
    section: [now] is what [time.Now().UnixNano()] returns, [last] the
    value of [lastTimestampNs] on entry; the result is the returned string
    and the value of [lastTimestampNs] on exit. *)
Definition GenerateUniqueTimestamp (now last : Z) : string * Z :=
  let currentNs :=
    if now <=? last then golang.wrap64 (last + 1) else now in
  (formatTimestamp currentNs, currentNs).

(** A sequence of calls, one per clock reading. *)
Fixpoint timestamps (clock : list Z) (last : Z) : list string :=
  match clock with
  | [] => []
  | now :: clock' =>
      let '(ts, last') := GenerateUniqueTimestamp now last in
      ts :: timestamps clock' last'
  end.

(** [lastTimestampNs] is below the largest [int64] at each call of the
    sequence, so that [lastTimestampNs + 1] does not wrap around. *)
Fixpoint belowLimit (clock : list Z) (last : Z) : Prop :=
  match clock with
  | [] => True
  | now :: clock' =>
      last < golang.max_int64
      /\ belowLimit clock' (GenerateUniqueTimestamp now last).2
  end.

(** *** sender.go: the delivery of one batch *)

Definition batchSize : Z := 1000.
Definition queueCapacity : Z := 10000.
Definition minWorkers : Z := 1.
Definition maxWorkers : Z := 10.

(** What leaves the process. *)
Inductive Effect : Type :=
| HTTPPost (url : string) (headers : list (string * string)) (body : string)
| Stderr (text : string)
| Stdout (text : string).

(** The answers of the outside world during one [sendHTTPRequest]. *)
Record Response : Type := mkResponse {
  StatusCode : Z;
  (** [io.ReadAll(resp.Body)] *)
  readBody : string + string;
  (** [json.Unmarshal(body, &response)]; [None] when it fails *)
  decoded : option LogBullResponse;
  (** [resp.Body.Close()] *)
  closeErr : error;
}.

Record Exchange : Type := mkExchange {
  (** [json.Marshal(batch)] *)
  marshalled : string + string;
  (** the error of [http.NewRequest] *)
  newRequestErr : error;
  (** [s.client.Do(req)] *)
  clientDo : Response + string;
}.

(** The lines for one element of [response.Errors]. *)
Definition rejectedLines (sentLogs : list LogEntry) (err : RejectedLog)
    : outcome (list string) :=
  if (0 <=? Index err) && (Index err <? Z.of_nat (length sentLogs)) then
    match sentLogs !! Z.to_nat (Index err) with
    | None => Panics "index out of range"
    | Some log =>
        Returns
          (["  - Log #" +:+ golang.format_d (Index err) +:+ " rejected ("
              +:+ RejectedMessage err +:+ "):" +:+ nl;
            "    Level: " +:+ Level log +:+ nl;
            "    Message: " +:+ Message log +:+ nl;
            "    Timestamp: " +:+ Timestamp log +:+ nl]
           ++ match Fields log with
              | Some fields =>
                  if 0 <? Z.of_nat (size fields)
                  then ["    Fields: " +:+ fmt_Sprint_map fields +:+ nl]
                  else []
              | None => []
              end)%list
    end
  else Returns [].

Fixpoint rejectedDetails (sentLogs : list LogEntry) (errs : list RejectedLog)
    : outcome (list string) :=
  match errs with
  | [] => Returns []
  | err :: errs' =>
      match rejectedLines sentLogs err with
      | Panics msg => Panics msg
      | Returns lines =>
          match rejectedDetails sentLogs errs' with
          | Panics msg => Panics msg
          | Returns rest => Returns (lines ++ rest)%list
          end
      end
  end.

Definition handleRejectedLogs (response : LogBullResponse)
    (sentLogs : list LogEntry) : outcome (list string) :=
  let head :=
    "LogBull: Rejected " +:+ golang.format_d (Rejected response)
    +:+ " log entries" +:+ nl in
  if 0 <? Z.of_nat (length (Errors response)) then
    match rejectedDetails sentLogs (Errors response) with
    | Panics msg => Panics msg
    | Returns lines =>
        Returns (head :: ("LogBull: Rejected log details:" +:+ nl) :: lines)
    end
  else Returns [head].

Definition requestHeaders (config : Config) : list (string * string) :=
  ([("Content-Type", "application/json");
    ("User-Agent", "LogBull-Go-Client/1.0")]
   ++ (if decide (APIKey config = EmptyString) then []
       else [("X-API-Key", APIKey config)]))%list.

(** What [sendHTTPRequest] does after [s.client.Do] has returned a
    response; the deferred [Close] runs last. *)
Definition afterResponse (logs : list LogEntry) (resp : Response)
    : outcome (list string) :=
  let closing :=
    match closeErr resp with
    | Some err => ["LogBull: failed to close response body: " +:+ err +:+ nl]
    | None => []
    end in
  match readBody resp with
  | inr err =>
      Returns (("LogBull: failed to read response: " +:+ err +:+ nl) :: closing)
  | inl body =>
      if negb (StatusCode resp =? 200) && negb (StatusCode resp =? 202) then
        Returns (("LogBull: server returned status "
                  +:+ golang.format_d (StatusCode resp) +:+ ": " +:+ body +:+ nl)
                 :: closing)
      else
        match decoded resp with
        | None => Returns closing
        | Some response =>
            if 0 <? Rejected response then
              match handleRejectedLogs response logs with
              | Panics msg => Panics msg
              | Returns lines => Returns (lines ++ closing)%list
              end
            else Returns closing
        end
  end.

(** [sendHTTPRequest]: the function has no result; what it does is the
    list of its effects, in order. A panic would lose nothing of what was
    done before it, so the effects and the way the call ends are given
    separately. *)
Definition sendHTTPRequest (config : Config) (logs : list LogEntry)
    (x : Exchange) : list Effect * outcome unit :=
  match marshalled x with
  | inr err =>
      ([Stderr ("LogBull: failed to marshal batch: " +:+ err +:+ nl)],
       Returns tt)
  | inl data =>
      let url := Host config +:+ "/api/v1/logs/receiving/" +:+ ProjectID config in
      match newRequestErr x with
      | Some err =>
          ([Stderr ("LogBull: failed to create request: " +:+ err +:+ nl)],
           Returns tt)
      | None =>
          let post := HTTPPost url (requestHeaders config) data in
          match clientDo x with
          | inr err =>
              ([post; Stderr ("LogBull: HTTP request failed: " +:+ err +:+ nl)],
               Returns tt)
          | inl resp =>
              match afterResponse logs resp with
              | Panics msg => ([post], Panics msg)
              | Returns lines => (post :: map Stderr lines, Returns tt)
              end
          end
      end
  end.

(** The bounds check of [handleRejectedLogs]. *)
Definition inRange (sentLogs : list LogEntry) (err : RejectedLog) : bool :=
  (0 <=? Index err) && (Index err <? Z.of_nat (length sentLogs)).

(** The lines written for the element [err] of [response.Errors] when
    [log] is the entry at its index. *)
Definition report (err : RejectedLog) (log : LogEntry) : list string :=
  (["  - Log #" +:+ golang.format_d (Index err) +:+ " rejected ("
      +:+ RejectedMessage err +:+ "):" +:+ nl;
    "    Level: " +:+ Level log +:+ nl;
    "    Message: " +:+ Message log +:+ nl;
    "    Timestamp: " +:+ Timestamp log +:+ nl]
   ++ match Fields log with
      | Some fields =>
          if 0 <? Z.of_nat (size fields)
          then ["    Fields: " +:+ fmt_Sprint_map fields +:+ nl]
          else []
      | None => []
      end)%list.

(** The line of the deferred [Close], if it fails. *)
Definition closingLines (resp : Response) : list string :=
  match closeErr resp with
  | Some err => ["LogBull: failed to close response body: " +:+ err +:+ nl]
  | None => []
  end.

(** The request that [sendHTTPRequest] sends for the encoding [data]. *)
Definition postOf (config : Config) (data : string) : Effect :=
  HTTPPost (Host config +:+ "/api/v1/logs/receiving/" +:+ ProjectID config)
    (requestHeaders config) data.

Definition isPost (e : Effect) : bool :=
  match e with
  | HTTPPost _ _ _ => true
  | _ => false
  end.

(** *** sender.go: the queue and the life cycle *)

(** A [sync.Once]: not entered, its function running, done. *)
Inductive Once : Type := OnceNew | OnceRunning | OnceDone.

(** A goroutine started by [sendBatch]: the batch it was given and whether
    it took a slot of [workerSem] that it gives back at the end. *)
Record Worker : Type := mkWorker {
  holdsSlot : bool;
  batch : list LogEntry;
}.

(** The fields of [Sender] ([logQueue] is the content of the channel,
    oldest first; [stopCh] tells whether the channel is closed; [wg] is the
    counter of the wait group; [workerSem] the number of slots in the
    channel), then what the sender has started and done: the goroutines
    that are still running, the batches handed to [sendHTTPRequest] in the
    order of their start, the effects of the deliveries and of [AddLog],
    how many times the function given to [shutdownOnce.Do] was run, and
    the panic that ended the process, if any. The HTTP client is in the
    [Exchange] of each delivery; the registry of senders is never read. *)
Record Sender : Type := mkSender {
  config : Config;
  logQueue : list LogEntry;
  stopCh : bool;
  wg : Z;
  shutdownOnce : Once;
  workerSem : Z;
  processor : bool;
  workers : list Worker;
  handed : list (list LogEntry);
  effects : list Effect;
  drains : nat;
  panicked : option string;
}.

Definition NewSender (config : Config) : Sender :=
  {| config := config; logQueue := []; stopCh := false; wg := 1;
     shutdownOnce := OnceNew; workerSem := minWorkers; processor := true;
     workers := []; handed := []; effects := []; drains := 0;
     panicked := None |}.

(** The loop of [sendBatch]: at most [n] receptions that do not block. *)
Fixpoint drain (n : nat) (queue logs : list LogEntry)
    : list LogEntry * list LogEntry :=
  match n with
  | O => (logs, queue)
  | S n' =>
      match queue with
      | log :: queue' => drain n' queue' (logs ++ [log])%list
      | [] => (logs, queue)
      end
  end.

Definition sendBatch (s : Sender) : Sender :=
  let '(logs, queue) := drain (Z.to_nat batchSize) (logQueue s) [] in
  if Z.of_nat (length logs) =? 0 then s
  else
    let slot := 0 <? workerSem s in
    {| config := config s; logQueue := queue; stopCh := stopCh s;
       wg := wg s + 1; shutdownOnce := shutdownOnce s;
       workerSem := if slot then workerSem s - 1 else workerSem s;
       processor := processor s;
       workers := (workers s ++ [mkWorker slot logs])%list;
       handed := (handed s ++ [logs])%list;
       effects := effects s; drains := drains s; panicked := panicked s |}.

(** The function given to [shutdownOnce.Do], up to the call of
    [wg.Wait]: closing a closed channel panics. *)
Definition shutdownBody (s : Sender) : Sender :=
  if stopCh s then
    {| config := config s; logQueue := logQueue s; stopCh := stopCh s;
       wg := wg s; shutdownOnce := OnceRunning; workerSem := workerSem s;
       processor := processor s; workers := workers s; handed := handed s;
       effects := effects s; drains := S (drains s);
       panicked := Some "close of closed channel" |}
  else
    sendBatch
      {| config := config s; logQueue := logQueue s; stopCh := true;
         wg := wg s; shutdownOnce := OnceRunning; workerSem := workerSem s;
         processor := processor s; workers := workers s; handed := handed s;
         effects := effects s; drains := S (drains s);
         panicked := panicked s |}.

(** A call of [Shutdown]. The caller that finds the [Once] new runs the
    body and then waits; a caller that finds it running waits for it, one
    that finds it done returns: neither changes the sender. *)
Definition Shutdown (s : Sender) : Sender :=
  match shutdownOnce s with
  | OnceNew => shutdownBody s
  | OnceRunning | OnceDone => s
  end.

Definition Flush (s : Sender) : Sender := sendBatch s.

Definition enqueue (s : Sender) (entry : LogEntry) : Sender :=
  {| config := config s; logQueue := (logQueue s ++ [entry])%list;
     stopCh := stopCh s; wg := wg s; shutdownOnce := shutdownOnce s;
     workerSem := workerSem s; processor := processor s;
     workers := workers s; handed := handed s; effects := effects s;
     drains := drains s; panicked := panicked s |}.

Definition emit (s : Sender) (es : list Effect) (p : option string) : Sender :=
  {| config := config s; logQueue := logQueue s; stopCh := stopCh s;
     wg := wg s; shutdownOnce := shutdownOnce s; workerSem := workerSem s;
     processor := processor s; workers := workers s; handed := handed s;
     effects := (effects s ++ es)%list; drains := drains s;
     panicked := match p with Some _ => p | None => panicked s end |}.

(** [AddLog s entry s']: the [select] of [AddLog]. The send is ready when
    the channel has room, the receive from [stopCh] is ready when that
    channel is closed, and the [default] branch runs only when neither is
    ready. *)
Inductive AddLog (s : Sender) (entry : LogEntry) : Sender -> Prop :=
| AddLog_send :
    Z.of_nat (length (logQueue s)) < queueCapacity ->
    AddLog s entry (enqueue s entry)
| AddLog_stop :
    stopCh s = true ->
    AddLog s entry s
| AddLog_default :
    queueCapacity <= Z.of_nat (length (logQueue s)) ->
    stopCh s = false ->
    AddLog s entry
      (emit s [Stderr ("LogBull: log queue full, dropping log" +:+ nl)] None).

(** The end of the goroutine [i] of [sendBatch] after its delivery with
    the exchange [x]: the slot goes back to [workerSem], the wait group is
    decremented. *)
Definition workerDone (s : Sender) (i : nat) (w : Worker) (x : Exchange)
    : Sender :=
  let '(es, end_) := sendHTTPRequest (config s) (batch w) x in
  {| config := config s; logQueue := logQueue s; stopCh := stopCh s;
     wg := wg s - 1; shutdownOnce := shutdownOnce s;
     workerSem := if holdsSlot w then workerSem s + 1 else workerSem s;
     processor := processor s; workers := delete i (workers s);
     handed := handed s; effects := (effects s ++ es)%list;
     drains := drains s;
     panicked := match end_ with
                 | Panics msg => Some msg
                 | Returns _ => panicked s
                 end |}.

Definition processorStop (s : Sender) : Sender :=
  {| config := config s; logQueue := logQueue s; stopCh := stopCh s;
     wg := wg s - 1; shutdownOnce := shutdownOnce s;
     workerSem := workerSem s; processor := false; workers := workers s;
     handed := handed s; effects := effects s; drains := drains s;
     panicked := panicked s |}.

Definition shutdownReturn (s : Sender) : Sender :=
  {| config := config s; logQueue := logQueue s; stopCh := stopCh s;
     wg := wg s; shutdownOnce := OnceDone; workerSem := workerSem s;
     processor := processor s; workers := workers s; handed := handed s;
     effects := effects s; drains := drains s; panicked := panicked s |}.

(** What can happen to a sender: the three calls of its interface, made by
    any goroutine, and the progress of its own goroutines. *)
Inductive Event : Type :=
| CallAddLog (entry : LogEntry)
| CallFlush
| CallShutdown
| Tick
| ProcessorStop
| WorkerDone (i : nat) (x : Exchange)
| ShutdownReturn.

Inductive step (s : Sender) : Event -> Sender -> Prop :=
| step_AddLog entry s' :
    AddLog s entry s' ->
    step s (CallAddLog entry) s'
| step_Flush :
    step s CallFlush (Flush s)
| step_Shutdown :
    step s CallShutdown (Shutdown s)
| step_Tick :
    (** [batchProcessor] receives from [ticker.C] *)
    processor s = true ->
    step s Tick (sendBatch s)
| step_ProcessorStop :
    (** [batchProcessor] receives from [stopCh] and returns *)
    processor s = true -> stopCh s = true ->
    step s ProcessorStop (processorStop s)
| step_WorkerDone i w x :
    workers s !! i = Some w ->
    (holdsSlot w = true -> workerSem s < maxWorkers) ->
    step s (WorkerDone i x) (workerDone s i w x)
| step_ShutdownReturn :
    (** [wg.Wait] returns in the call that runs the [Once] *)
    shutdownOnce s = OnceRunning -> wg s = 0 ->
    step s ShutdownReturn (shutdownReturn s).

(** A run: the events happen one after the other; nothing happens after a
    panic. *)
Inductive run (s : Sender) : list Event -> Sender -> Prop :=
| run_nil : run s [] s
| run_cons e s1 es s2 :
    panicked s = None -> step s e s1 -> run s1 es s2 ->
    run s (e :: es) s2.

(** The states of the life cycle. *)
Inductive Phase : Type := ACTIVE | SHUTTING_DOWN | STOPPED.

Definition phase (s : Sender) : Phase :=
  match shutdownOnce s with
  | OnceDone => STOPPED
  | _ => if stopCh s then SHUTTING_DOWN else ACTIVE
  end.

Definition rank (p : Phase) : nat :=
  match p with ACTIVE => 0 | SHUTTING_DOWN => 1 | STOPPED => 2 end.

(** The number of entries in the batches handed to the transport. *)
Definition delivered (s : Sender) : Z :=
  Z.of_nat (length (concat (handed s))).

(** What holds of a sender from [NewSender] on. *)
Record invariant (s : Sender) : Prop := {
  inv_alive : panicked s = None;
  inv_stop : stopCh s = false <-> shutdownOnce s = OnceNew;
  inv_drains :
    drains s = match shutdownOnce s with OnceNew => 0%nat | _ => 1%nat end;
  inv_queue : Z.of_nat (length (logQueue s)) <= queueCapacity;
  inv_batches :
    Forall (fun b => 0 < Z.of_nat (length b) <= batchSize) (handed s);
}.

(** [AddLog] on a sender that is not shut down, as a function. *)
Definition submit (s : Sender) (entry : LogEntry) : Sender :=
  if Z.of_nat (length (logQueue s)) <? queueCapacity
  then enqueue s entry
  else emit s [Stderr ("LogBull: log queue full, dropping log" +:+ nl)] None.

(** The entries that the sender has taken and not lost: those handed to
    the transport and those in the queue. *)
Definition held (s : Sender) : Z :=
  delivered s + Z.of_nat (length (logQueue s)).

Definition notAddLog (e : Event) : Prop :=
  match e with
  | CallAddLog _ => False
  | _ => True
  end.

(** *** logger.go *)

Record LogBullLogger : Type := mkLogger {
  loggerConfig : Config;
  minLevel : LogLevel;
  context : gmap string any;
}.

(** [NewLogger config]: the logger and the sender it points to, or the
    error. *)
Definition NewLogger (config : Config) : (LogBullLogger * Sender) + string :=
  let config :=
    mkConfig (strings.TrimSpace (ProjectID config))
      (strings.TrimSpace (Host config)) (strings.TrimSpace (APIKey config))
      (ConfigLogLevel config) in
  let config :=
    if decide (ConfigLogLevel config = EmptyString)
    then mkConfig (ProjectID config) (Host config) (APIKey config) INFO
    else config in
  match validation.ValidateProjectID (ProjectID config) with
  | Some err => inr err
  | None =>
      match validation.ValidateHostURL (Host config) with
      | Some err => inr err
      | None =>
          match (if decide (APIKey config = EmptyString) then None
                 else validation.ValidateAPIKey (APIKey config)) with
          | Some err => inr err
          | None =>
              inl (mkLogger config (ConfigLogLevel config) ∅, NewSender config)
          end
      end
  end.

(** The process as a logger sees it: its sender, the variable
    [lastTimestampNs], and what was printed. *)
Record World : Type := mkWorld {
  sender : Sender;
  lastTimestampNs : Z;
  console : list Effect;
}.

(** The test at the head of [log]. *)
Definition belowMinLevel (l : LogBullLogger) (level : LogLevel) : bool :=
  Priority level <? Priority (minLevel l).

Definition joinFields (order : list (string * any)) : string :=
  String.concat ", " (map (fun kv => kv.1 +:+ "=" +:+ fmt_Sprint kv.2) order).

(** [printToConsole entry e]: the call can print [e]. *)
Definition printToConsole (entry : LogEntry) (e : Effect) : Prop :=
  let head :=
    "[" +:+ Timestamp entry +:+ "] [" +:+ Level entry +:+ "] "
    +:+ Message entry in
  exists output,
    (if 0 <? lenFields (Fields entry) then
       exists order, order ≡ₚ map_to_list (default ∅ (Fields entry))
                     /\ output = head +:+ " (" +:+ joinFields order +:+ ")"
     else output = head)
    /\ e = (if bool_decide (Level entry = "ERROR")
               || bool_decide (Level entry = "CRITICAL")
            then Stderr (output +:+ nl) else Stdout (output +:+ nl)).

(** [log l level message fields w w']: the call takes the process from
    [w] to [w']. *)
Inductive log (l : LogBullLogger) (level : LogLevel) (message : string)
    (fields : option (gmap string any)) (w : World) : World -> Prop :=
| log_filtered :
    belowMinLevel l level = true ->
    log l level message fields w w
| log_invalid_message err :
    belowMinLevel l level = false ->
    validation.ValidateLogMessage message = Some err ->
    log l level message fields w
      (mkWorld (sender w) (lastTimestampNs w)
         (console w ++ [Stderr ("LogBull: invalid log message: " +:+ err +:+ nl)])%list)
| log_invalid_fields err :
    belowMinLevel l level = false ->
    validation.ValidateLogMessage message = None ->
    validation.ValidateLogFields fields (Some err) ->
    log l level message fields w
      (mkWorld (sender w) (lastTimestampNs w)
         (console w ++ [Stderr ("LogBull: invalid log fields: " +:+ err +:+ nl)])%list)
| log_entry mergedFields now ensured printed s' :
    belowMinLevel l level = false ->
    validation.ValidateLogMessage message = None ->
    validation.ValidateLogFields fields None ->
    formatting.MergeFields (Some (context l)) fields mergedFields ->
    golang.is_int64 now ->
    formatting.EnsureFields (Some mergedFields) ensured ->
    let '(ts, last) := GenerateUniqueTimestamp now (lastTimestampNs w) in
    let entry := mkLogEntry level (formatting.FormatMessage message) ts
                   (Some ensured) in
    printToConsole entry printed ->
    AddLog (sender w) entry s' ->
    log l level message fields w
      (mkWorld s' last (console w ++ [printed])%list).

Definition withLevel (config : Config) (level : LogLevel) : Config :=
  mkConfig (ProjectID config) (Host config) (APIKey config) level.

Definition definedLevels : list LogLevel :=
  [DEBUG; INFO; WARNING; ERROR; CRITICAL].

(** *** logger.go: the methods of the logger *)

Definition Debug (l : LogBullLogger) := log l DEBUG.
Definition Info (l : LogBullLogger) := log l INFO.
Definition Warning (l : LogBullLogger) := log l WARNING.
Definition Error (l : LogBullLogger) := log l ERROR.
Definition Critical (l : LogBullLogger) := log l CRITICAL.

(** [WithContext l ctx l']: the call can return the logger [l'], which
    points to the sender of [l]. *)
Definition WithContext (l : LogBullLogger) (ctx : option (gmap string any))
    (l' : LogBullLogger) : Prop :=
  exists mergedContext,
    formatting.MergeFields (Some (context l)) ctx mergedContext
    /\ l' = mkLogger (loggerConfig l) (minLevel l) mergedContext.

(** [Flush] of the logger calls that of its sender. *)
Definition LoggerFlush (w : World) : World :=
  mkWorld (Flush (sender w)) (lastTimestampNs w) (console w).

(** *** Quantities of a run *)

(** The values of [lastTimestampNs] after each call of a sequence of calls
    of [GenerateUniqueTimestamp], one per clock reading. *)
Fixpoint issued (clock : list Z) (last : Z) : list Z :=
  match clock with
  | [] => []
  | now :: clock' =>
      let currentNs := (GenerateUniqueTimestamp now last).2 in
      currentNs :: issued clock' currentNs
  end.


(** The goroutines of [sendBatch] that hold a slot of [workerSem]. *)
Definition slotHolders (s : Sender) : Z :=
  Z.of_nat (length (List.filter holdsSlot (workers s))).

(** The requests that were sent. *)
Definition posts (s : Sender) : list Effect := List.filter isPost (effects s).


(** The accounts of the goroutines of a sender: the slots of [workerSem],
    the counter of the wait group, and the requests sent for the batches
    that were handed over. *)
Record accounts (s : Sender) : Prop := {
  acc_slots : workerSem s + slotHolders s = minWorkers;
  acc_free : 0 <= workerSem s;
  acc_wg :
    wg s = Z.of_nat (length (workers s)) + (if processor s then 1 else 0);
  acc_processor : processor s = false -> stopCh s = true;
  acc_posts : (length (posts s) + length (workers s) <= length (handed s))%nat;
  acc_target :
    Forall (fun e => exists data, e = postOf (config s) data) (posts s);
}.

End core.
End core.

(** ** Package [handlers]

    The levels of the three logging libraries are integers; the constants
    are those of [log/slog], [logrus] and [zapcore]. *)

Module slog.
Definition LevelDebug : Z := -4.
Definition LevelInfo : Z := 0.
Definition LevelWarn : Z := 4.
Definition LevelError : Z := 8.
End slog.

Module logrus.
Definition PanicLevel : Z := 0.
Definition FatalLevel : Z := 1.
Definition ErrorLevel : Z := 2.
Definition WarnLevel : Z := 3.
Definition InfoLevel : Z := 4.
Definition DebugLevel : Z := 5.
Definition TraceLevel : Z := 6.
End logrus.

Module zapcore.
Definition DebugLevel : Z := -1.
Definition InfoLevel : Z := 0.
Definition WarnLevel : Z := 1.
Definition ErrorLevel : Z := 2.
Definition DPanicLevel : Z := 3.
Definition PanicLevel : Z := 4.
Definition FatalLevel : Z := 5.
End zapcore.

(** What [extractFields] takes from [zapcore]: the type of fields, and the
    content of [enc.Fields] after [field.AddTo(enc)] was called for each
    field of a list, in order, on a new [MapObjectEncoder]. *)
Class Zapcore (R : Runtime) : Type := {
  Field : Type;
  encodeFields : list Field -> gmap string any;
}.

Module handlers.
Section handlers.
Context {R : Runtime}.

(** The loop [for key, value := range m { result[key] = value }] on a new
    map, with the order in which the map yields its entries. *)
Definition copyMap (m result : gmap string any) : Prop :=
  exists order, order ≡ₚ map_to_list m
                /\ result = foldl (fun r kv => <[kv.1 := kv.2]> r) ∅ order.

(** *** slog.go *)

(** An attribute: its key and [attr.Value.Any()]. *)
Record Attr : Type := mkAttr { Key : string; Value : any }.

(** What [Handle] reads of a [slog.Record]. *)
Record Record_ : Type := mkRecord {
  RecordLevel : Z;
  RecordMessage : string;
  RecordAttrs : list Attr;
}.

Record SlogHandler : Type := mkSlogHandler {
  slogConfig : core.Config;
  attrs : list Attr;
  group : string;
}.

Definition NewSlogHandler (config : core.Config)
    : (SlogHandler * core.Sender) + string :=
  let config :=
    core.mkConfig (strings.TrimSpace (core.ProjectID config))
      (strings.TrimSpace (core.Host config))
      (strings.TrimSpace (core.APIKey config)) (core.ConfigLogLevel config) in
  let config :=
    if decide (core.ConfigLogLevel config = EmptyString)
    then core.mkConfig (core.ProjectID config) (core.Host config)
           (core.APIKey config) core.INFO
    else config in
  match validation.ValidateProjectID (core.ProjectID config) with
  | Some err => inr err
  | None =>
      match validation.ValidateHostURL (core.Host config) with
      | Some err => inr err
      | None =>
          match (if decide (core.APIKey config = EmptyString) then None
                 else validation.ValidateAPIKey (core.APIKey config)) with
          | Some err => inr err
          | None => inl (mkSlogHandler config [] EmptyString, core.NewSender config)
          end
      end
  end.

Definition convertSlogLevel (level : Z) : core.LogLevel :=
  if level <? slog.LevelInfo then core.DEBUG
  else if level <? slog.LevelWarn then core.INFO
  else if level <? slog.LevelError then core.WARNING
  else core.ERROR.

Definition SlogEnabled (h : SlogHandler) (level : Z) : bool :=
  core.Priority (convertSlogLevel level)
  >=? core.Priority (core.ConfigLogLevel (slogConfig h)).

Definition addAttrToFields (fields : gmap string any) (attr : Attr)
    (group : string) : gmap string any :=
  let key := if decide (group = EmptyString) then Key attr
             else group +:+ "." +:+ Key attr in
  <[key := Value attr]> fields.

(** The map [fields] of [Handle] after its two loops. *)
Definition slogFields (h : SlogHandler) (record : Record_) : gmap string any :=
  foldl (fun fields attr => addAttrToFields fields attr (group h))
    (foldl (fun fields attr => addAttrToFields fields attr (group h)) ∅
       (attrs h))
    (RecordAttrs record).

(** [Handle h record w w']: the call takes the process from [w] to [w'];
    it returns [nil]. *)
Inductive Handle (h : SlogHandler) (record : Record_) (w : core.World)
    : core.World -> Prop :=
| Handle_entry now ensured s' :
    golang.is_int64 now ->
    formatting.EnsureFields (Some (slogFields h record)) ensured ->
    let '(ts, last) :=
      core.GenerateUniqueTimestamp now (core.lastTimestampNs w) in
    let entry :=
      core.mkLogEntry (convertSlogLevel (RecordLevel record))
        (formatting.FormatMessage (RecordMessage record)) ts (Some ensured) in
    core.AddLog (core.sender w) entry s' ->
    Handle h record w (core.mkWorld s' last (core.console w)).

Definition WithAttrs (h : SlogHandler) (newAttrs : list Attr) : SlogHandler :=
  mkSlogHandler (slogConfig h) (attrs h ++ newAttrs)%list (group h).

Definition WithGroup (h : SlogHandler) (name : string) : SlogHandler :=
  mkSlogHandler (slogConfig h) (attrs h) name.

(** *** The logrus hook *)

Record LogrusHook : Type := mkLogrusHook {
  hookConfig : core.Config;
  levels : list Z;
}.

(** What [Fire] reads of a [logrus.Entry]. *)
Record LogrusEntry : Type := mkLogrusEntry {
  EntryLevel : Z;
  EntryMessage : string;
  Data : gmap string any;
}.

Definition convertLogrusLevel (level : Z) : core.LogLevel :=
  if (level =? logrus.DebugLevel) || (level =? logrus.TraceLevel)
  then core.DEBUG
  else if level =? logrus.InfoLevel then core.INFO
  else if level =? logrus.WarnLevel then core.WARNING
  else if level =? logrus.ErrorLevel then core.ERROR
  else if (level =? logrus.FatalLevel) || (level =? logrus.PanicLevel)
  then core.CRITICAL
  else core.INFO.

Definition allLevels : list Z :=
  [logrus.TraceLevel; logrus.DebugLevel; logrus.InfoLevel; logrus.WarnLevel;
   logrus.ErrorLevel; logrus.FatalLevel; logrus.PanicLevel].

Definition levelsFromConfig (minLevel : core.LogLevel) : list Z :=
  let minPriority := core.Priority minLevel in
  foldl (fun result level =>
           if core.Priority (convertLogrusLevel level) >=? minPriority
           then (result ++ [level])%list else result)
    [] allLevels.

Definition NewLogrusHook (config : core.Config)
    : (LogrusHook * core.Sender) + string :=
  let config :=
    core.mkConfig (strings.TrimSpace (core.ProjectID config))
      (strings.TrimSpace (core.Host config))
      (strings.TrimSpace (core.APIKey config)) (core.ConfigLogLevel config) in
  let config :=
    if decide (core.ConfigLogLevel config = EmptyString)
    then core.mkConfig (core.ProjectID config) (core.Host config)
           (core.APIKey config) core.INFO
    else config in
  match validation.ValidateProjectID (core.ProjectID config) with
  | Some err => inr err
  | None =>
      match validation.ValidateHostURL (core.Host config) with
      | Some err => inr err
      | None =>
          match (if decide (core.APIKey config = EmptyString) then None
                 else validation.ValidateAPIKey (core.APIKey config)) with
          | Some err => inr err
          | None =>
              inl (mkLogrusHook config
                     (levelsFromConfig (core.ConfigLogLevel config)),
                   core.NewSender config)
          end
      end
  end.

Definition Levels (h : LogrusHook) : list Z := levels h.

Inductive Fire (h : LogrusHook) (entry : LogrusEntry) (w : core.World)
    : core.World -> Prop :=
| Fire_entry fields now ensured s' :
    copyMap (Data entry) fields ->
    golang.is_int64 now ->
    formatting.EnsureFields (Some fields) ensured ->
    let '(ts, last) :=
      core.GenerateUniqueTimestamp now (core.lastTimestampNs w) in
    let logEntry :=
      core.mkLogEntry (convertLogrusLevel (EntryLevel entry))
        (formatting.FormatMessage (EntryMessage entry)) ts (Some ensured) in
    core.AddLog (core.sender w) logEntry s' ->
    Fire h entry w (core.mkWorld s' last (core.console w)).

(** *** zap.go *)

Context {zap : Zapcore R}.

(** The field [sender] of a [ZapCore] is [nil] or the sender of the
    process: [hasSender]. *)
Record ZapCore : Type := mkZapCore {
  zapConfig : core.Config;
  hasSender : bool;
  fields : list Field;
  zapMinLevel : Z;
}.

(** What [Write] reads of a [zapcore.Entry]. *)
Record ZapEntry : Type := mkZapEntry {
  ZapLevel : Z;
  ZapMessage : string;
}.

Definition convertZapLevel (level : Z) : core.LogLevel :=
  if level =? zapcore.DebugLevel then core.DEBUG
  else if level =? zapcore.InfoLevel then core.INFO
  else if level =? zapcore.WarnLevel then core.WARNING
  else if level =? zapcore.ErrorLevel then core.ERROR
  else if (level =? zapcore.DPanicLevel) || (level =? zapcore.PanicLevel)
          || (level =? zapcore.FatalLevel)
  then core.CRITICAL
  else core.INFO.

Definition convertLogLevelToZap (level : core.LogLevel) : Z :=
  if decide (level = core.DEBUG) then zapcore.DebugLevel
  else if decide (level = core.INFO) then zapcore.InfoLevel
  else if decide (level = core.WARNING) then zapcore.WarnLevel
  else if decide (level = core.ERROR) then zapcore.ErrorLevel
  else if decide (level = core.CRITICAL) then zapcore.FatalLevel
  else zapcore.InfoLevel.

(** [NewZapCore config]: what it prints, then the core and its sender, or
    the error. *)
Definition NewZapCore (config : core.Config)
    : list core.Effect * ((ZapCore * option core.Sender) + string) :=
  let config :=
    core.mkConfig (strings.TrimSpace (core.ProjectID config))
      (strings.TrimSpace (core.Host config))
      (strings.TrimSpace (core.APIKey config)) (core.ConfigLogLevel config) in
  let config :=
    if decide (core.ConfigLogLevel config = EmptyString)
    then core.mkConfig (core.ProjectID config) (core.Host config)
           (core.APIKey config) core.INFO
    else config in
  if bool_decide (core.ProjectID config = EmptyString)
     || bool_decide (core.Host config = EmptyString)
  then
    ([core.Stderr
        ("LogBull: No credentials provided for ZapCore. Handler is disabled. Logs will not be sent to LogBull server."
         +:+ core.nl)],
     inl (mkZapCore config false []
            (convertLogLevelToZap (core.ConfigLogLevel config)), None))
  else
    match validation.ValidateProjectID (core.ProjectID config) with
    | Some err => ([], inr err)
    | None =>
        match validation.ValidateHostURL (core.Host config) with
        | Some err => ([], inr err)
        | None =>
            match (if decide (core.APIKey config = EmptyString) then None
                   else validation.ValidateAPIKey (core.APIKey config)) with
            | Some err => ([], inr err)
            | None =>
                ([], inl (mkZapCore config true []
                            (convertLogLevelToZap (core.ConfigLogLevel config)),
                          Some (core.NewSender config)))
            end
        end
    end.

Definition ZapEnabled (z : ZapCore) (level : Z) : bool := level >=? zapMinLevel z.

Definition With (z : ZapCore) (newFields : list Field) : ZapCore :=
  mkZapCore (zapConfig z) (hasSender z) (fields z ++ newFields)%list
    (zapMinLevel z).

Definition extractFields (allFields : list Field) (result : gmap string any)
    : Prop :=
  copyMap (encodeFields allFields) result.

Inductive Write (z : ZapCore) (entry : ZapEntry) (newFields : list Field)
    (w : core.World) : core.World -> Prop :=
| Write_disabled :
    hasSender z = false ->
    Write z entry newFields w w
| Write_entry extractedFields now ensured s' :
    hasSender z = true ->
    extractFields (fields z ++ newFields)%list extractedFields ->
    golang.is_int64 now ->
    formatting.EnsureFields (Some extractedFields) ensured ->
    let '(ts, last) :=
      core.GenerateUniqueTimestamp now (core.lastTimestampNs w) in
    let logEntry :=
      core.mkLogEntry (convertZapLevel (ZapLevel entry))
        (formatting.FormatMessage (ZapMessage entry)) ts (Some ensured) in
    core.AddLog (core.sender w) logEntry s' ->
    Write z entry newFields w (core.mkWorld s' last (core.console w)).

Definition Sync (z : ZapCore) (w : core.World) : core.World :=
  if hasSender z then core.LoggerFlush w else w.

(** What a handler does with a record of level [level], message [message]
    and fields [fields], from [w] to [w']: it prints nothing and hands
    nothing to the transport, and on a sender that is not shut down and
    has room in its queue it adds one entry, made of the level, the
    formatted message, which has at most 10000 bytes, and the sanitized
    fields. *)
Definition queuesEntry (w w' : core.World) (level : core.LogLevel)
    (message : string) (fields : gmap string any) : Prop :=
  core.console w' = core.console w
  /\ core.handed (core.sender w') = core.handed (core.sender w)
  /\ (core.stopCh (core.sender w) = false ->
      Z.of_nat (length (core.logQueue (core.sender w))) < core.queueCapacity ->
      exists entry ensured,
        core.logQueue (core.sender w')
        = (core.logQueue (core.sender w) ++ [entry])%list
        /\ core.Level entry = level
        /\ core.Message entry = formatting.FormatMessage message
        /\ validation.len (core.Message entry)
           <= formatting.defaultMaxMessageLength
        /\ core.Fields entry = Some ensured
        /\ formatting.EnsureFields (Some fields) ensured
        /\ formatting.sanitized ensured).

End handlers.
End handlers.

(** ** A small runtime for the examples

    Values are null, booleans, integers, strings and channels; a channel
    is what [json.Marshal] refuses. URLs are read as
    [scheme://host/path]. *)

Module example.

Inductive value : Type :=
| VNil
| VBool (b : bool)
| VInt (n : Z)
| VString (s : string)
| VChan (address : Z).

Definition quote : string := String (ascii_of_N 34) EmptyString.

Definition marshal (v : value) : option string :=
  match v with
  | VNil => Some "null"
  | VBool true => Some "true"
  | VBool false => Some "false"
  | VInt n => Some (golang.format_d n)
  | VString s => Some (quote +:+ s +:+ quote)
  | VChan _ => None
  end.

Definition sprint (v : value) : string :=
  match v with
  | VNil => "<nil>"
  | VBool true => "true"
  | VBool false => "false"
  | VInt n => golang.format_d n
  | VString s => s
  | VChan address => "0x" +:+ golang.format_d address
  end.

Definition sprintMap (m : gmap string value) : string :=
  "map[" +:+ String.concat " " (map (fun kv => kv.1 +:+ ":" +:+ sprint kv.2)
                                   (map_to_list m)) +:+ "]".

(** The text before the first occurrence of the byte [c], and the text
    after it. *)
Fixpoint cut (c : ascii) (s : string) : string * option string :=
  match s with
  | EmptyString => (EmptyString, None)
  | String a s' =>
      if Ascii.eqb a c then (EmptyString, Some s')
      else let '(before, after) := cut c s' in (String a before, after)
  end.

Definition parseURL (s : string) : URL + string :=
  match cut ":" s with
  | (scheme, Some rest) =>
      match rest with
      | String "/" (String "/" authority) =>
          inl (mkURL scheme (fst (cut "/" authority)))
      | _ => inl (mkURL scheme EmptyString)
      end
  | (_, None) => inl (mkURL EmptyString EmptyString)
  end.

#[export] Instance runtime : Runtime := {|
  any := value;
  isNil := fun v => match v with VNil => true | _ => false end;
  anyString := VString;
  json_Marshal := marshal;
  fmt_Sprint := sprint;
  fmt_Sprint_map := sprintMap;
  url_Parse := parseURL;
|}.

Definition config : core.Config :=
  core.mkConfig "12345678-1234-1234-1234-123456789012"
    "http://localhost:4005" EmptyString core.INFO.

Definition entry (message : string) : core.LogEntry :=
  core.mkLogEntry "INFO" message "2023-11-14T22:13:20.000000000Z"
    (Some {[ "key" := VString "value" ]}).

(** A delivery that goes through and is answered with [status] and
    [body]. *)
Definition exchange (status : Z) (body : string)
    (decoded : option core.LogBullResponse) : core.Exchange :=
  core.mkExchange (inl "{}") None
    (inl (core.mkResponse status (inl body) decoded None)).

Definition rejection : core.LogBullResponse :=
  core.mkLogBullResponse 0 1 EmptyString
    [core.mkRejectedLog 0 "Invalid log format"; core.mkRejectedLog 1 "none"].

(** Fields of [zap] that are a key and a value: [AddTo] stores the value
    under the key. *)
#[export] Instance zap : Zapcore runtime := {|
  Field := string * value;
  encodeFields := foldl (fun m kv => <[kv.1 := kv.2]> m) ∅;
|}.

Definition shutdownEvents : list core.Event :=
  [core.CallAddLog (entry "before shutdown"); core.CallShutdown;
   core.CallShutdown; core.ProcessorStop;
   core.WorkerDone 0 (exchange 200 "{}" None); core.ShutdownReturn;
   core.CallShutdown].

End example.

(** * Properties *)

(** ** The order of strings on timestamps *)

Section string_order.

Lemma string_compare_refl (s : string) : String.compare s s = Eq.
Proof.
  induction s as [|c s IH]; simpl; [reflexivity|].
  replace (Ascii.compare c c) with Eq; [exact IH|].
  symmetry. unfold Ascii.compare. apply N.compare_refl.
Qed.

Lemma string_compare_app (a1 a2 b1 b2 : string) :
  String.length a1 = String.length a2 ->
  String.compare (a1 +:+ b1) (a2 +:+ b2)
  = golang.lexc (String.compare a1 a2) (String.compare b1 b2).
Proof.
  revert a2. induction a1 as [|c1 a1 IH]; intros [|c2 a2] Hlen;
    simpl in Hlen; try discriminate; simpl; [reflexivity|].
  destruct (Ascii.compare c1 c2); simpl; try reflexivity.
  apply IH. congruence.
Qed.

Lemma string_compare_app_same (a b1 b2 : string) :
  String.compare (a +:+ b1) (a +:+ b2) = String.compare b1 b2.
Proof.
  rewrite string_compare_app by reflexivity. now rewrite string_compare_refl.
Qed.

Lemma string_length_app (a b : string) :
  String.length (a +:+ b) = (String.length a + String.length b)%nat.
Proof. induction a as [|c a IH]; simpl; [reflexivity | now rewrite IH]. Qed.

Lemma pad_length (w : nat) (n : Z) : String.length (golang.pad w n) = w.
Proof.
  revert n. induction w as [|w IH]; intros n; simpl; [reflexivity|].
  rewrite string_length_app, IH. simpl. lia.
Qed.

Lemma digit_compare (a b : Z) :
  Ascii.compare (golang.digit a) (golang.digit b) = (a mod 10 ?= b mod 10).
Proof.
  unfold Ascii.compare, golang.digit.
  pose proof (Z.mod_pos_bound a 10 ltac:(lia)) as Ha.
  pose proof (Z.mod_pos_bound b 10 ltac:(lia)) as Hb.
  rewrite (N_ascii_embedding (48 + Z.to_N (a mod 10))) by lia.
  rewrite (N_ascii_embedding (48 + Z.to_N (b mod 10))) by lia.
  destruct (Z.compare_spec (a mod 10) (b mod 10));
    [apply N.compare_eq_iff | apply N.compare_lt_iff | apply N.compare_gt_iff];
    lia.
Qed.

Lemma compare_digits (a b : Z) :
  (a ?= b) = golang.lexc (a / 10 ?= b / 10) (a mod 10 ?= b mod 10).
Proof.
  pose proof (Z.div_mod a 10 ltac:(lia)).
  pose proof (Z.div_mod b 10 ltac:(lia)).
  pose proof (Z.mod_pos_bound a 10 ltac:(lia)).
  pose proof (Z.mod_pos_bound b 10 ltac:(lia)).
  destruct (Z.compare_spec (a / 10) (b / 10)); simpl.
  - destruct (Z.compare_spec (a mod 10) (b mod 10));
      [apply Z.compare_eq_iff | apply Z.compare_lt_iff | apply Z.compare_gt_iff];
      lia.
  - apply Z.compare_lt_iff. lia.
  - apply Z.compare_gt_iff. lia.
Qed.

(** Numbers printed on the same number of digits compare as numbers. *)
Lemma compare_pad (w : nat) (a b : Z) :
  String.compare (golang.pad w a) (golang.pad w b)
  = (a mod 10 ^ Z.of_nat w ?= b mod 10 ^ Z.of_nat w).
Proof.
  revert a b. induction w as [|w IH]; intros a b.
  - simpl. now rewrite !Z.mod_1_r.
  - cbn [golang.pad]. rewrite string_compare_app by now rewrite !pad_length.
    rewrite IH. cbn [String.compare]. rewrite digit_compare.
    replace (golang.lexc (a / 10 mod 10 ^ Z.of_nat w ?= b / 10 mod 10 ^ Z.of_nat w)
               match a mod 10 ?= b mod 10 with Eq => Eq | c => c end)
      with (golang.lexc (a / 10 mod 10 ^ Z.of_nat w ?= b / 10 mod 10 ^ Z.of_nat w)
              (a mod 10 ?= b mod 10))
      by now destruct (a mod 10 ?= b mod 10).
    rewrite (compare_digits (a mod 10 ^ Z.of_nat (S w))).
    assert (Hpow : 10 ^ Z.of_nat (S w) = 10 * 10 ^ Z.of_nat w)
      by (rewrite Nat2Z.inj_succ, Z.pow_succ_r by lia; reflexivity).
    assert (Hpos : 0 < 10 ^ Z.of_nat w) by (apply Z.pow_pos_nonneg; lia).
    rewrite Hpow.
    assert (Hq : forall x, (x mod (10 * 10 ^ Z.of_nat w)) / 10
                           = (x / 10) mod 10 ^ Z.of_nat w).
    { intros x. rewrite Z.rem_mul_r by lia.
      rewrite (Z.mul_comm 10), Z.div_add by lia.
      rewrite (Z.div_small (x mod 10)) by (apply Z.mod_pos_bound; lia).
      reflexivity. }
    assert (Hr : forall x, (x mod (10 * 10 ^ Z.of_nat w)) mod 10 = x mod 10).
    { intros x. rewrite Z.rem_mul_r by lia.
      rewrite (Z.mul_comm 10), Z.mod_add by lia.
      apply Z.mod_mod. lia. }
    now rewrite !Hq, !Hr.
Qed.

Lemma compare_pad_small (w : nat) (a b : Z) :
  0 <= a < 10 ^ Z.of_nat w -> 0 <= b < 10 ^ Z.of_nat w ->
  String.compare (golang.pad w a) (golang.pad w b) = (a ?= b).
Proof.
  intros Ha Hb. rewrite compare_pad, !Z.mod_small by assumption. reflexivity.
Qed.

End string_order.

(** ** The calendar *)

Section calendar.

Ltac euclid := Z.to_euclidean_division_equations; lia.

Lemma yearDay_bounds (doe : Z) :
  0 <= doe < 146097 ->
  0 <= (time.yearDay doe).1 < 400 /\ 0 <= (time.yearDay doe).2 <= 365.
Proof. intros H. unfold time.yearDay. cbn [fst snd]. euclid. Qed.

(** Later days of a 400-year cycle are in later years, or later in the
    same year. *)
Lemma yearDay_mono (a b : Z) :
  0 <= a -> a < b -> b < 146097 ->
  (time.yearDay a).1 < (time.yearDay b).1
  \/ (time.yearDay a).1 = (time.yearDay b).1
     /\ (time.yearDay a).2 < (time.yearDay b).2.
Proof. intros H1 H2 H3. unfold time.yearDay. cbn [fst snd]. euclid. Qed.

Lemma monthDay_bounds (doy : Z) :
  0 <= doy <= 365 ->
  0 <= (time.monthDay doy).1 <= 11 /\ 1 <= (time.monthDay doy).2 <= 31.
Proof. intros H. unfold time.monthDay. cbn [fst snd]. euclid. Qed.

Lemma monthDay_mono (a b : Z) :
  0 <= a -> a < b -> b <= 365 ->
  (time.monthDay a).1 < (time.monthDay b).1
  \/ (time.monthDay a).1 = (time.monthDay b).1
     /\ (time.monthDay a).2 < (time.monthDay b).2.
Proof. intros H1 H2 H3. unfold time.monthDay. cbn [fst snd]. euclid. Qed.


Lemma Date_unfold (days : Z) :
  time.Date days =
  let z := days + 719468 in
  let yd := time.yearDay (z mod 146097) in
  let md := time.monthDay yd.2 in
  let m := if md.1 <? 10 then md.1 + 3 else md.1 - 9 in
  let y := yd.1 + 400 * (z / 146097) in
  (if m <=? 2 then y + 1 else y, m, md.2).
Proof.
  unfold time.Date. cbv zeta.
  destruct (time.yearDay _) as [yoe doy]. cbn [fst snd].
  destruct (time.monthDay _) as [mp d]. reflexivity.
Qed.

Lemma lexc_Lt (a1 a2 : Z) (c : comparison) :
  a1 < a2 \/ a1 = a2 /\ c = Lt -> golang.lexc (a1 ?= a2) c = Lt.
Proof.
  intros [H | [-> H]].
  - apply Z.compare_lt_iff in H. now rewrite H.
  - now rewrite Z.compare_refl.
Qed.

Lemma date_compare_Lt (a b : Z * Z * Z) :
  a.1.1 < b.1.1
  \/ a.1.1 = b.1.1 /\ (a.1.2 < b.1.2 \/ a.1.2 = b.1.2 /\ a.2 < b.2) ->
  time.date_compare a b = Lt.
Proof.
  intros H. unfold time.date_compare. apply lexc_Lt.
  destruct H as [H | [H1 H2]]; [now left | right; split; [assumption|]].
  apply lexc_Lt. destruct H2 as [H | [H2 H3]]; [now left | right].
  split; [assumption | now apply Z.compare_lt_iff].
Qed.

Lemma Date_bounds (days : Z) :
  1 <= (time.Date days).1.2 <= 12 /\ 1 <= (time.Date days).2 <= 31.
Proof.
  rewrite Date_unfold. cbv zeta. cbn [fst snd].
  set (z := days + 719468).
  pose proof (Z.mod_pos_bound z 146097 ltac:(lia)) as Hdoe.
  pose proof (yearDay_bounds _ Hdoe) as [_ Hdoy].
  pose proof (monthDay_bounds _ Hdoy) as [Hmp Hd].
  destruct (_ <? 10) eqn:E; lia.
Qed.

Lemma Date_year (days : Z) :
  -106752 <= days <= 106751 -> 1600 <= (time.Date days).1.1 <= 2400.
Proof.
  intros Hr. rewrite Date_unfold. cbv zeta. cbn [fst snd].
  set (z := days + 719468).
  pose proof (Z.mod_pos_bound z 146097 ltac:(lia)) as Hdoe.
  pose proof (yearDay_bounds _ Hdoe) as [Hyoe _].
  assert (4 <= z / 146097 <= 5) by (subst z; euclid).
  destruct (_ <=? 2); lia.
Qed.

(** A later day has a later date. *)
Lemma Date_mono (a b : Z) :
  a < b -> time.date_compare (time.Date a) (time.Date b) = Lt.
Proof.
  intros Hab. rewrite !Date_unfold. cbv zeta.
  set (za := a + 719468). set (zb := b + 719468).
  pose proof (Z.mod_pos_bound za 146097 ltac:(lia)) as Hda.
  pose proof (Z.mod_pos_bound zb 146097 ltac:(lia)) as Hdb.
  pose proof (yearDay_bounds _ Hda) as [Hya Hdoya].
  pose proof (yearDay_bounds _ Hdb) as [Hyb Hdoyb].
  pose proof (monthDay_bounds _ Hdoya) as [Hma Hdda].
  pose proof (monthDay_bounds _ Hdoyb) as [Hmb Hddb].
  assert (Hera : za / 146097 < zb / 146097
                 \/ za / 146097 = zb / 146097
                    /\ za mod 146097 < zb mod 146097)
    by (subst za zb; euclid).
  set (ya := time.yearDay (za mod 146097)) in *.
  set (yb := time.yearDay (zb mod 146097)) in *.
  set (ea := za / 146097) in *. set (eb := zb / 146097) in *.
  assert (Hy : ya.1 + 400 * ea < yb.1 + 400 * eb
               \/ ya.1 + 400 * ea = yb.1 + 400 * eb /\ ya.2 < yb.2).
  { destruct Hera as [H | [H1 H2]]; [left; lia|].
    pose proof (yearDay_mono (za mod 146097) (zb mod 146097)) as Hmono.
    fold ya yb in Hmono. lia. }
  set (ma := time.monthDay ya.2) in *. set (mb := time.monthDay yb.2) in *.
  assert (Hm : ya.2 < yb.2 -> ma.1 < mb.1 \/ ma.1 = mb.1 /\ ma.2 < mb.2).
  { intros H. apply monthDay_mono; lia. }
  apply date_compare_Lt. cbn [fst snd].
  repeat match goal with
         | |- context [if ?c then _ else _] => destruct c eqn:?
         end; lia.
Qed.

End calendar.

(** ** Timestamps *)

Section timestamps.

Ltac euclid := Z.to_euclidean_division_equations; lia.

(** [formatTimestamp] hands [time.Unix] a truncated quotient and its
    remainder; [time.Unix] turns them into the floor and the modulus. *)
Lemma Unix_quot_rem (ns : Z) :
  time.Unix (Z.quot ns 1000000000) (Z.rem ns 1000000000)
  = time.mkTime (ns / 1000000000) (ns mod 1000000000).
Proof.
  unfold time.Unix.
  assert (Hq : Z.quot (Z.rem ns 1000000000) 1000000000 = 0) by euclid.
  rewrite Hq.
  repeat match goal with
         | |- context [if ?c then _ else _] => destruct c eqn:?
         end; f_equal; euclid.
Qed.

Lemma lexc_assoc (a b c : comparison) : golang.lexc (golang.lexc a b) c = golang.lexc a (golang.lexc b c).
Proof. now destruct a. Qed.

Lemma lexc_Eq_r (a : comparison) : golang.lexc a Eq = a.
Proof. now destruct a. Qed.

Lemma date_compare_refl (a : Z * Z * Z) : time.date_compare a a = Eq.
Proof. unfold time.date_compare. now rewrite !Z.compare_refl. Qed.

(** Two timestamps of the layout compare as the tuples of their fields. *)
Lemma Format_compare (t1 t2 : time.Time) :
  let d1 := time.Date (time.unixSec t1 / 86400) in
  let d2 := time.Date (time.unixSec t2 / 86400) in
  let s1 := time.unixSec t1 mod 86400 in
  let s2 := time.unixSec t2 mod 86400 in
  0 <= d1.1.1 < 10000 -> 0 <= d2.1.1 < 10000 ->
  0 <= time.nsec t1 < 1000000000 -> 0 <= time.nsec t2 < 1000000000 ->
  String.compare (time.Format t1) (time.Format t2)
  = golang.lexc (time.date_compare d1 d2)
      (golang.lexc (s1 / 3600 ?= s2 / 3600)
         (golang.lexc (s1 mod 3600 / 60 ?= s2 mod 3600 / 60)
            (golang.lexc (s1 mod 60 ?= s2 mod 60) (time.nsec t1 ?= time.nsec t2)))).
Proof.
  intros d1 d2 s1 s2 Hy1 Hy2 Hn1 Hn2. unfold time.Format.
  fold d1 d2 s1 s2.
  pose proof (Date_bounds (time.unixSec t1 / 86400)) as [Hm1 Hd1].
  pose proof (Date_bounds (time.unixSec t2 / 86400)) as [Hm2 Hd2].
  fold d1 in Hm1, Hd1. fold d2 in Hm2, Hd2.
  pose proof (Z.mod_pos_bound (time.unixSec t1) 86400 ltac:(lia)) as Hs1.
  pose proof (Z.mod_pos_bound (time.unixSec t2) 86400 ltac:(lia)) as Hs2.
  fold s1 in Hs1. fold s2 in Hs2.
  destruct d1 as [[y1 m1] dd1], d2 as [[y2 m2] dd2]. cbn [fst snd] in *.
  unfold time.date_compare. cbn [fst snd].
  repeat first
    [ rewrite string_compare_app_same
    | rewrite string_compare_app by (now rewrite !pad_length);
      rewrite compare_pad_small by (cbn; euclid) ].
  change (String.compare "Z" "Z") with Eq. rewrite lexc_Eq_r, !lexc_assoc.
  reflexivity.
Qed.


(** [formatTimestamp] is strictly increasing on [int64]: the years have
    four digits there, so that the order of the strings is the order of
    the instants. *)
Lemma formatTimestamp_lt (a b : Z) :
  golang.is_int64 a -> golang.is_int64 b -> a < b ->
  golang.string_lt (core.formatTimestamp a) (core.formatTimestamp b).
Proof.
  unfold golang.is_int64, golang.min_int64, golang.max_int64.
  intros Ha Hb Hab. unfold golang.string_lt, core.formatTimestamp.
  rewrite !Unix_quot_rem.
  assert (Hda : -106752 <= a / 1000000000 / 86400 <= 106751) by euclid.
  assert (Hdb : -106752 <= b / 1000000000 / 86400 <= 106751) by euclid.
  rewrite Format_compare; cbn [time.unixSec time.nsec];
    try (apply Z.mod_pos_bound; lia);
    try (pose proof (Date_year _ Hda); pose proof (Date_year _ Hdb); lia).
  set (sa := a / 1000000000) in *. set (sb := b / 1000000000) in *.
  assert (Hs : sa < sb \/ sa = sb /\ a mod 1000000000 < b mod 1000000000)
    by (subst sa sb; euclid).
  assert (Hd : sa / 86400 < sb / 86400
               \/ sa / 86400 = sb / 86400
                  /\ (sa mod 86400 < sb mod 86400
                      \/ sa mod 86400 = sb mod 86400
                         /\ a mod 1000000000 < b mod 1000000000))
    by euclid.
  destruct Hd as [Hd | [Hd Hrest]].
  - now rewrite (Date_mono _ _ Hd).
  - rewrite Hd, date_compare_refl. cbn [golang.lexc].
    set (ta := sa mod 86400) in *. set (tb := sb mod 86400) in *.
    apply lexc_Lt.
    assert (ta / 3600 < tb / 3600 \/ ta / 3600 = tb / 3600
            /\ (ta mod 3600 / 60 < tb mod 3600 / 60
                \/ ta mod 3600 / 60 = tb mod 3600 / 60
                   /\ (ta mod 60 < tb mod 60
                       \/ ta mod 60 = tb mod 60
                          /\ a mod 1000000000 < b mod 1000000000)))
      as [H | [H1 H2]] by euclid; [now left | right; split; [assumption|]].
    apply lexc_Lt.
    destruct H2 as [H | [H2 H3]]; [now left | right; split; [assumption|]].
    apply lexc_Lt.
    destruct H3 as [H | [H3 H4]]; [now left | right; split; [assumption|]].
    now apply Z.compare_lt_iff.
Qed.

End timestamps.

Section unique_timestamps.

Lemma wrap64_small (z : Z) : golang.is_int64 z -> golang.wrap64 z = z.
Proof.
  unfold golang.is_int64, golang.wrap64, golang.min_int64, golang.max_int64.
  intros H. rewrite Z.mod_small; lia.
Qed.

(** One call below the limit issues an [int64] above the last one. *)
Lemma Generate_issued (now last : Z) :
  golang.is_int64 now -> golang.is_int64 last -> last < golang.max_int64 ->
  let cur := (core.GenerateUniqueTimestamp now last).2 in
  golang.is_int64 cur /\ last < cur
  /\ (core.GenerateUniqueTimestamp now last).1 = core.formatTimestamp cur.
Proof.
  intros Hn Hl Hlim. unfold core.GenerateUniqueTimestamp. cbn [fst snd].
  unfold golang.is_int64, golang.min_int64, golang.max_int64 in *.
  destruct (Z.leb_spec now last).
  - rewrite wrap64_small;
      unfold golang.is_int64, golang.min_int64, golang.max_int64;
      repeat split; lia.
  - repeat split; lia.
Qed.

Lemma timestamps_above (clock : list Z) (last x : Z) :
  golang.is_int64 last -> Forall golang.is_int64 clock ->
  core.belowLimit clock last ->
  golang.is_int64 x -> x <= last ->
  Forall (golang.string_lt (core.formatTimestamp x))
    (core.timestamps clock last).
Proof.
  revert last. induction clock as [|now clock IH]; intros last Hl Hc Hb Hx Hle.
  - constructor.
  - inversion Hc as [|? ? Hn Hc']; subst. destruct Hb as [Hlim Hb].
    destruct (Generate_issued now last Hn Hl Hlim) as (Hcur & Hlt & Hts).
    cbn [core.timestamps].
    destruct (core.GenerateUniqueTimestamp now last) as [ts cur].
    cbn [fst snd] in *. subst ts. constructor.
    + apply formatTimestamp_lt; [assumption | assumption | lia].
    + apply IH; [assumption | assumption | assumption | assumption | lia].
Qed.

End unique_timestamps.

(** C2, as amended. In every sequence of calls of
    [GenerateUniqueTimestamp] during which [lastTimestampNs] is below the
    largest [int64] when a call is made, each call returns a string that is
    strictly greater than the string of every earlier call of the sequence
    and than the string of the value issued before the sequence, whatever
    the clock reads: when the clock has not advanced the call issues the
    last value plus one nanosecond. *)
Theorem timestamps_strictly_increasing (clock : list Z) (last : Z) :
  golang.is_int64 last -> Forall golang.is_int64 clock ->
  core.belowLimit clock last ->
  StronglySorted golang.string_lt (core.timestamps clock last)
  /\ Forall (golang.string_lt (core.formatTimestamp last))
       (core.timestamps clock last)
  /\ forall now, golang.is_int64 now -> now <= last ->
       last < golang.max_int64 ->
       core.GenerateUniqueTimestamp now last
       = (core.formatTimestamp (last + 1), last + 1).
Proof.
  intros Hl Hc Hb. split; [|split].
  - revert last Hl Hb. induction Hc as [|now clock Hn Hc IH]; intros last Hl Hb.
    + constructor.
    + destruct Hb as [Hlim Hb].
      destruct (Generate_issued now last Hn Hl Hlim) as (Hcur & Hlt & Hts).
      pose proof (timestamps_above clock _ _ Hcur Hc Hb Hcur (Z.le_refl _))
        as Habove.
      specialize (IH _ Hcur Hb). cbn [core.timestamps].
      destruct (core.GenerateUniqueTimestamp now last) as [ts cur].
      cbn [fst snd] in *. subst ts. now constructor.
  - apply timestamps_above; [assumption | assumption | assumption | assumption | lia].
  - intros now Hn Hle Hlim. unfold core.GenerateUniqueTimestamp.
    destruct (Z.leb_spec now last); [|lia].
    rewrite wrap64_small; [reflexivity|].
    unfold golang.is_int64, golang.min_int64, golang.max_int64 in *. lia.
Qed.

Lemma timestamps_strictly_increasing_witness :
  StronglySorted golang.string_lt
    (core.timestamps [5; 5; 3; 10] 0).
Proof.
  apply (timestamps_strictly_increasing [5; 5; 3; 10] 0).
  - unfold golang.is_int64, golang.min_int64, golang.max_int64. lia.
  - repeat constructor; vm_compute; discriminate.
  - vm_compute. repeat split.
Defined.

(** C2 fails where the counter wraps around: when the clock reads the
    largest [int64] twice, the second call issues the smallest [int64],
    and its string (of the year 1677) is below the first one (of 2262). *)
Lemma timestamps_wrap_around :
  core.timestamps [golang.max_int64; golang.max_int64] 0
  = ["2262-04-11T23:47:16.854775807Z"; "1677-09-21T00:12:43.145224192Z"]
  /\ ~ StronglySorted golang.string_lt
        (core.timestamps [golang.max_int64; golang.max_int64] 0).
Proof.
  split; [reflexivity|].
  intros H. apply StronglySorted_inv in H as [_ H].
  apply Forall_inv in H. vm_compute in H. discriminate.
Qed.

(** ** Trimming and sanitizing *)

Section trim.

Lemma trimLeft_eq (s : list ascii) :
  strings.trimLeft s =
  match s with
  | c1 :: s1 =>
      if strings.asciiSpace c1 then strings.trimLeft s1
      else match s1 with
           | c2 :: s2 =>
               if strings.space2 c1 c2 then strings.trimLeft s2
               else match s2 with
                    | c3 :: s3 =>
                        if strings.space3 c1 c2 c3 then strings.trimLeft s3
                        else s
                    | [] => s
                    end
           | [] => s
           end
  | [] => []
  end.
Proof. now destruct s. Qed.

Lemma trimRightRev_eq (r : list ascii) :
  strings.trimRightRev r =
  match r with
  | c1 :: r1 =>
      if strings.asciiSpace c1 then strings.trimRightRev r1
      else match r1 with
           | c2 :: r2 =>
               if strings.space2 c2 c1 then strings.trimRightRev r2
               else match r2 with
                    | c3 :: r3 =>
                        if strings.space3 c3 c2 c1 then strings.trimRightRev r3
                        else r
                    | [] => r
                    end
           | [] => r
           end
  | [] => []
  end.
Proof. now destruct r. Qed.

Lemma trimLeft_suffix (s : list ascii) : exists p, s = (p ++ strings.trimLeft s)%list.
Proof.
  induction s as [s IH] using (induction_ltof1 _ (@length ascii)).
  unfold ltof in IH.
  destruct s as [|c1 [|c2 [|c3 s]]]; rewrite trimLeft_eq; cbv beta iota.
  - now exists [].
  - destruct (strings.asciiSpace c1); [now exists [c1] | now exists []].
  - destruct (strings.asciiSpace c1).
    + destruct (IH [c2]) as [p Hp]; [simpl; lia|]. exists (c1 :: p).
      cbn [app]. now rewrite <- Hp.
    + destruct (strings.space2 c1 c2); [now exists [c1; c2] | now exists []].
  - destruct (strings.asciiSpace c1).
    + destruct (IH (c2 :: c3 :: s)) as [p Hp]; [simpl; lia|].
      exists (c1 :: p). cbn [app]. now rewrite <- Hp.
    + destruct (strings.space2 c1 c2).
      * destruct (IH (c3 :: s)) as [p Hp]; [simpl; lia|].
        exists (c1 :: c2 :: p). cbn [app]. now rewrite <- Hp.
      * destruct (strings.space3 c1 c2 c3).
        -- destruct (IH s) as [p Hp]; [simpl; lia|].
           exists (c1 :: c2 :: c3 :: p). cbn [app]. now rewrite <- Hp.
        -- now exists [].
Qed.

Lemma trimLeft_clean (s : list ascii) : strings.headClean (strings.trimLeft s).
Proof.
  induction s as [s IH] using (induction_ltof1 _ (@length ascii)).
  unfold ltof in IH.
  destruct s as [|c1 [|c2 [|c3 s]]]; rewrite trimLeft_eq; cbv beta iota.
  - exact I.
  - destruct (strings.asciiSpace c1) eqn:E1; simpl; auto.
  - destruct (strings.asciiSpace c1) eqn:E1; [apply IH; simpl; lia|].
    destruct (strings.space2 c1 c2) eqn:E2; simpl; auto.
  - destruct (strings.asciiSpace c1) eqn:E1; [apply IH; simpl; lia|].
    destruct (strings.space2 c1 c2) eqn:E2; [apply IH; simpl; lia|].
    destruct (strings.space3 c1 c2 c3) eqn:E3; [apply IH; simpl; lia|].
    simpl. auto.
Qed.

Lemma trimLeft_fix (s : list ascii) : strings.headClean s -> strings.trimLeft s = s.
Proof.
  destruct s as [|c1 [|c2 [|c3 s]]]; simpl; try reflexivity.
  - now intros [-> _].
  - now intros [-> [-> _]].
  - now intros [-> [-> ->]].
Qed.

Lemma trimRightRev_suffix (r : list ascii) :
  exists p, r = (p ++ strings.trimRightRev r)%list.
Proof.
  induction r as [r IH] using (induction_ltof1 _ (@length ascii)).
  unfold ltof in IH.
  destruct r as [|c1 [|c2 [|c3 r]]]; rewrite trimRightRev_eq; cbv beta iota.
  - now exists [].
  - destruct (strings.asciiSpace c1); [now exists [c1] | now exists []].
  - destruct (strings.asciiSpace c1).
    + destruct (IH [c2]) as [p Hp]; [simpl; lia|]. exists (c1 :: p).
      cbn [app]. now rewrite <- Hp.
    + destruct (strings.space2 c2 c1); [now exists [c1; c2] | now exists []].
  - destruct (strings.asciiSpace c1).
    + destruct (IH (c2 :: c3 :: r)) as [p Hp]; [simpl; lia|].
      exists (c1 :: p). cbn [app]. now rewrite <- Hp.
    + destruct (strings.space2 c2 c1).
      * destruct (IH (c3 :: r)) as [p Hp]; [simpl; lia|].
        exists (c1 :: c2 :: p). cbn [app]. now rewrite <- Hp.
      * destruct (strings.space3 c3 c2 c1).
        -- destruct (IH r) as [p Hp]; [simpl; lia|].
           exists (c1 :: c2 :: c3 :: p). cbn [app]. now rewrite <- Hp.
        -- now exists [].
Qed.

Lemma trimRightRev_clean (r : list ascii) : strings.lastClean (strings.trimRightRev r).
Proof.
  induction r as [r IH] using (induction_ltof1 _ (@length ascii)).
  unfold ltof in IH.
  destruct r as [|c1 [|c2 [|c3 r]]]; rewrite trimRightRev_eq; cbv beta iota.
  - exact I.
  - destruct (strings.asciiSpace c1) eqn:E1; simpl; auto.
  - destruct (strings.asciiSpace c1) eqn:E1; [apply IH; simpl; lia|].
    destruct (strings.space2 c2 c1) eqn:E2; simpl; auto.
  - destruct (strings.asciiSpace c1) eqn:E1; [apply IH; simpl; lia|].
    destruct (strings.space2 c2 c1) eqn:E2; [apply IH; simpl; lia|].
    destruct (strings.space3 c3 c2 c1) eqn:E3; [apply IH; simpl; lia|].
    simpl. auto.
Qed.

Lemma trimRightRev_fix (r : list ascii) :
  strings.lastClean r -> strings.trimRightRev r = r.
Proof.
  destruct r as [|c1 [|c2 [|c3 r]]]; simpl; try reflexivity.
  - now intros [-> _].
  - now intros [-> [-> _]].
  - now intros [-> [-> ->]].
Qed.

(** A prefix of a list without white space at its head has none
    either. *)
Lemma headClean_prefix (s t : list ascii) :
  strings.headClean (s ++ t)%list -> strings.headClean s.
Proof.
  destruct s as [|c1 [|c2 [|c3 s]]]; simpl; tauto.
Qed.

Lemma TrimSpace_bytes (s : string) :
  exists t, strings.TrimSpace s = string_of_list_ascii t
            /\ strings.headClean t /\ strings.lastClean (rev t).
Proof.
  unfold strings.TrimSpace.
  set (a := strings.trimLeft (list_ascii_of_string s)).
  exists (rev (strings.trimRightRev (rev a))). split; [reflexivity|]. split.
  - destruct (trimRightRev_suffix (rev a)) as [p Hp].
    apply (headClean_prefix _ (rev p)).
    rewrite <- rev_app_distr, <- Hp, rev_involutive. apply trimLeft_clean.
  - rewrite rev_involutive. apply trimRightRev_clean.
Qed.

Lemma TrimSpace_clean (t : list ascii) :
  strings.headClean t -> strings.lastClean (rev t) ->
  strings.TrimSpace (string_of_list_ascii t) = string_of_list_ascii t.
Proof.
  intros Hh Hl. unfold strings.TrimSpace.
  rewrite list_ascii_of_string_of_list_ascii, (trimLeft_fix _ Hh).
  now rewrite (trimRightRev_fix _ Hl), rev_involutive.
Qed.

(** [strings.TrimSpace] is idempotent. *)
Lemma TrimSpace_idempotent (s : string) :
  strings.TrimSpace (strings.TrimSpace s) = strings.TrimSpace s.
Proof.
  destruct (TrimSpace_bytes s) as (t & -> & Hh & Hl).
  now apply TrimSpace_clean.
Qed.

End trim.

Section sanitize.
Context {R : Runtime}.
Hypothesis strings_marshal : marshals_strings R.

Lemma ensureEntry_sanitized (m : gmap string any) (kv : string * any) :
  formatting.sanitized m -> formatting.sanitized (formatting.ensureEntry m kv).
Proof.
  intros Hm. unfold formatting.ensureEntry.
  destruct (decide (strings.TrimSpace kv.1 = EmptyString)) as [|Hne]; [assumption|].
  destruct (formatting.isJSONSerializable kv.2) eqn:Hs;
    apply map_Forall_insert_2; try assumption;
    (split; [assumption | split; [apply TrimSpace_idempotent|]]);
    [assumption|].
  unfold formatting.isJSONSerializable.
  destruct (json_Marshal (anyString _)) eqn:E; [reflexivity|].
  now apply strings_marshal in E.
Qed.

Lemma EnsureFields_loop_sanitized (order : list (string * any))
    (m : gmap string any) :
  formatting.sanitized m ->
  formatting.sanitized (foldl formatting.ensureEntry m order).
Proof.
  revert m. induction order as [|kv order IH]; intros m Hm; [assumption|].
  simpl. apply IH. now apply ensureEntry_sanitized.
Qed.

(** On the entries of a sanitized mapping the loop only inserts. *)
Lemma EnsureFields_loop_inserts (order : list (string * any)) :
  Forall (fun kv => kv.1 <> EmptyString /\ strings.TrimSpace kv.1 = kv.1
                    /\ formatting.isJSONSerializable kv.2 = true) order ->
  foldl formatting.ensureEntry ∅ order = list_to_map (rev order).
Proof.
  induction order as [|kv order IH] using rev_ind; intros Hall.
  - reflexivity.
  - apply Forall_app in Hall as [Hall Hkv].
    apply Forall_inv in Hkv as (Hne & Htrim & Hser).
    rewrite foldl_app, rev_app_distr. simpl. rewrite IH by assumption.
    unfold formatting.ensureEntry. rewrite Htrim, Hser.
    now destruct (decide (kv.1 = EmptyString)).
Qed.

Lemma EnsureFields_fixed_point (m again : gmap string any) :
  formatting.sanitized m ->
  formatting.EnsureFields (Some m) again -> again = m.
Proof.
  intros Hm (order & Hperm & ->).
  assert (Hrev : rev order ≡ₚ map_to_list m)
    by (now rewrite <- Permutation_rev).
  rewrite EnsureFields_loop_inserts.
  - transitivity (list_to_map (map_to_list m) : gmap string any);
      [|apply list_to_map_to_list].
    apply list_to_map_proper; [|assumption].
    rewrite Hrev. apply NoDup_fst_map_to_list.
  - rewrite Hperm. apply map_Forall_to_list in Hm.
    eapply Forall_impl; [exact Hm|]. now intros [key value].
Qed.

Lemma EnsureFields_total (fields : option (gmap string any)) :
  exists formatted, formatting.EnsureFields fields formatted.
Proof.
  destruct fields as [m|]; [|now exists ∅].
  exists (foldl formatting.ensureEntry ∅ (map_to_list m)).
  now exists (map_to_list m).
Qed.

Lemma EnsureFields_sanitized (fields : option (gmap string any))
    (formatted : gmap string any) :
  formatting.EnsureFields fields formatted -> formatting.sanitized formatted.
Proof.
  destruct fields as [m|]; simpl.
  - intros (order & _ & ->). apply EnsureFields_loop_sanitized.
    apply map_Forall_empty.
  - intros ->. apply map_Forall_empty.
Qed.

End sanitize.

(** C9. [EnsureFields] returns for every mapping, the absent one included,
    which gives the empty mapping. Whatever it returns, [formatted], is a
    fixed point: a second call on [formatted] returns [formatted] and
    nothing else. Every key of [formatted] is not empty and is its own
    trimmed form. (The Go runtime is one where [json.Marshal] accepts every
    string.) *)
Theorem EnsureFields_idempotent `{R : Runtime}
    (fields : option (gmap string any)) :
  marshals_strings R ->
  (exists formatted, formatting.EnsureFields fields formatted)
  /\ (forall formatted, formatting.EnsureFields None formatted -> formatted = ∅)
  /\ forall formatted,
       formatting.EnsureFields fields formatted ->
       formatting.EnsureFields (Some formatted) formatted
       /\ (forall again,
             formatting.EnsureFields (Some formatted) again ->
             again = formatted)
       /\ (forall key,
             key ∈ dom formatted ->
             key <> EmptyString /\ strings.TrimSpace key = key).
Proof.
  intros HR. split; [apply EnsureFields_total|]. split; [now intros ? ->|].
  intros formatted Hf.
  pose proof (EnsureFields_sanitized HR _ _ Hf) as Hs.
  split; [|split].
  - destruct (EnsureFields_total (Some formatted)) as [again Ha].
    now rewrite <- (EnsureFields_fixed_point _ _ Hs Ha) at 2.
  - intros again. now apply EnsureFields_fixed_point.
  - intros key [value Hk]%elem_of_dom.
    destruct (Hs key value Hk) as (H1 & H2 & _). now split.
Qed.

Lemma example_marshals_strings : marshals_strings example.runtime.
Proof. intros s. discriminate. Qed.

Lemma EnsureFields_idempotent_witness :
  exists formatted,
    formatting.EnsureFields (R := example.runtime)
      (Some {[ "  user  " := example.VChan 7 ]}) formatted.
Proof.
  apply (EnsureFields_idempotent (R := example.runtime)
           (Some {[ "  user  " := example.VChan 7 ]})).
  intros s. discriminate.
Defined.

Example EnsureFields_channel :
  formatting.EnsureFields (R := example.runtime)
    (Some {[ "  user  " := example.VChan 7 ]})
    {[ "user" := example.VString "0x7" ]}.
Proof.
  exists [("  user  ", example.VChan 7)]. split.
  - now rewrite map_to_list_singleton.
  - reflexivity.
Qed.

(** ** The delivery of a batch *)

Section transport.
Context {R : Runtime}.

(** The bounds check of [handleRejectedLogs] protects the indexing. *)
Lemma rejectedLines_spec (sentLogs : list core.LogEntry)
    (err : core.RejectedLog) :
  if core.inRange sentLogs err then
    exists log, sentLogs !! Z.to_nat (core.Index err) = Some log
                /\ core.rejectedLines sentLogs err
                   = core.Returns (core.report err log)
  else core.rejectedLines sentLogs err = core.Returns [].
Proof.
  unfold core.rejectedLines, core.inRange.
  destruct (_ && _) eqn:E; [|reflexivity].
  apply andb_true_iff in E as [H1%Z.leb_le H2%Z.ltb_lt].
  destruct (sentLogs !! Z.to_nat (core.Index err)) as [log|] eqn:El.
  - now exists log.
  - apply lookup_ge_None in El. lia.
Qed.

Lemma rejectedDetails_spec (sentLogs : list core.LogEntry)
    (errs : list core.RejectedLog) :
  exists lines,
    core.rejectedDetails sentLogs errs = core.Returns lines
    /\ core.rejectedDetails sentLogs (List.filter (core.inRange sentLogs) errs)
       = core.Returns lines
    /\ forall err log line,
         err ∈ errs -> core.inRange sentLogs err = true ->
         sentLogs !! Z.to_nat (core.Index err) = Some log ->
         line ∈ core.report err log -> line ∈ lines.
Proof.
  induction errs as [|err errs (rest & Hrest & Hfilter & Hin)].
  - exists []. repeat split. intros err log line H. inversion H.
  - cbn [core.rejectedDetails]. rewrite Hrest.
    pose proof (rejectedLines_spec sentLogs err) as Hspec.
    cbn [List.filter].
    destruct (core.inRange sentLogs err) eqn:E.
    + destruct Hspec as (log & Hlog & Hlines). rewrite Hlines.
      exists (core.report err log ++ rest)%list. split; [reflexivity|].
      cbn [core.rejectedDetails]. rewrite Hlines, Hfilter.
      split; [reflexivity|].
      intros err' log' line [->|Herr]%elem_of_cons Hr Hl Hline.
      * rewrite Hlog in Hl. injection Hl as <-.
        apply elem_of_app. now left.
      * apply elem_of_app. right. eauto.
    + rewrite Hspec. exists rest. split; [reflexivity|].
      split; [assumption|].
      intros err' log' line [->|Herr]%elem_of_cons Hr Hl Hline.
      * congruence.
      * eauto.
Qed.

Lemma handleRejectedLogs_returns (response : core.LogBullResponse)
    (sentLogs : list core.LogEntry) :
  exists lines, core.handleRejectedLogs response sentLogs = core.Returns lines.
Proof.
  unfold core.handleRejectedLogs.
  destruct (rejectedDetails_spec sentLogs (core.Errors response))
    as (lines & -> & _).
  destruct (0 <? _); eauto.
Qed.

Lemma afterResponse_returns (logs : list core.LogEntry) (resp : core.Response) :
  exists lines, core.afterResponse logs resp = core.Returns lines.
Proof.
  unfold core.afterResponse.
  destruct (core.readBody resp); [|eauto].
  destruct (negb _ && negb _); [eauto|].
  destruct (core.decoded resp) as [response|]; [|eauto].
  destruct (0 <? core.Rejected response); [|eauto].
  destruct (handleRejectedLogs_returns response logs) as [lines ->]. eauto.
Qed.

(** [sendHTTPRequest] returns, whatever the outside world answers. *)
Lemma sendHTTPRequest_returns (config : core.Config)
    (logs : list core.LogEntry) (x : core.Exchange) :
  (core.sendHTTPRequest config logs x).2 = core.Returns tt.
Proof.
  unfold core.sendHTTPRequest.
  destruct (core.marshalled x); [|reflexivity].
  destruct (core.newRequestErr x); [reflexivity|].
  destruct (core.clientDo x) as [resp|]; [|reflexivity].
  now destruct (afterResponse_returns logs resp) as [lines ->].
Qed.

(** At most one request leaves for a batch. *)
Lemma sendHTTPRequest_one_post (config : core.Config)
    (logs : list core.LogEntry) (x : core.Exchange) :
  (length (List.filter core.isPost (core.sendHTTPRequest config logs x).1)
   <= 1)%nat.
Proof.
  assert (Hnone : forall lines,
             List.filter core.isPost (map core.Stderr lines) = []).
  { induction lines as [|l lines IH]; [reflexivity | exact IH]. }
  unfold core.sendHTTPRequest.
  destruct (core.marshalled x); [|simpl; lia].
  destruct (core.newRequestErr x); [simpl; lia|].
  destruct (core.clientDo x) as [resp|]; [|simpl; lia].
  destruct (afterResponse_returns logs resp) as [lines ->].
  cbn [fst List.filter core.isPost]. rewrite Hnone. simpl. lia.
Qed.

End transport.

Section transport_claims.
Context {R : Runtime}.

(** The end of a worker neither puts entries back into the queue nor hands
    a batch to the transport again. *)
Lemma workerDone_frame (s : core.Sender) (i : nat) (w : core.Worker)
    (x : core.Exchange) :
  core.logQueue (core.workerDone s i w x) = core.logQueue s
  /\ core.handed (core.workerDone s i w x) = core.handed s
  /\ core.panicked (core.workerDone s i w x) = core.panicked s.
Proof.
  unfold core.workerDone.
  pose proof (sendHTTPRequest_returns (core.config s) (core.batch w) x) as H.
  destruct (core.sendHTTPRequest _ _ _) as [es end_]. cbn in *. now subst.
Qed.

End transport_claims.

(** C7, as amended. When the response has status 200 or 202 and its body
    cannot be decoded, [sendHTTPRequest] does nothing after the request: no
    diagnostic, no handling of rejections. When the status is any other
    one, other 2xx codes included, it writes one diagnostic with the status
    and the body. In every case the call returns (it has no result and
    does not panic), and the batch is not put back. The response is one
    whose body was read and closed without error. *)
Theorem response_status_handling `{R : Runtime} (config : core.Config)
    (logs : list core.LogEntry) (x : core.Exchange) (data body : string)
    (resp : core.Response) :
  core.marshalled x = inl data -> core.newRequestErr x = None ->
  core.clientDo x = inl resp -> core.readBody resp = inl body ->
  core.closeErr resp = None ->
  ((core.StatusCode resp = 200 \/ core.StatusCode resp = 202) ->
   core.decoded resp = None ->
   core.sendHTTPRequest config logs x
   = ([core.postOf config data], core.Returns tt))
  /\ (core.StatusCode resp <> 200 -> core.StatusCode resp <> 202 ->
      core.sendHTTPRequest config logs x
      = ([core.postOf config data;
          core.Stderr ("LogBull: server returned status "
                       +:+ golang.format_d (core.StatusCode resp) +:+ ": "
                       +:+ body +:+ core.nl)],
         core.Returns tt))
  /\ (forall logs' x', (core.sendHTTPRequest config logs' x').2 = core.Returns tt)
  /\ (forall s i w,
        core.logQueue (core.workerDone s i w x) = core.logQueue s
        /\ core.handed (core.workerDone s i w x) = core.handed s).
Proof.
  intros Hm Hn Hd Hb Hc. repeat split.
  - intros Hs Hdec. unfold core.sendHTTPRequest, core.afterResponse.
    rewrite Hm, Hn, Hd, Hb, Hc, Hdec.
    now destruct Hs as [-> | ->].
  - intros H200 H202. unfold core.sendHTTPRequest, core.afterResponse.
    rewrite Hm, Hn, Hd, Hb, Hc.
    apply Z.eqb_neq in H200, H202. now rewrite H200, H202.
  - intros logs' x'. apply sendHTTPRequest_returns.
  - apply workerDone_frame.
  - apply workerDone_frame.
Qed.

Lemma response_status_handling_witness :
  core.sendHTTPRequest (R := example.runtime) example.config
    [example.entry "m"] (example.exchange 200 "garbage" None)
  = ([core.postOf example.config "{}"], core.Returns tt).
Proof.
  refine (proj1 (response_status_handling (R := example.runtime)
                   example.config [example.entry "m"]
                   (example.exchange 200 "garbage" None) "{}" "garbage" _
                   eq_refl eq_refl eq_refl eq_refl eq_refl) _ eq_refl).
  now left.
Defined.

(** C7 fails for the 2xx codes other than 200 and 202: a response 201 with
    a body that cannot be decoded is reported on the standard error. *)
Lemma status_201_is_a_failure :
  core.sendHTTPRequest (R := example.runtime) example.config
    [example.entry "m"] (example.exchange 201 "garbage" None)
  = ([core.postOf example.config "{}";
      core.Stderr ("LogBull: server returned status 201: garbage" +:+ core.nl)],
     core.Returns tt).
Proof. reflexivity. Qed.

(** C8. After a response 200 or 202 that decodes to [response] with
    [Rejected > 0], [handleRejectedLogs] returns (no panic) and what it
    writes ends the effects of [sendHTTPRequest], which sent one request
    only. For every record of [response.Errors]: when its index is in
    [0, len(sentLogs)), the lines written contain the level, the message
    and the timestamp of the entry at that index, and its fields when it
    has some; when its index is out of range the record adds nothing, the
    details are those of the records in range. Nothing is put back into
    the queue and no batch is handed to the transport again. *)
Theorem rejected_entries_are_reported `{R : Runtime} (config : core.Config)
    (sentLogs : list core.LogEntry) (x : core.Exchange) (data body : string)
    (resp : core.Response) (response : core.LogBullResponse) :
  core.marshalled x = inl data -> core.newRequestErr x = None ->
  core.clientDo x = inl resp -> core.readBody resp = inl body ->
  core.StatusCode resp = 200 \/ core.StatusCode resp = 202 ->
  core.decoded resp = Some response -> 0 < core.Rejected response ->
  exists lines,
    core.handleRejectedLogs response sentLogs = core.Returns lines
    /\ core.sendHTTPRequest config sentLogs x
       = (core.postOf config data :: map core.Stderr (lines ++ core.closingLines resp),
          core.Returns tt)
    /\ (forall err, err ∈ core.Errors response ->
          0 <= core.Index err < Z.of_nat (length sentLogs) ->
          exists log,
            sentLogs !! Z.to_nat (core.Index err) = Some log
            /\ ("    Level: " +:+ core.Level log +:+ core.nl) ∈ lines
            /\ ("    Message: " +:+ core.Message log +:+ core.nl) ∈ lines
            /\ ("    Timestamp: " +:+ core.Timestamp log +:+ core.nl) ∈ lines
            /\ forall fields,
                 core.Fields log = Some fields -> (0 < size fields)%nat ->
                 ("    Fields: " +:+ fmt_Sprint_map fields +:+ core.nl) ∈ lines)
    /\ (forall err,
          ~ 0 <= core.Index err < Z.of_nat (length sentLogs) ->
          core.rejectedLines sentLogs err = core.Returns [])
    /\ core.rejectedDetails sentLogs (core.Errors response)
       = core.rejectedDetails sentLogs
           (List.filter (core.inRange sentLogs) (core.Errors response))
    /\ (forall s i w,
          core.logQueue (core.workerDone s i w x) = core.logQueue s
          /\ core.handed (core.workerDone s i w x) = core.handed s).
Proof.
  intros Hm Hn Hd Hb Hs Hdec Hrej.
  destruct (rejectedDetails_spec sentLogs (core.Errors response))
    as (details & Hdetails & Hfilter & Hin).
  assert (Hlines : exists lines,
             core.handleRejectedLogs response sentLogs = core.Returns lines
             /\ forall line, line ∈ details -> line ∈ lines).
  { unfold core.handleRejectedLogs. rewrite Hdetails.
    destruct (0 <? _) eqn:E.
    - eexists. split; [reflexivity|]. intros line Hl.
      now do 2 apply list_elem_of_further.
    - eexists. split; [reflexivity|]. intros line Hl.
      apply Z.ltb_ge in E. destruct (core.Errors response); [|simpl in E; lia].
      simpl in Hdetails. injection Hdetails as <-. inversion Hl. }
  destruct Hlines as (lines & Hlines & Hsub).
  exists lines. split; [assumption|]. split; [|split; [|split; [|split]]].
  - unfold core.sendHTTPRequest, core.afterResponse.
    rewrite Hm, Hn, Hd, Hb, Hdec, Hlines.
    apply Z.ltb_lt in Hrej. rewrite Hrej.
    now destruct Hs as [-> | ->].
  - intros err Herr Hrange.
    assert (Hr : core.inRange sentLogs err = true).
    { unfold core.inRange. apply andb_true_iff.
      split; [apply Z.leb_le | apply Z.ltb_lt]; lia. }
    pose proof (rejectedLines_spec sentLogs err) as Hspec. rewrite Hr in Hspec.
    destruct Hspec as (log & Hlog & _). exists log.
    split; [assumption|].
    assert (Hrep : forall line, line ∈ core.report err log -> line ∈ lines)
      by (intros line Hl; apply Hsub; eauto).
    repeat split.
    + apply Hrep, elem_of_app. left.
      apply list_elem_of_further, list_elem_of_here.
    + apply Hrep, elem_of_app. left.
      do 2 apply list_elem_of_further. apply list_elem_of_here.
    + apply Hrep, elem_of_app. left.
      do 3 apply list_elem_of_further. apply list_elem_of_here.
    + intros fields Hf Hsize. apply Hrep, elem_of_app. right. rewrite Hf.
      destruct (Z.ltb_spec 0 (Z.of_nat (size fields)));
        [apply list_elem_of_here | lia].
  - intros err Hout.
    pose proof (rejectedLines_spec sentLogs err) as Hspec.
    destruct (core.inRange sentLogs err) eqn:E; [|assumption].
    unfold core.inRange in E.
    apply andb_true_iff in E as [H1%Z.leb_le H2%Z.ltb_lt]. lia.
  - now rewrite Hdetails, Hfilter.
  - intros s i w. pose proof (workerDone_frame s i w x). tauto.
Qed.

Lemma rejected_entries_are_reported_witness :
  exists lines,
    core.handleRejectedLogs (R := example.runtime) example.rejection
      [example.entry "m"] = core.Returns lines.
Proof.
  destruct (rejected_entries_are_reported (R := example.runtime)
              example.config [example.entry "m"]
              (example.exchange 200 "{...}" (Some example.rejection)) "{}" "{...}" _
              example.rejection eq_refl eq_refl eq_refl eq_refl
              (or_introl eq_refl) eq_refl eq_refl) as (lines & H & _).
  exists lines. exact H.
Defined.

(** ** The sender *)

Section sender.
Context {R : Runtime}.

Lemma drain_spec (n : nat) (queue logs : list core.LogEntry) :
  core.drain n queue logs = ((logs ++ take n queue)%list, drop n queue).
Proof.
  revert queue logs. induction n as [|n IH]; intros [|log queue] logs;
    cbn [core.drain take drop]; rewrite ?app_nil_r; try reflexivity.
  rewrite IH. now rewrite <- app_assoc.
Qed.

(** [sendBatch] moves the first [batchSize] entries of the queue, if
    there are any, to a new batch, and touches nothing of the life
    cycle. *)
Lemma sendBatch_spec (s : core.Sender) :
  let n := Z.to_nat core.batchSize in
  core.logQueue (core.sendBatch s) = drop n (core.logQueue s)
  /\ core.handed (core.sendBatch s)
     = (core.handed s
        ++ match core.logQueue s with
           | [] => []
           | _ => [take n (core.logQueue s)]
           end)%list
  /\ core.stopCh (core.sendBatch s) = core.stopCh s
  /\ core.shutdownOnce (core.sendBatch s) = core.shutdownOnce s
  /\ core.drains (core.sendBatch s) = core.drains s
  /\ core.panicked (core.sendBatch s) = core.panicked s
  /\ core.effects (core.sendBatch s) = core.effects s
  /\ core.config (core.sendBatch s) = core.config s.
Proof.
  unfold core.sendBatch. rewrite drain_spec. cbn [app].
  destruct (core.logQueue s) as [|log queue] eqn:E.
  - rewrite take_nil, drop_nil. cbn [length].
    change (Z.of_nat 0 =? 0) with true. cbv iota.
    rewrite E, app_nil_r. repeat split; reflexivity.
  - set (n := Z.to_nat core.batchSize).
    assert (Hn : n = S (Nat.pred n)) by (subst n; vm_compute; reflexivity).
    destruct (Z.eqb_spec (Z.of_nat (length (take n (log :: queue)))) 0)
      as [Hz|_]; [rewrite Hn in Hz; simpl in Hz; lia|].
    cbn. repeat split; reflexivity.
Qed.

Lemma AddLog_total (s : core.Sender) (entry : core.LogEntry) :
  exists s', core.AddLog s entry s'.
Proof.
  destruct (Z.lt_ge_cases (Z.of_nat (length (core.logQueue s)))
              core.queueCapacity).
  - eexists. now apply core.AddLog_send.
  - destruct (core.stopCh s) eqn:E.
    + eexists. now apply core.AddLog_stop.
    + eexists. now apply core.AddLog_default.
Qed.

Lemma AddLog_active (s s' : core.Sender) (entry : core.LogEntry) :
  core.stopCh s = false -> core.AddLog s entry s' <-> s' = core.submit s entry.
Proof.
  intros Hs. unfold core.submit. split.
  - intros [Hroom | Hstop | Hfull _].
    + apply Z.ltb_lt in Hroom. now rewrite Hroom.
    + congruence.
    + apply Z.ltb_ge in Hfull. now rewrite Hfull.
  - intros ->. destruct (Z.ltb_spec (Z.of_nat (length (core.logQueue s)))
                           core.queueCapacity).
    + now apply core.AddLog_send.
    + now apply core.AddLog_default.
Qed.



Lemma workerDone_life (s : core.Sender) (i : nat) (w : core.Worker)
    (x : core.Exchange) :
  core.stopCh (core.workerDone s i w x) = core.stopCh s
  /\ core.shutdownOnce (core.workerDone s i w x) = core.shutdownOnce s
  /\ core.drains (core.workerDone s i w x) = core.drains s.
Proof.
  unfold core.workerDone.
  now destruct (core.sendHTTPRequest _ _ _) as [es end_].
Qed.

Lemma invariant_NewSender (config : core.Config) :
  core.invariant (core.NewSender config).
Proof.
  split; cbn; try reflexivity; try constructor; try tauto.
  unfold core.queueCapacity. lia.
Qed.

Lemma invariant_sendBatch (s : core.Sender) :
  core.invariant s -> core.invariant (core.sendBatch s).
Proof.
  intros [Ha Hs Hd Hq Hb].
  destruct (sendBatch_spec s) as (Eq & Eh & Es & Eo & Ed & Ep & _).
  split.
  - congruence.
  - now rewrite Es, Eo.
  - now rewrite Ed, Eo.
  - rewrite Eq, length_drop. lia.
  - rewrite Eh. apply Forall_app. split; [assumption|].
    destruct (core.logQueue s) as [|log queue]; constructor; [|constructor].
    rewrite length_take. cbn [length]. unfold core.batchSize. lia.
Qed.

Lemma invariant_step (s s' : core.Sender) (e : core.Event) :
  core.invariant s -> core.step s e s' -> core.invariant s'.
Proof.
  intros Hinv Hstep. destruct Hstep as
    [entry s' Hadd | | | Hp | Hp Hs | i w x Hw Hslot | Ho Hwg].
  - destruct Hinv as [Ha Hs Hd Hq Hb].
    destruct Hadd as [Hroom | Hstop | Hfull Hopen].
    + split; cbn; try assumption. rewrite length_app. cbn. lia.
    + now split.
    + now split.
  - now apply invariant_sendBatch.
  - unfold core.Shutdown.
    destruct (core.shutdownOnce s) eqn:Eo; try assumption.
    destruct Hinv as [Ha Hs Hd Hq Hb].
    unfold core.shutdownBody. rewrite (proj2 Hs Eo).
    apply invariant_sendBatch. split; cbn; try assumption.
    + split; discriminate.
    + now rewrite Hd, Eo.
  - now apply invariant_sendBatch.
  - destruct Hinv as [Ha Hs' Hd Hq Hb]. now split.
  - destruct Hinv as [Ha Hs Hd Hq Hb].
    destruct (workerDone_frame s i w x) as (Eq & Eh & Ep).
    destruct (workerDone_life s i w x) as (Es & Eo & Ed).
    split; rewrite ?Ep, ?Es, ?Eo, ?Ed, ?Eq, ?Eh; assumption.
  - destruct Hinv as [Ha Hs Hd Hq Hb]. split; cbn; try assumption.
    + split; [|discriminate]. intros Hopen. apply Hs in Hopen. congruence.
    + now rewrite Hd, Ho.
Qed.

Lemma invariant_run (s s' : core.Sender) (es : list core.Event) :
  core.invariant s -> core.run s es s' -> core.invariant s'.
Proof.
  intros Hinv Hrun. induction Hrun as [|s e s1 es s2 _ Hstep _ IH];
    [assumption|].
  apply IH. eapply invariant_step; eassumption.
Qed.

(** The life cycle only moves forward. *)
Lemma step_rank (s s' : core.Sender) (e : core.Event) :
  core.step s e s' ->
  (core.rank (core.phase s) <= core.rank (core.phase s'))%nat.
Proof.
  intros Hstep. destruct Hstep as
    [entry s' Hadd | | | Hp | Hp Hs | i w x Hw Hslot | Ho Hwg].
  - destruct Hadd; unfold core.phase; cbn; lia.
  - unfold core.Flush, core.phase.
    destruct (sendBatch_spec s) as (_ & _ & -> & -> & _). lia.
  - unfold core.Shutdown.
    destruct (core.shutdownOnce s) eqn:Eo; try lia.
    unfold core.shutdownBody, core.phase. rewrite Eo.
    destruct (core.stopCh s) eqn:Es; [cbn; lia|].
    match goal with
    | |- context [core.sendBatch ?t] =>
        destruct (sendBatch_spec t) as (_ & _ & -> & -> & _)
    end.
    cbn. lia.
  - unfold core.phase.
    destruct (sendBatch_spec s) as (_ & _ & -> & -> & _). lia.
  - cbn. unfold core.phase. cbn. lia.
  - unfold core.phase.
    destruct (workerDone_life s i w x) as (-> & -> & _). lia.
  - unfold core.phase. cbn. rewrite Ho. destruct (core.stopCh s); cbn; lia.
Qed.

Lemma run_rank (s s' : core.Sender) (es : list core.Event) :
  core.run s es s' ->
  (core.rank (core.phase s) <= core.rank (core.phase s'))%nat.
Proof.
  intros Hrun. induction Hrun as [|s e s1 es s2 _ Hstep _ IH]; [lia|].
  apply step_rank in Hstep. lia.
Qed.

(** Once entered, the [Once] is never new again. *)
Lemma step_once_kept (s s' : core.Sender) (e : core.Event) :
  core.step s e s' ->
  core.shutdownOnce s <> core.OnceNew -> core.shutdownOnce s' <> core.OnceNew.
Proof.
  intros Hstep Hne. destruct Hstep as
    [entry s' Hadd | | | Hp | Hp Hs | i w x Hw Hslot | Ho Hwg].
  - now destruct Hadd.
  - unfold core.Flush.
    now destruct (sendBatch_spec s) as (_ & _ & _ & -> & _).
  - unfold core.Shutdown.
    destruct (core.shutdownOnce s) eqn:Eo; congruence.
  - now destruct (sendBatch_spec s) as (_ & _ & _ & -> & _).
  - assumption.
  - now destruct (workerDone_life s i w x) as (_ & -> & _).
  - cbn. discriminate.
Qed.

Lemma run_once_kept (s s' : core.Sender) (es : list core.Event) :
  core.run s es s' ->
  core.shutdownOnce s <> core.OnceNew -> core.shutdownOnce s' <> core.OnceNew.
Proof.
  intros Hrun. induction Hrun as [|s e s1 es s2 _ Hstep _ IH]; [tauto|].
  intros Hne. eapply IH, step_once_kept; eassumption.
Qed.

Lemma Shutdown_enters (s : core.Sender) :
  core.shutdownOnce (core.Shutdown s) <> core.OnceNew.
Proof.
  unfold core.Shutdown.
  destruct (core.shutdownOnce s) eqn:Eo; try congruence.
  unfold core.shutdownBody.
  destruct (core.stopCh s); [cbn; discriminate|].
  match goal with
  | |- context [core.sendBatch ?t] =>
      destruct (sendBatch_spec t) as (_ & _ & _ & -> & _)
  end.
  cbn. discriminate.
Qed.

(** The first call of [Shutdown] on a sender whose [stopCh] is open. *)
Lemma Shutdown_first (s : core.Sender) :
  core.stopCh s = false -> core.shutdownOnce s = core.OnceNew ->
  core.phase (core.Shutdown s) = core.SHUTTING_DOWN
  /\ core.drains (core.Shutdown s) = S (core.drains s)
  /\ core.panicked (core.Shutdown s) = core.panicked s.
Proof.
  intros Hs Ho. unfold core.Shutdown, core.shutdownBody, core.phase.
  rewrite Ho, Hs.
  match goal with
  | |- context [core.sendBatch ?t] =>
      destruct (sendBatch_spec t) as (_ & _ & -> & -> & -> & -> & _)
  end.
  now cbn.
Qed.

(** The [Once] is new exactly as long as [Shutdown] was not called. *)
Lemma run_once (s s' : core.Sender) (es : list core.Event) :
  core.run s es s' ->
  (core.CallShutdown ∈ es -> core.shutdownOnce s' <> core.OnceNew)
  /\ (core.CallShutdown ∉ es -> core.shutdownOnce s = core.OnceNew ->
      core.shutdownOnce s' = core.OnceNew).
Proof.
  intros Hrun. induction Hrun as [|s e s1 es s2 _ Hstep Hrun [IH1 IH2]].
  - split; [intros H; inversion H | tauto].
  - split.
    + intros [<-|Hin]%elem_of_cons; [|now apply IH1].
      apply (run_once_kept _ _ _ Hrun). inversion Hstep; subst.
      apply Shutdown_enters.
    + intros Hnin Hnew. apply not_elem_of_cons in Hnin as [Hne Hnin].
      apply IH2; [assumption|].
      destruct Hstep as
        [entry s' Hadd | | | Hp | Hp Hs | i w x Hw Hslot | Ho Hwg].
      * now destruct Hadd.
      * unfold core.Flush.
        now destruct (sendBatch_spec s) as (_ & _ & _ & -> & _).
      * congruence.
      * now destruct (sendBatch_spec s) as (_ & _ & _ & -> & _).
      * assumption.
      * now destruct (workerDone_life s i w x) as (_ & -> & _).
      * congruence.
Qed.

Lemma sendBatch_held (s : core.Sender) : core.held (core.sendBatch s) = core.held s.
Proof.
  unfold core.held, core.delivered.
  destruct (sendBatch_spec s) as (-> & -> & _).
  rewrite concat_app, length_app, length_drop.
  destruct (core.logQueue s) as [|log queue]; [simpl; lia|].
  cbn [concat]. rewrite app_nil_r, length_take. lia.
Qed.

Lemma step_held (s s' : core.Sender) (e : core.Event) :
  core.notAddLog e -> core.step s e s' -> core.held s' = core.held s.
Proof.
  intros Hnot Hstep. destruct Hstep as
    [entry s' Hadd | | | Hp | Hp Hs | i w x Hw Hslot | Ho Hwg].
  - destruct Hnot.
  - apply sendBatch_held.
  - unfold core.Shutdown. destruct (core.shutdownOnce s); try reflexivity.
    unfold core.shutdownBody. destruct (core.stopCh s); [reflexivity|].
    now rewrite sendBatch_held.
  - apply sendBatch_held.
  - reflexivity.
  - unfold core.held, core.delivered.
    now destruct (workerDone_frame s i w x) as (-> & -> & _).
  - reflexivity.
Qed.

Lemma run_held (s s' : core.Sender) (es : list core.Event) :
  Forall core.notAddLog es -> core.run s es s' -> core.held s' = core.held s.
Proof.
  intros Hall Hrun. induction Hrun as [|s e s1 es s2 _ Hstep _ IH];
    [reflexivity|].
  inversion Hall; subst. rewrite IH by assumption.
  now apply (step_held _ _ e).
Qed.

(** Submitting to a sender that is not shut down. *)
Lemma submit_frame (s : core.Sender) (entry : core.LogEntry) :
  core.stopCh (core.submit s entry) = core.stopCh s
  /\ core.panicked (core.submit s entry) = core.panicked s
  /\ core.handed (core.submit s entry) = core.handed s.
Proof. unfold core.submit. now destruct (_ <? _). Qed.

Lemma run_submit (s s' : core.Sender) (entries : list core.LogEntry) :
  core.stopCh s = false -> core.panicked s = None ->
  core.run s (map core.CallAddLog entries) s' <-> s' = foldl core.submit s entries.
Proof.
  revert s. induction entries as [|entry entries IH]; intros s Hs Hp.
  - split; [now inversion 1 | intros ->; constructor].
  - destruct (submit_frame s entry) as (Es & Ep & _).
    cbn [map foldl]. split.
    + intros H. inversion H as [|? s1 ? ? _ Hstep Hrun]; subst.
      inversion Hstep as [? ? Hadd | | | | | |]; subst.
      apply AddLog_active in Hadd; [|assumption]. subst s1.
      apply IH; [congruence | congruence | assumption].
    + intros ->. econstructor; [assumption | |].
      * constructor. now apply AddLog_active.
      * apply IH; [congruence | congruence | reflexivity].
Qed.

Lemma submit_queue (s : core.Sender) (entries : list core.LogEntry) :
  let cap := Z.to_nat core.queueCapacity in
  (length (core.logQueue s) <= cap)%nat ->
  core.logQueue (foldl core.submit s entries)
  = take cap (core.logQueue s ++ entries)
  /\ core.handed (foldl core.submit s entries) = core.handed s.
Proof.
  intros cap. revert s. induction entries as [|entry entries IH]; intros s Hq.
  - cbn [foldl]. rewrite app_nil_r, take_ge by lia. now split.
  - cbn [foldl]. unfold core.submit at 2 4.
    destruct (Z.ltb_spec (Z.of_nat (length (core.logQueue s)))
                core.queueCapacity) as [Hroom | Hfull].
    + destruct (IH (core.enqueue s entry)) as [E1 E2].
      { cbn. rewrite length_app. cbn. subst cap. lia. }
      rewrite E1, E2. cbn. now rewrite <- app_assoc.
    + destruct (IH (core.emit s
                      [core.Stderr ("LogBull: log queue full, dropping log"
                                    +:+ core.nl)] None)) as [E1 E2];
        [assumption|].
      rewrite E1, E2. cbn. split; [|reflexivity].
      rewrite !take_app_le by (subst cap; lia). reflexivity.
Qed.




End sender.

Section sender_runs.
Context {R : Runtime}.


End sender_runs.




(** C4. [AddLog] always has an outcome: the [select] has a [default]
    branch, the caller is never blocked. When the queue holds its 10,000
    entries the entry is not in the queue afterwards, nothing is handed to
    the transport, and a sender that is not shut down writes the
    diagnostic. After any number of entries submitted to a new sender the
    queue holds the first 10,000 of them, and whatever the sender does
    next without further submissions, at most 10,000 entries reach the
    transport. *)
Theorem AddLog_never_blocks `{R : Runtime} :
  (forall s entry, exists s', core.AddLog s entry s')
  /\ (forall s entry s',
        core.queueCapacity <= Z.of_nat (length (core.logQueue s)) ->
        core.AddLog s entry s' ->
        core.logQueue s' = core.logQueue s
        /\ core.handed s' = core.handed s
        /\ (core.stopCh s = false ->
            core.effects s'
            = (core.effects s
               ++ [core.Stderr ("LogBull: log queue full, dropping log"
                                +:+ core.nl)])%list))
  /\ (forall config entries s1 events s2,
        core.run (core.NewSender config) (map core.CallAddLog entries) s1 ->
        Forall core.notAddLog events -> core.run s1 events s2 ->
        core.logQueue s1 = take (Z.to_nat core.queueCapacity) entries
        /\ core.delivered s1 = 0
        /\ core.delivered s2 <= core.queueCapacity).
Proof.
  split; [apply AddLog_total|]. split.
  - intros s entry s' Hfull [Hroom | Hstop | _ Hopen].
    + lia.
    + repeat split. congruence.
    + repeat split.
  - intros config entries s1 events s2 H1 Hnot H2.
    apply run_submit in H1; [|reflexivity..]. subst s1.
    destruct (submit_queue (core.NewSender config) entries) as [Q1 Q2];
      [cbn; lia|].
    cbn [core.NewSender core.logQueue core.handed app] in Q1, Q2.
    split; [assumption|].
    assert (Hd : core.delivered
                   (foldl core.submit (core.NewSender config) entries) = 0)
      by (unfold core.delivered; now rewrite Q2).
    split; [assumption|].
    pose proof (run_held _ _ _ Hnot H2) as Hheld. unfold core.held in Hheld.
    rewrite Hd, Q1, length_take in Hheld.
    unfold core.delivered in *. unfold core.queueCapacity in *. lia.
Qed.

(** C5. In every run of a sender from [NewSender] on, whatever calls and
    however many calls of [Shutdown] it contains: no call has panicked;
    the function given to [shutdownOnce.Do] was run once if [Shutdown] was
    called and never otherwise; a call of [Shutdown] after the first
    leaves the sender as it is; the first one takes an active sender to
    SHUTTING_DOWN; and the phase never goes back. *)
Theorem shutdown_runs_once `{R : Runtime} (config : core.Config)
    (events : list core.Event) (s : core.Sender) :
  core.run (core.NewSender config) events s ->
  core.panicked s = None
  /\ (core.CallShutdown ∈ events ->
      core.drains s = 1%nat /\ core.phase s <> core.ACTIVE
      /\ core.Shutdown s = s)
  /\ (core.CallShutdown ∉ events ->
      core.drains s = 0%nat /\ core.phase s = core.ACTIVE
      /\ core.phase (core.Shutdown s) = core.SHUTTING_DOWN
      /\ core.drains (core.Shutdown s) = 1%nat
      /\ core.panicked (core.Shutdown s) = None)
  /\ (forall later s',
        core.run s later s' ->
        (core.rank (core.phase s) <= core.rank (core.phase s'))%nat
        /\ core.panicked s' = None /\ (core.drains s' <= 1)%nat).
Proof.
  intros Hrun.
  pose proof (invariant_run _ _ _ (invariant_NewSender config) Hrun) as Hi.
  destruct (run_once _ _ _ Hrun) as [Hin Hnin].
  split; [apply Hi|]. split; [|split].
  - intros Hcalled. specialize (Hin Hcalled).
    destruct Hi as [Ha Hs Hd Hq Hb]. repeat split.
    + rewrite Hd. now destruct (core.shutdownOnce s).
    + unfold core.phase.
      destruct (core.shutdownOnce s) eqn:Eo; try congruence.
      destruct (core.stopCh s) eqn:Es; [discriminate|].
      pose proof (proj1 Hs eq_refl). discriminate.
    + unfold core.Shutdown. now destruct (core.shutdownOnce s).
  - intros Hnot. specialize (Hnin Hnot eq_refl).
    destruct Hi as [Ha Hs Hd Hq Hb].
    destruct (Shutdown_first s (proj2 Hs Hnin) Hnin) as (E1 & E2 & E3).
    repeat split.
    + now rewrite Hd, Hnin.
    + unfold core.phase. now rewrite Hnin, (proj2 Hs Hnin).
    + assumption.
    + now rewrite E2, Hd, Hnin.
    + now rewrite E3.
  - intros later s' Hlater.
    pose proof (invariant_run _ _ _ Hi Hlater) as [Ha Hs Hd Hq Hb].
    split; [now apply (run_rank _ _ later)|]. split; [assumption|].
    rewrite Hd. destruct (core.shutdownOnce s'); lia.
Qed.

Lemma shutdownEvents_run :
  exists s, core.run (R := example.runtime) (core.NewSender example.config)
              example.shutdownEvents s.
Proof.
  eexists.
  econstructor; [reflexivity | constructor; apply core.AddLog_send;
                               vm_compute; reflexivity |].
  econstructor; [reflexivity | constructor |].
  econstructor; [reflexivity | constructor |].
  econstructor; [reflexivity | constructor; reflexivity |].
  econstructor; [reflexivity
                | eapply core.step_WorkerDone; [reflexivity | reflexivity] |].
  econstructor; [reflexivity | constructor; reflexivity |].
  econstructor; [reflexivity | constructor |].
  constructor.
Defined.

Lemma shutdown_runs_once_witness :
  exists s,
    core.run (R := example.runtime) (core.NewSender example.config)
      example.shutdownEvents s
    /\ core.panicked s = None.
Proof.
  destruct shutdownEvents_run as [s Hrun]. exists s.
  split; [exact Hrun|].
  exact (proj1 (shutdown_runs_once (R := example.runtime) example.config
                  example.shutdownEvents s Hrun)).
Defined.

(** C6 fails on the code: after [Shutdown] has returned, the queue being
    empty, both communications of the [select] of [AddLog] are ready (the
    queue has room, [stopCh] is closed). The entry is discarded when the
    second one is chosen and enqueued when the first one is, and a later
    [Flush] hands the enqueued entry to the transport. *)
Theorem AddLog_after_shutdown_can_enqueue `{R : Runtime}
    (config : core.Config) (entry : core.LogEntry) :
  let stopped :=
    core.shutdownReturn
      (core.processorStop (core.Shutdown (core.NewSender config))) in
  core.run (core.NewSender config)
    [core.CallShutdown; core.ProcessorStop; core.ShutdownReturn] stopped
  /\ core.phase stopped = core.STOPPED
  /\ core.logQueue stopped = []
  /\ core.AddLog stopped entry stopped
  /\ core.AddLog stopped entry (core.enqueue stopped entry)
  /\ core.logQueue (core.enqueue stopped entry) = [entry]
  /\ core.run stopped [core.CallAddLog entry; core.CallFlush]
       (core.Flush (core.enqueue stopped entry))
  /\ core.handed (core.Flush (core.enqueue stopped entry)) = [[entry]].
Proof.
  intros stopped.
  assert (Hsend : core.AddLog stopped entry (core.enqueue stopped entry))
    by (apply core.AddLog_send; vm_compute; reflexivity).
  repeat split.
  - econstructor; [reflexivity | constructor |].
    econstructor; [reflexivity | constructor; reflexivity |].
    econstructor; [reflexivity | constructor; reflexivity |].
    constructor.
  - now apply core.AddLog_stop.
  - exact Hsend.
  - econstructor; [reflexivity | constructor; exact Hsend |].
    econstructor; [reflexivity | constructor |].
    constructor.
Qed.

Section logger.
Context {R : Runtime}.

Lemma Priority_unknown (level : core.LogLevel) :
  level ∉ core.definedLevels -> core.Priority level = 0.
Proof.
  intros Hnot. unfold core.Priority, core.levelPriority. cbn [list_to_map foldr].
  unfold core.definedLevels in Hnot.
  rewrite !not_elem_of_cons in Hnot.
  destruct Hnot as (H1 & H2 & H3 & H4 & H5 & _).
  cbn [fst snd].
  now rewrite !lookup_insert_ne, lookup_empty by congruence.
Qed.

Lemma Priority_defined (level : core.LogLevel) :
  level ∈ core.definedLevels -> 10 <= core.Priority level.
Proof.
  unfold core.definedLevels. rewrite !elem_of_cons.
  intros [-> | [-> | [-> | [-> | [-> | H]]]]]; try (vm_compute; discriminate).
  inversion H.
Qed.

(** [NewLogger] reads the level only to replace the empty one. *)
Lemma NewLogger_level (config : core.Config) (level : core.LogLevel) :
  level <> EmptyString ->
  match core.NewLogger (core.withLevel config core.INFO) with
  | inr err => core.NewLogger (core.withLevel config level) = inr err
  | inl (l, s) =>
      exists l' s', core.NewLogger (core.withLevel config level) = inl (l', s')
                    /\ core.minLevel l' = level
                    /\ core.ConfigLogLevel (core.loggerConfig l') = level
  end.
Proof.
  intros Hne. unfold core.NewLogger, core.withLevel.
  cbn [core.ProjectID core.Host core.APIKey core.ConfigLogLevel].
  destruct (decide (core.INFO = EmptyString)) as [E|_]; [discriminate|].
  destruct (decide (level = EmptyString)) as [E|_]; [contradiction|].
  cbn [core.ProjectID core.Host core.APIKey core.ConfigLogLevel].
  destruct (validation.ValidateProjectID _); [reflexivity|].
  destruct (validation.ValidateHostURL _); [reflexivity|].
  destruct (if decide (strings.TrimSpace (core.APIKey config) = EmptyString)
            then None else _); [reflexivity|].
  eexists _, _. repeat split.
Qed.

(** A call of [log] that is not stopped by the level filter prints one
    line: a diagnostic or the entry. *)
Lemma log_prints (l : core.LogBullLogger) (level : core.LogLevel)
    (message : string) (fields : option (gmap string any))
    (w w' : core.World) :
  core.belowMinLevel l level = false ->
  core.log l level message fields w w' ->
  length (core.console w') = S (length (core.console w)).
Proof.
  intros Hpass Hlog. destruct Hlog; cbn [core.console];
    rewrite ?length_app; cbn [length]; try lia.
  congruence.
Qed.

End logger.

(** C1 fails on the code: [NewLogger] validates the project identity
    before anything else, and an empty one is an error. There is no mode
    without a sender. *)
Theorem NewLogger_rejects_empty_identity `{R : Runtime}
    (config : core.Config) :
  core.ProjectID config = EmptyString -> core.Host config = EmptyString ->
  core.NewLogger config = inr "project ID cannot be empty".
Proof.
  intros Hp Hh. unfold core.NewLogger. rewrite Hp, Hh.
  change (strings.TrimSpace EmptyString) with EmptyString.
  destruct (decide (core.ConfigLogLevel _ = EmptyString)); reflexivity.
Qed.

Lemma NewLogger_rejects_empty_identity_witness :
  core.NewLogger (R := example.runtime)
    (core.mkConfig EmptyString EmptyString EmptyString EmptyString)
  = inr "project ID cannot be empty".
Proof.
  apply (NewLogger_rejects_empty_identity (R := example.runtime)
           (core.mkConfig EmptyString EmptyString EmptyString EmptyString));
    reflexivity.
Defined.

(** C10. A level that is not empty and is none of DEBUG, INFO, WARNING,
    ERROR, CRITICAL has priority 0. [NewLogger] does not validate it: with
    it the call fails with the same error as with INFO, or returns a
    logger whose minimum level it is. A logger with such a minimum level
    filters no entry of a defined level, so that [log] prints something
    for each of them. *)
Theorem unrecognized_level_filters_nothing `{R : Runtime}
    (config : core.Config) (level : core.LogLevel) :
  level <> EmptyString -> level ∉ core.definedLevels ->
  core.Priority level = 0
  /\ match core.NewLogger (core.withLevel config core.INFO) with
     | inr err => core.NewLogger (core.withLevel config level) = inr err
     | inl _ =>
         exists l s, core.NewLogger (core.withLevel config level) = inl (l, s)
                     /\ core.minLevel l = level
     end
  /\ forall l entryLevel,
       core.minLevel l = level -> entryLevel ∈ core.definedLevels ->
       core.belowMinLevel l entryLevel = false
       /\ forall message fields w w',
            core.log l entryLevel message fields w w' ->
            length (core.console w') = S (length (core.console w)).
Proof.
  intros Hne Hnot. split; [now apply Priority_unknown|]. split.
  - pose proof (NewLogger_level config level Hne) as H.
    destruct (core.NewLogger (core.withLevel config core.INFO)) as [[l s]|err];
      [|assumption].
    destruct H as (l' & s' & H1 & H2 & _). eauto.
  - intros l entryLevel Hmin Hdef.
    assert (Hpass : core.belowMinLevel l entryLevel = false).
    { unfold core.belowMinLevel. rewrite Hmin, (Priority_unknown _ Hnot).
      apply Z.ltb_ge. pose proof (Priority_defined _ Hdef). lia. }
    split; [assumption|].
    intros message fields w w'. now apply log_prints.
Qed.

Lemma unrecognized_level_filters_nothing_witness :
  exists l s,
    core.NewLogger (R := example.runtime) (core.withLevel example.config "TRACE")
    = inl (l, s)
    /\ core.minLevel l = "TRACE".
Proof.
  destruct (unrecognized_level_filters_nothing (R := example.runtime)
              example.config "TRACE") as (_ & H & _).
  - discriminate.
  - unfold core.definedLevels. rewrite !not_elem_of_cons.
    repeat split; try discriminate. apply not_elem_of_nil.
  - exact H.
Defined.

(** ** Validation of the configuration and of the messages *)

Section validators.
Context {R : Runtime}.

Lemma hexRun_spec (n : nat) (s r : list ascii) :
  validation.hexRun n s = Some r
  <-> exists a, s = (a ++ r)%list /\ length a = n
                /\ forallb validation.isHex a = true.
Proof.
  revert s. induction n as [|n IH]; intros s; simpl.
  - split.
    + intros [= ->]. exists []. auto.
    + intros (a & -> & Hlen & _). destruct a; [reflexivity | discriminate].
  - destruct s as [|c s].
    + split; [discriminate|]. intros (a & Ha & Hlen & _).
      destruct a; discriminate.
    + destruct (validation.isHex c) eqn:Hc.
      * rewrite IH. split.
        -- intros (a & -> & Hlen & Hhex). exists (c :: a). simpl.
           rewrite Hc, Hhex, Hlen. auto.
        -- intros (a & Ha & Hlen & Hhex). destruct a as [|c' a]; [discriminate|].
           simpl in Ha, Hlen, Hhex. injection Ha as -> ->. injection Hlen as Hlen.
           apply andb_prop in Hhex as [_ Hhex]. eauto.
      * split; [discriminate|]. intros (a & Ha & Hlen & Hhex).
        destruct a as [|c' a]; [discriminate|]. simpl in Ha, Hhex.
        injection Ha as -> ->. rewrite Hc in Hhex. discriminate.
Qed.

Lemma dash_spec (s r : list ascii) :
  validation.dash s = Some r <-> s = ("-"%char :: r)%list.
Proof.
  unfold validation.dash. destruct s as [|c s]; [split; discriminate|].
  destruct (N.eqb_spec (strings.byte c) 45) as [Hc|Hc].
  - assert (c = "-"%char) as ->.
    { rewrite <- (ascii_N_embedding c). unfold strings.byte in Hc.
      rewrite Hc. reflexivity. }
    split; congruence.
  - split; [discriminate|]. intros [= -> _]. exfalso. apply Hc. reflexivity.
Qed.

Lemma hexGroups_last (n : nat) (s : list ascii) :
  validation.hexGroups [n] s = true
  <-> length s = n /\ forallb validation.isHex s = true.
Proof.
  cbn [validation.hexGroups].
  destruct (validation.hexRun n s) as [r|] eqn:Hrun.
  - apply hexRun_spec in Hrun as (a & -> & Hlen & Hhex).
    destruct r as [|c r].
    + rewrite app_nil_r. tauto.
    + split; [discriminate|]. intros [Hlen' _].
      rewrite length_app in Hlen'. simpl in Hlen'. lia.
  - split; [discriminate|]. intros [Hlen Hhex].
    assert (validation.hexRun n s = Some []) as Hs.
    { apply hexRun_spec. exists s. rewrite app_nil_r. auto. }
    congruence.
Qed.

Lemma hexGroups_more (n g : nat) (gs : list nat) (s : list ascii) :
  validation.hexGroups (n :: g :: gs) s = true
  <-> exists a s', s = (a ++ "-"%char :: s')%list /\ length a = n
                   /\ forallb validation.isHex a = true
                   /\ validation.hexGroups (g :: gs) s' = true.
Proof.
  cbn [validation.hexGroups].
  destruct (validation.hexRun n s) as [r|] eqn:Hrun.
  - apply hexRun_spec in Hrun as (a & -> & Hlen & Hhex).
    destruct (validation.dash r) as [r'|] eqn:Hdash.
    + apply dash_spec in Hdash as ->. split.
      * intros H. exists a, r'. auto.
      * intros (a' & s' & Heq & Hlen' & _ & H).
        apply app_inj_1 in Heq as [-> [= ->]]; [exact H | lia].
    + split; [destruct r; discriminate|].
      intros (a' & s' & Heq & Hlen' & _ & _).
      apply app_inj_1 in Heq as [-> ->]; [|lia].
      simpl in Hdash. discriminate.
  - split; [discriminate|]. intros (a & s' & -> & Hlen & Hhex & _).
    assert (validation.hexRun n (a ++ "-"%char :: s') = Some ("-"%char :: s'))
      as Hs by (apply hexRun_spec; eauto).
    congruence.
Qed.

Lemma TrimSpace_empty : strings.TrimSpace EmptyString = EmptyString.
Proof. reflexivity. Qed.

End validators.

(** X1. [ValidateProjectID] accepts exactly the values that are, once
    trimmed, five groups of 8, 4, 4, 4 and 12 hexadecimal digits (of either
    case) separated by dashes. *)
Theorem ValidateProjectID_accepts (projectID : string) :
  validation.ValidateProjectID projectID = None
  <-> exists a b c d e : list ascii,
        list_ascii_of_string (strings.TrimSpace projectID)
        = (a ++ "-"%char :: b ++ "-"%char :: c ++ "-"%char :: d
             ++ "-"%char :: e)%list
        /\ (length a = 8 /\ length b = 4 /\ length c = 4 /\ length d = 4
            /\ length e = 12)%nat
        /\ forallb validation.isHex (a ++ b ++ c ++ d ++ e) = true.
Proof.
  unfold validation.ValidateProjectID.
  set (t := strings.TrimSpace projectID).
  assert (validation.uuidPattern t = true
          <-> exists a b c d e : list ascii,
                list_ascii_of_string t
                = (a ++ "-"%char :: b ++ "-"%char :: c ++ "-"%char :: d
                     ++ "-"%char :: e)%list
                /\ (length a = 8 /\ length b = 4 /\ length c = 4
                    /\ length d = 4 /\ length e = 12)%nat
                /\ forallb validation.isHex (a ++ b ++ c ++ d ++ e) = true)
    as Hpattern.
  { unfold validation.uuidPattern. rewrite hexGroups_more. split.
    - intros (a & s1 & Hs & Ha & Hha & H1).
      apply hexGroups_more in H1 as (b & s2 & -> & Hb & Hhb & H2).
      apply hexGroups_more in H2 as (c & s3 & -> & Hc & Hhc & H3).
      apply hexGroups_more in H3 as (d & s4 & -> & Hd & Hhd & H4).
      apply hexGroups_last in H4 as [He Hhe].
      exists a, b, c, d, s4. rewrite !forallb_app, Hha, Hhb, Hhc, Hhd, Hhe.
      auto 10.
    - intros (a & b & c & d & e & Hs & (Ha & Hb & Hc & Hd & He) & Hhex).
      rewrite !forallb_app in Hhex.
      repeat (apply andb_prop in Hhex as [? Hhex]).
      exists a, (b ++ "-"%char :: c ++ "-"%char :: d ++ "-"%char :: e)%list.
      repeat split; try assumption.
      apply hexGroups_more. exists b, (c ++ "-"%char :: d ++ "-"%char :: e)%list.
      repeat split; try assumption.
      apply hexGroups_more. exists c, (d ++ "-"%char :: e)%list.
      repeat split; try assumption.
      apply hexGroups_more. exists d, e.
      repeat split; try assumption.
      apply hexGroups_last. auto. }
  destruct (decide (t = EmptyString)) as [Ht|Ht].
  - split; [discriminate|]. intros (a & b & c & d & e & Hs & _).
    rewrite Ht in Hs. destruct a; discriminate.
  - destruct (validation.uuidPattern t); simpl.
    + split; [intros _; apply Hpattern; reflexivity | reflexivity].
    + split; [discriminate|]. intros H. apply Hpattern in H. discriminate.
Qed.

Section messages.

Lemma substring_take (n : nat) (s : string) :
  list_ascii_of_string (String.substring 0 n s)
  = take n (list_ascii_of_string s).
Proof.
  revert n. induction s as [|c s IH]; intros [|n]; simpl; try reflexivity.
  now rewrite IH.
Qed.

Lemma string_length_list (s : string) :
  String.length s = length (list_ascii_of_string s).
Proof. induction s as [|c s IH]; simpl; [reflexivity | now rewrite IH]. Qed.

Lemma string_app_list (a b : string) :
  list_ascii_of_string (a +:+ b)
  = (list_ascii_of_string a ++ list_ascii_of_string b)%list.
Proof. induction a as [|c a IH]; simpl; [reflexivity | now rewrite IH]. Qed.

Lemma string_eq_list (a b : string) :
  list_ascii_of_string a = list_ascii_of_string b -> a = b.
Proof.
  intros H. rewrite <- (string_of_list_ascii_of_string a),
    <- (string_of_list_ascii_of_string b). now rewrite H.
Qed.

(** The cut that [FormatMessage] makes in a trimmed message that is too
    long. *)
Lemma FormatMessage_cut (message : string) :
  formatting.defaultMaxMessageLength
  < validation.len (strings.TrimSpace message) ->
  list_ascii_of_string (formatting.FormatMessage message)
  = (take (Z.to_nat (formatting.defaultMaxMessageLength - 3))
       (list_ascii_of_string (strings.TrimSpace message))
     ++ ["."; "."; "."]%char)%list.
Proof.
  intros Hlong. unfold formatting.FormatMessage.
  destruct (Z.ltb_spec formatting.defaultMaxMessageLength
              (validation.len (strings.TrimSpace message))); [|lia].
  rewrite string_app_list, substring_take. reflexivity.
Qed.

Lemma FormatMessage_short (message : string) :
  validation.len (strings.TrimSpace message)
  <= formatting.defaultMaxMessageLength ->
  formatting.FormatMessage message = strings.TrimSpace message.
Proof.
  intros Hshort. unfold formatting.FormatMessage.
  destruct (Z.ltb_spec formatting.defaultMaxMessageLength
              (validation.len (strings.TrimSpace message))); [lia|reflexivity].
Qed.

Lemma FormatMessage_len (message : string) :
  validation.len (formatting.FormatMessage message)
  = Z.min (validation.len (strings.TrimSpace message))
      formatting.defaultMaxMessageLength.
Proof.
  destruct (Z.le_gt_cases (validation.len (strings.TrimSpace message))
              formatting.defaultMaxMessageLength) as [H|H].
  - rewrite FormatMessage_short by exact H. lia.
  - unfold validation.len at 1. rewrite string_length_list, FormatMessage_cut by lia.
    unfold validation.len in *. rewrite string_length_list in *.
    rewrite length_app, length_take. cbn [length].
    unfold formatting.defaultMaxMessageLength in *. lia.
Qed.

End messages.

(** X2. The result of [FormatMessage] never has more than 10000 bytes. A
    trimmed message within the limit is returned as it is; a longer one is
    cut to its first 9997 bytes followed by three dots, 10000 bytes in
    all. *)
Theorem FormatMessage_bounded (message : string) :
  validation.len (formatting.FormatMessage message)
  <= formatting.defaultMaxMessageLength
  /\ (validation.len (strings.TrimSpace message)
      <= formatting.defaultMaxMessageLength ->
      formatting.FormatMessage message = strings.TrimSpace message)
  /\ (formatting.defaultMaxMessageLength
      < validation.len (strings.TrimSpace message) ->
      validation.len (formatting.FormatMessage message)
      = formatting.defaultMaxMessageLength
      /\ exists kept dropped,
           strings.TrimSpace message = kept +:+ dropped
           /\ validation.len kept = formatting.defaultMaxMessageLength - 3
           /\ formatting.FormatMessage message = kept +:+ "...").
Proof.
  split; [|split].
  - rewrite FormatMessage_len. lia.
  - apply FormatMessage_short.
  - intros Hlong. split; [rewrite FormatMessage_len; lia|].
    set (t := list_ascii_of_string (strings.TrimSpace message)).
    set (n := Z.to_nat (formatting.defaultMaxMessageLength - 3)).
    exists (string_of_list_ascii (take n t)), (string_of_list_ascii (drop n t)).
    assert (length t = String.length (strings.TrimSpace message)) as Hlen
      by (symmetry; apply string_length_list).
    unfold validation.len in Hlong.
    split; [|split].
    + apply string_eq_list.
      rewrite string_app_list, !list_ascii_of_string_of_list_ascii.
      now rewrite take_drop.
    + unfold validation.len.
      rewrite string_length_list, list_ascii_of_string_of_list_ascii,
        length_take. unfold n, formatting.defaultMaxMessageLength in *. lia.
    + apply string_eq_list.
      rewrite FormatMessage_cut by exact Hlong.
      rewrite string_app_list, list_ascii_of_string_of_list_ascii. reflexivity.
Qed.

Lemma FormatMessage_bounded_witness :
  validation.len (formatting.FormatMessage "  started  ")
  <= formatting.defaultMaxMessageLength
  /\ formatting.FormatMessage "  started  " = "started".
Proof.
  split.
  - apply (FormatMessage_bounded "  started  ").
  - exact (proj1 (proj2 (FormatMessage_bounded "  started  ")) ltac:(vm_compute; discriminate)).
Defined.

Section format_again.

Lemma headClean_long (c1 c2 c3 : ascii) (s t : list ascii) :
  strings.headClean (c1 :: c2 :: c3 :: s) ->
  strings.headClean (c1 :: c2 :: c3 :: t).
Proof. simpl. tauto. Qed.

Lemma FormatMessage_trimmed (message : string) :
  strings.TrimSpace (formatting.FormatMessage message)
  = formatting.FormatMessage message.
Proof.
  destruct (Z.le_gt_cases (validation.len (strings.TrimSpace message))
              formatting.defaultMaxMessageLength) as [H|H].
  - rewrite FormatMessage_short by exact H. apply TrimSpace_idempotent.
  - rewrite <- (string_of_list_ascii_of_string (formatting.FormatMessage message)).
    rewrite FormatMessage_cut by lia.
    destruct (TrimSpace_bytes message) as (t & Ht & Hhead & _).
    rewrite Ht in *. rewrite list_ascii_of_string_of_list_ascii.
    unfold validation.len in H.
    rewrite string_length_list, list_ascii_of_string_of_list_ascii in H.
    assert (exists k, Z.to_nat (formatting.defaultMaxMessageLength - 3)
                      = S (S (S k))) as [k Hk].
    { exists (Z.to_nat (formatting.defaultMaxMessageLength - 6)).
      unfold formatting.defaultMaxMessageLength. lia. }
    rewrite Hk.
    destruct t as [|c1 [|c2 [|c3 t]]];
      try (unfold formatting.defaultMaxMessageLength in H; simpl in H; lia).
    apply TrimSpace_clean.
    + cbn [take app]. exact (headClean_long c1 c2 c3 t _ Hhead).
    + rewrite rev_app_distr. simpl. auto.
Qed.

End format_again.

(** X3. [FormatMessage] is idempotent: what it returns has no white space
    around it and is within the limit, so a second call returns it
    unchanged, also when the first call has cut the message. *)
Theorem FormatMessage_idempotent (message : string) :
  formatting.FormatMessage (formatting.FormatMessage message)
  = formatting.FormatMessage message.
Proof.
  rewrite (FormatMessage_short (formatting.FormatMessage message)).
  - apply FormatMessage_trimmed.
  - rewrite FormatMessage_trimmed, FormatMessage_len. lia.
Qed.

Section fields_verdict.
Context {R : Runtime}.

Lemma validateKeys_accepts (keys : list string) :
  validation.validateKeys keys = None
  <-> Forall (fun key =>
                strings.TrimSpace key <> EmptyString
                /\ validation.len (strings.TrimSpace key)
                   <= validation.maxFieldKeyLen) keys.
Proof.
  induction keys as [|key keys IH]; simpl.
  - split; [constructor | reflexivity].
  - rewrite Forall_cons, <- IH.
    destruct (decide (strings.TrimSpace key = EmptyString)) as [He|He].
    + split; [discriminate | tauto].
    + destruct (Z.ltb_spec validation.maxFieldKeyLen
                  (validation.len (strings.TrimSpace key))).
      * split; [discriminate | lia].
      * split; [intros H'; split; [split; [exact He | lia] | exact H'] | tauto].
Qed.

Lemma keys_of_order (m : gmap string any) (order : list (string * any)) :
  order ≡ₚ map_to_list m ->
  forall key, key ∈ order.*1 <-> key ∈ dom m.
Proof.
  intros Hp key. rewrite Hp, elem_of_dom. split.
  - intros ((k & v) & -> & Hin)%list_elem_of_fmap.
    exists v. now apply elem_of_map_to_list.
  - intros [v Hv]. apply list_elem_of_fmap. exists (key, v). split; [reflexivity|].
    now apply elem_of_map_to_list.
Qed.

End fields_verdict.

Section fields_verdict_2.
Context {R : Runtime}.

Lemma ValidateLogFields_None_iff (fields : option (gmap string any))
    (err : error) :
  validation.ValidateLogFields fields err ->
  err = None
  <-> Z.of_nat (size (default ∅ fields)) <= validation.maxFieldsCount
      /\ forall key,
           key ∈ dom (default ∅ fields) ->
           strings.TrimSpace key <> EmptyString
           /\ validation.len (strings.TrimSpace key)
              <= validation.maxFieldKeyLen.
Proof.
  destruct fields as [m|]; simpl.
  - destruct (Z.ltb_spec validation.maxFieldsCount (Z.of_nat (size m))) as [Hbig|Hok].
    + intros ->. split; [discriminate | lia].
    + intros (order & Hp & ->). rewrite validateKeys_accepts, Forall_forall.
      split.
      * intros H. split; [exact Hok|]. intros key Hkey.
        apply H. now apply (keys_of_order m order Hp).
      * intros [_ H] key Hkey. apply H. now apply (keys_of_order m order Hp).
  - intros ->. split; [|reflexivity]. intros _. rewrite map_size_empty.
    split; [unfold validation.maxFieldsCount; lia|].
    intros key Hkey. rewrite dom_empty_L in Hkey. set_solver.
Qed.

Lemma ValidateLogFields_total (fields : option (gmap string any)) :
  exists err, validation.ValidateLogFields fields err.
Proof.
  destruct fields as [m|]; simpl; [|eauto].
  destruct (validation.maxFieldsCount <? Z.of_nat (size m)); eauto.
Qed.

End fields_verdict_2.

(** X4. [ValidateLogFields] always returns, and whether it accepts does
    not depend on the order in which the map yields its keys: the fields
    are accepted exactly when there are at most 100 of them and every key
    is, once trimmed, not empty and at most 100 bytes long. (Which error is
    returned for a map with several bad keys does depend on the order.) *)
Theorem ValidateLogFields_verdict `{R : Runtime}
    (fields : option (gmap string any)) :
  (exists err, validation.ValidateLogFields fields err)
  /\ (validation.ValidateLogFields fields None
      <-> Z.of_nat (size (default ∅ fields)) <= validation.maxFieldsCount
          /\ forall key,
               key ∈ dom (default ∅ fields) ->
               strings.TrimSpace key <> EmptyString
               /\ validation.len (strings.TrimSpace key)
                  <= validation.maxFieldKeyLen)
  /\ (forall err,
        validation.ValidateLogFields fields (Some err) ->
        ~ validation.ValidateLogFields fields None).
Proof.
  split; [apply ValidateLogFields_total | split].
  - split.
    + intros H. now apply (ValidateLogFields_None_iff fields None H).
    + intros H. destruct (ValidateLogFields_total fields) as [err Herr].
      apply (ValidateLogFields_None_iff fields err Herr) in H. now subst.
  - intros err Herr Hnone.
    pose proof (proj1 (ValidateLogFields_None_iff fields None Hnone) eq_refl) as H.
    apply (ValidateLogFields_None_iff fields (Some err) Herr) in H. discriminate.
Qed.

(** ** The fields of an entry *)

Section fields.
Context {R : Runtime}.

Lemma ensureEntry_lookup (acc : gmap string any) (kv : string * any)
    (key' : string) :
  formatting.ensureEntry acc kv !! key'
  = if decide (strings.TrimSpace kv.1 <> EmptyString /\ strings.TrimSpace kv.1 = key')
    then Some (if formatting.isJSONSerializable kv.2 then kv.2
               else anyString (formatting.convertToString kv.2))
    else acc !! key'.
Proof.
  unfold formatting.ensureEntry.
  destruct (decide (strings.TrimSpace kv.1 = EmptyString)) as [He|He].
  - destruct (decide _) as [[? _]|_]; [contradiction | reflexivity].
  - destruct (decide (strings.TrimSpace kv.1 = key')) as [<-|Hk].
    + destruct (decide _) as [_|Hn]; [|tauto].
      destruct (formatting.isJSONSerializable kv.2); now rewrite lookup_insert_eq.
    + destruct (decide _) as [[_ ?]|_]; [contradiction|].
      destruct (formatting.isJSONSerializable kv.2);
        now rewrite lookup_insert_ne.
Qed.

(** What the loop of [EnsureFields] has written under a key comes from an
    entry of the map with that trimmed key. *)
Lemma EnsureFields_loop_sound (order : list (string * any))
    (acc : gmap string any) (key' : string) (value' : any) :
  foldl formatting.ensureEntry acc order !! key' = Some value' ->
  acc !! key' = Some value'
  \/ exists kv, kv ∈ order /\ strings.TrimSpace kv.1 = key' /\ key' <> EmptyString
                /\ value' = (if formatting.isJSONSerializable kv.2 then kv.2
                             else anyString (formatting.convertToString kv.2)).
Proof.
  revert acc. induction order as [|kv order IH]; intros acc; simpl.
  - auto.
  - intros H. apply IH in H as [H|(kv' & Hin & H)].
    + rewrite ensureEntry_lookup in H.
      destruct (decide _) as [[Hne <-]|_]; [|auto].
      right. exists kv. injection H as <-. repeat split; auto. left.
    + right. exists kv'. split; [now right | exact H].
Qed.

Lemma EnsureFields_loop_dom (order : list (string * any))
    (acc : gmap string any) (key' : string) :
  key' ∈ dom (foldl formatting.ensureEntry acc order)
  <-> key' ∈ dom acc
      \/ exists kv, kv ∈ order /\ strings.TrimSpace kv.1 = key' /\ key' <> EmptyString.
Proof.
  revert acc. induction order as [|kv order IH]; intros acc; simpl.
  - split; [auto|]. intros [H|(kv & Hin & _)]; [exact H|]. inversion Hin.
  - rewrite IH, !elem_of_dom, ensureEntry_lookup. split.
    + intros [H|(kv' & Hin & H)].
      * destruct (decide _) as [[Hne <-]|_]; [|auto].
        right. exists kv. repeat split; auto. left.
      * right. exists kv'. split; [now right | exact H].
    + intros [H|(kv' & Hin & Hk & Hne)].
      * left. destruct (decide _); [eauto | exact H].
      * apply elem_of_cons in Hin as [->|Hin].
        -- left. destruct (decide _) as [|Hn]; [eauto|]. subst key'. tauto.
        -- right. eauto.
Qed.

Lemma EnsureFields_loop_size (order : list (string * any))
    (acc : gmap string any) :
  (size (foldl formatting.ensureEntry acc order) <= size acc + length order)%nat.
Proof.
  revert acc. induction order as [|kv order IH]; intros acc; simpl; [lia|].
  etransitivity; [apply IH|].
  assert (size (formatting.ensureEntry acc kv) <= S (size acc))%nat; [|lia].
  unfold formatting.ensureEntry.
  destruct (decide _); [lia|].
  destruct (formatting.isJSONSerializable kv.2);
    rewrite map_size_insert; destruct (acc !! _); simpl; lia.
Qed.

Lemma EnsureFields_sound (m formatted : gmap string any) (key' : string)
    (value' : any) :
  formatting.EnsureFields (Some m) formatted ->
  formatted !! key' = Some value' ->
  exists key value,
    m !! key = Some value /\ strings.TrimSpace key = key' /\ key' <> EmptyString
    /\ value' = (if formatting.isJSONSerializable value then value
                 else anyString (formatting.convertToString value)).
Proof.
  intros (order & Hp & ->) H.
  apply EnsureFields_loop_sound in H as [H|((key & value) & Hin & H)].
  - rewrite lookup_empty in H. discriminate.
  - exists key, value. split; [|exact H].
    apply elem_of_map_to_list. now rewrite <- Hp.
Qed.

Lemma EnsureFields_dom (m formatted : gmap string any) (key' : string) :
  formatting.EnsureFields (Some m) formatted ->
  key' ∈ dom formatted
  <-> key' <> EmptyString /\ exists key, key ∈ dom m /\ strings.TrimSpace key = key'.
Proof.
  intros (order & Hp & ->). rewrite EnsureFields_loop_dom, dom_empty_L. split.
  - intros [H|((key & value) & Hin & Hk & Hne)]; [set_solver|].
    split; [exact Hne|]. exists key. split; [|exact Hk].
    apply elem_of_dom. exists value. apply elem_of_map_to_list.
    now rewrite <- Hp.
  - intros (Hne & key & [value Hv]%elem_of_dom & Hk).
    right. exists (key, value). split; [|auto].
    rewrite Hp. now apply elem_of_map_to_list.
Qed.

(** The second loop of [MergeFields], and the loop that copies a map:
    the keys of a map are distinct, so the order does not matter. *)
Lemma overlay_loop (order : list (string * any)) (result : gmap string any) :
  NoDup order.*1 ->
  foldl (fun r kv => <[kv.1 := kv.2]> r) result order
  = list_to_map order ∪ result.
Proof.
  revert result. induction order as [|[key value] order IH]; intros result Hnd.
  - simpl. now rewrite (left_id_L ∅ (∪)).
  - rewrite fmap_cons in Hnd. apply NoDup_cons in Hnd as [Hkey Hnd].
    cbn [foldl fst snd]. rewrite IH by exact Hnd. rewrite list_to_map_cons.
    rewrite <- insert_union_l. symmetry. apply insert_union_r.
    now apply not_elem_of_list_to_map_1.
Qed.

Lemma overlay_map (extra : gmap string any) (order : list (string * any))
    (result : gmap string any) :
  order ≡ₚ map_to_list extra ->
  foldl (fun r kv => <[kv.1 := kv.2]> r) result order = extra ∪ result.
Proof.
  intros Hp. rewrite overlay_loop.
  - f_equal. rewrite <- (list_to_map_to_list extra).
    apply list_to_map_proper; [|exact Hp].
    rewrite Hp. apply NoDup_fst_map_to_list.
  - rewrite Hp. apply NoDup_fst_map_to_list.
Qed.

Lemma copyMap_eq (m result : gmap string any) :
  handlers.copyMap m result <-> result = m.
Proof.
  unfold handlers.copyMap. split.
  - intros (order & Hp & ->). rewrite (overlay_map m) by exact Hp.
    apply (right_id_L ∅ (∪)).
  - intros ->. exists (map_to_list m). split; [reflexivity|].
    rewrite (overlay_map m) by reflexivity. now rewrite (right_id_L ∅ (∪)).
Qed.

Lemma MergeFields_as_union (base additional : option (gmap string any))
    (result : gmap string any) :
  formatting.MergeFields base additional result
  <-> exists result0 extra,
        formatting.EnsureFields base result0
        /\ formatting.EnsureFields additional extra
        /\ result = extra ∪ result0.
Proof.
  unfold formatting.MergeFields. split.
  - intros (result0 & extra & order & Hb & Ha & Hp & ->).
    exists result0, extra. repeat split; try assumption.
    now apply overlay_map.
  - intros (result0 & extra & Hb & Ha & ->).
    exists result0, extra, (map_to_list extra).
    split; [exact Hb | split; [exact Ha | split; [reflexivity|]]].
    symmetry. now apply overlay_map.
Qed.

End fields.

(** X5. What [EnsureFields] returns for a map: its keys are exactly the
    trimmed forms, when not empty, of the keys of the map; each value is
    the value of a key with that trimmed form, as it is when [json.Marshal]
    accepts it and turned into a string otherwise; and there are no more
    entries than in the map. *)
Theorem EnsureFields_entries `{R : Runtime} (m formatted : gmap string any) :
  formatting.EnsureFields (Some m) formatted ->
  (forall key',
     key' ∈ dom formatted
     <-> key' <> EmptyString
         /\ exists key, key ∈ dom m /\ strings.TrimSpace key = key')
  /\ (forall key' value',
        formatted !! key' = Some value' ->
        exists key value,
          m !! key = Some value /\ strings.TrimSpace key = key'
          /\ value' = (if formatting.isJSONSerializable value then value
                       else anyString (formatting.convertToString value)))
  /\ (size formatted <= size m)%nat.
Proof.
  intros H. split; [|split].
  - intros key'. now apply EnsureFields_dom.
  - intros key' value' Hv.
    destruct (EnsureFields_sound m formatted key' value' H Hv)
      as (key & value & ? & ? & _ & ?).
    eauto.
  - destruct H as (order & Hp & ->).
    pose proof (EnsureFields_loop_size order ∅) as Hs.
    rewrite map_size_empty in Hs.
    rewrite (Permutation_length Hp), length_map_to_list in Hs. exact Hs.
Qed.

Lemma EnsureFields_entries_witness :
  (size ({[ "user" := example.VString "0x7" ]} : gmap string example.value)
   <= size ({[ "  user  " := example.VChan 7 ]} : gmap string example.value))%nat.
Proof.
  exact (proj2 (proj2 (EnsureFields_entries (R := example.runtime) _ _
                         EnsureFields_channel))).
Defined.



(** X7. When two keys of a map have the same trimmed form, the result of
    [EnsureFields] depends on the order in which the map yields them: for
    a key and the same key after a space, either value can be the one that
    is kept. *)
Theorem EnsureFields_collision `{R : Runtime} (key : string)
    (value1 value2 : any) :
  key <> EmptyString -> strings.TrimSpace key = key ->
  formatting.isJSONSerializable value1 = true ->
  formatting.isJSONSerializable value2 = true ->
  let m : gmap string any := {[ key := value1; " " +:+ key := value2 ]} in
  formatting.EnsureFields (Some m) {[ key := value1 ]}
  /\ formatting.EnsureFields (Some m) {[ key := value2 ]}.
Proof.
  intros Hne Htrim Hs1 Hs2 m.
  assert (strings.TrimSpace (" " +:+ key) = key) as Htrim'.
  { rewrite <- Htrim at 2. unfold strings.TrimSpace. simpl list_ascii_of_string.
    now rewrite trimLeft_eq. }
  assert (key <> " " +:+ key) as Hdiff.
  { intros H. apply (f_equal String.length) in H.
    rewrite string_length_app in H. simpl in H. lia. }
  assert (map_to_list m ≡ₚ [(key, value1); (" " +:+ key, value2)]) as Hp.
  { unfold m. rewrite map_to_list_insert by now apply lookup_singleton_ne.
    now rewrite map_to_list_singleton. }
  assert (forall v w : any,
            formatting.isJSONSerializable w = true ->
            formatting.ensureEntry
              (formatting.ensureEntry ∅ (key, v)) (" " +:+ key, w)
            = {[ key := w ]}) as Hlate.
  { intros v w Hw. unfold formatting.ensureEntry at 1. cbn [fst snd].
    rewrite Htrim', Hw. destruct (decide (key = EmptyString)); [contradiction|].
    apply map_eq. intros k. destruct (decide (k = key)) as [->|Hk].
    - now rewrite lookup_insert_eq, lookup_singleton_eq.
    - rewrite lookup_insert_ne, lookup_singleton_ne by congruence.
      rewrite ensureEntry_lookup. cbn [fst snd].
      destruct (decide _) as [[_ ?]|_]; [congruence | apply lookup_empty]. }
  assert (forall v w : any,
            formatting.isJSONSerializable w = true ->
            formatting.ensureEntry
              (formatting.ensureEntry ∅ (" " +:+ key, v)) (key, w)
            = {[ key := w ]}) as Hearly.
  { intros v w Hw. unfold formatting.ensureEntry at 1. cbn [fst snd].
    rewrite Htrim, Hw. destruct (decide (key = EmptyString)); [contradiction|].
    apply map_eq. intros k. destruct (decide (k = key)) as [->|Hk].
    - now rewrite lookup_insert_eq, lookup_singleton_eq.
    - rewrite lookup_insert_ne, lookup_singleton_ne by congruence.
      rewrite ensureEntry_lookup. cbn [fst snd].
      destruct (decide _) as [[_ ?]|_]; [congruence | apply lookup_empty]. }
  split.
  - exists [(" " +:+ key, value2); (key, value1)]. split.
    + rewrite Hp. apply perm_swap.
    + simpl. now rewrite Hearly.
  - exists [(key, value1); (" " +:+ key, value2)]. split.
    + now rewrite Hp.
    + simpl. now rewrite Hlate.
Qed.

Lemma EnsureFields_collision_witness :
  formatting.EnsureFields (R := example.runtime)
    (Some {[ "id" := example.VInt 1; " id" := example.VInt 2 ]})
    {[ "id" := example.VInt 1 ]}
  /\ formatting.EnsureFields (R := example.runtime)
       (Some {[ "id" := example.VInt 1; " id" := example.VInt 2 ]})
       {[ "id" := example.VInt 2 ]}.
Proof.
  apply (EnsureFields_collision (R := example.runtime) "id"
           (example.VInt 1) (example.VInt 2));
    [discriminate | reflexivity | reflexivity | reflexivity].
Defined.

(** X8. [MergeFields] returns the sanitized additional fields laid over
    the sanitized base fields: under a key of the additional fields the
    additional value wins, any other key keeps its base value; the order
    in which the additional map yields its entries does not matter. *)
Theorem MergeFields_overlay `{R : Runtime}
    (base additional : option (gmap string any)) (result : gmap string any) :
  formatting.MergeFields base additional result
  <-> exists result0 extra,
        formatting.EnsureFields base result0
        /\ formatting.EnsureFields additional extra
        /\ forall key,
             result !! key = match extra !! key with
                             | Some value => Some value
                             | None => result0 !! key
                             end.
Proof.
  rewrite MergeFields_as_union. split.
  - intros (result0 & extra & Hb & Ha & ->). exists result0, extra.
    split; [exact Hb | split; [exact Ha|]]. intros key.
    rewrite lookup_union. destruct (extra !! key), (result0 !! key); reflexivity.
  - intros (result0 & extra & Hb & Ha & Hl). exists result0, extra.
    split; [exact Hb | split; [exact Ha|]]. apply map_eq. intros key.
    rewrite Hl, lookup_union.
    destruct (extra !! key), (result0 !! key); reflexivity.
Qed.

Section merged.
Context {R : Runtime}.
Hypothesis strings_marshal : marshals_strings R.

Lemma sanitized_union (m1 m2 : gmap string any) :
  formatting.sanitized m1 -> formatting.sanitized m2 ->
  formatting.sanitized (m1 ∪ m2).
Proof. apply map_Forall_union_2. Qed.

Lemma MergeFields_sanitized (base additional : option (gmap string any))
    (result : gmap string any) :
  formatting.MergeFields base additional result -> formatting.sanitized result.
Proof.
  intros (result0 & extra & Hb & Ha & ->)%MergeFields_as_union.
  apply sanitized_union;
    eapply (EnsureFields_sanitized strings_marshal); eassumption.
Qed.

End merged.

(** X9. What [MergeFields] returns is sanitized, so the call of
    [EnsureFields] that [log] makes on it changes nothing. *)
Theorem merged_fields_are_final `{R : Runtime}
    (base additional : option (gmap string any))
    (mergedFields ensured : gmap string any) :
  marshals_strings R ->
  formatting.MergeFields base additional mergedFields ->
  formatting.EnsureFields (Some mergedFields) ensured ->
  ensured = mergedFields /\ formatting.sanitized mergedFields.
Proof.
  intros HR Hm He.
  pose proof (MergeFields_sanitized HR _ _ _ Hm) as Hs.
  split; [|exact Hs]. exact (EnsureFields_fixed_point _ _ Hs He).
Qed.

Lemma merged_fields_are_final_witness :
  formatting.sanitized (R := example.runtime)
    {[ "user" := example.VString "0x7" ]}.
Proof.
  refine (proj2 (merged_fields_are_final (R := example.runtime)
                   (Some {[ "  user  " := example.VChan 7 ]}) None _
                   {[ "user" := example.VString "0x7" ]}
                   example_marshals_strings _ _)).
  - apply MergeFields_as_union.
    exists {[ "user" := example.VString "0x7" ]}, ∅.
    split; [exact EnsureFields_channel | split; [reflexivity|]].
    now rewrite (left_id_L ∅ (∪)).
  - exists [("user", example.VString "0x7")].
    split; [now rewrite map_to_list_singleton | reflexivity].
Defined.

(** ** More on the timestamps *)

Section timestamp_strings.

Lemma Format_length (t : time.Time) : String.length (time.Format t) = 30%nat.
Proof.
  unfold time.Format. destruct (time.Date _) as [[y m] d].
  rewrite !string_length_app, !pad_length. reflexivity.
Qed.

Lemma issued_strings (clock : list Z) (last : Z) :
  core.timestamps clock last = map core.formatTimestamp (core.issued clock last).
Proof.
  revert last. induction clock as [|now clock IH]; intros last; simpl.
  - reflexivity.
  - now rewrite IH.
Qed.

End timestamp_strings.

(** X10. On the range of [int64], [formatTimestamp] is an order embedding
    into strings of 30 bytes: comparing two formatted timestamps as strings
    gives the order of the instants, and distinct instants have distinct
    strings. *)
Theorem formatTimestamp_order (a b : Z) :
  golang.is_int64 a -> golang.is_int64 b ->
  String.compare (core.formatTimestamp a) (core.formatTimestamp b) = (a ?= b)
  /\ (core.formatTimestamp a = core.formatTimestamp b -> a = b)
  /\ String.length (core.formatTimestamp a) = 30%nat.
Proof.
  intros Ha Hb.
  assert (String.compare (core.formatTimestamp a) (core.formatTimestamp b)
          = (a ?= b)) as Hcmp.
  { destruct (Z.compare_spec a b) as [->|Hlt|Hgt].
    - apply string_compare_refl.
    - exact (formatTimestamp_lt a b Ha Hb Hlt).
    - rewrite String.compare_antisym.
      now rewrite (formatTimestamp_lt b a Hb Ha Hgt). }
  split; [exact Hcmp | split].
  - intros Heq. rewrite Heq, string_compare_refl in Hcmp.
    symmetry in Hcmp. now apply Z.compare_eq in Hcmp.
  - apply Format_length.
Qed.

Lemma formatTimestamp_order_witness :
  String.compare (core.formatTimestamp 1700000000000000000)
    (core.formatTimestamp 1700000000000000001) = Lt.
Proof.
  refine (proj1 (formatTimestamp_order 1700000000000000000
                   1700000000000000001 _ _));
    unfold golang.is_int64, golang.min_int64, golang.max_int64; lia.
Defined.

(** X11. The values issued by a sequence of calls of
    [GenerateUniqueTimestamp]: the strings returned are their formats; no
    value is behind the clock reading of its call; and when no reading is
    above [bound], the value of the [n]-th call is at most [n] nanoseconds
    above it. *)
Theorem issued_timestamps_track_clock (clock : list Z) (last bound : Z) :
  golang.is_int64 last -> last <= bound ->
  Forall (fun now => now <= bound) clock ->
  bound + Z.of_nat (length clock) <= golang.max_int64 ->
  core.timestamps clock last = map core.formatTimestamp (core.issued clock last)
  /\ Forall2 (fun now currentNs => now <= currentNs) clock
       (core.issued clock last)
  /\ forall n currentNs,
       core.issued clock last !! n = Some currentNs ->
       currentNs <= bound + Z.of_nat (S n).
Proof.
  intros Hl Hle Hc Hb. split; [apply issued_strings|].
  assert (forall shift,
            0 <= shift -> last <= bound + shift ->
            bound + shift + Z.of_nat (length clock) <= golang.max_int64 ->
            Forall2 (fun now currentNs => now <= currentNs) clock
              (core.issued clock last)
            /\ forall n currentNs,
                 core.issued clock last !! n = Some currentNs ->
                 currentNs <= bound + shift + Z.of_nat (S n)) as H.
  { clear Hle Hb. revert last Hl.
    induction Hc as [|now clock Hn Hc IH]; intros last Hl shift Hs Hle Hb.
    - split; [constructor|]. intros n c H. destruct n; discriminate.
    - cbn [core.issued length] in *.
      set (cur := (core.GenerateUniqueTimestamp now last).2).
      assert (now <= cur /\ last <= cur /\ cur <= bound + shift + 1
              /\ golang.is_int64 cur) as (H1 & H2 & H3 & H4).
      { unfold cur, core.GenerateUniqueTimestamp. cbn [snd].
        unfold golang.is_int64, golang.min_int64, golang.max_int64 in *.
        destruct (Z.leb_spec now last).
        - rewrite wrap64_small;
            unfold golang.is_int64, golang.min_int64, golang.max_int64; lia.
        - lia. }
      destruct (IH cur H4 (shift + 1)) as [IH1 IH2]; [lia | lia | lia |].
      split; [constructor; assumption|].
      intros [|n] c Hc'.
      + injection Hc' as <-. lia.
      + apply IH2 in Hc'. lia. }
  destruct (H 0) as [H1 H2]; [lia | lia | lia |].
  split; [exact H1|]. intros n c Hn. apply H2 in Hn. lia.
Qed.

Lemma issued_timestamps_track_clock_witness :
  Forall2 (fun now currentNs => now <= currentNs) [100; 100; 90; 200]
    (core.issued [100; 100; 90; 200] 0).
Proof.
  refine (proj1 (proj2 (issued_timestamps_track_clock [100; 100; 90; 200] 0 200
                          _ _ _ _)));
    unfold golang.is_int64, golang.min_int64, golang.max_int64; simpl;
    try lia.
  repeat constructor; lia.
Defined.

(** ** The goroutines of the sender and the order of the entries *)

Section accounts.
Context {R : Runtime}.

Lemma filter_app_length {A : Type} (f : A -> bool) (l1 l2 : list A) :
  length (List.filter f (l1 ++ l2))
  = (length (List.filter f l1) + length (List.filter f l2))%nat.
Proof. now rewrite List.filter_app, length_app. Qed.

Lemma delete_middle {A : Type} (l : list A) (i : nat) (w : A) :
  l !! i = Some w ->
  l = (take i l ++ w :: drop (S i) l)%list
  /\ delete i l = (take i l ++ drop (S i) l)%list.
Proof.
  intros H. split.
  - symmetry. now apply take_drop_middle.
  - apply delete_take_drop.
Qed.

Lemma filter_delete_length {A : Type} (f : A -> bool) (l : list A) (i : nat)
    (w : A) :
  l !! i = Some w ->
  length (List.filter f l)
  = (length (List.filter f (delete i l)) + if f w then 1 else 0)%nat.
Proof.
  intros H. destruct (delete_middle l i w H) as [Hl ->].
  rewrite Hl at 1. rewrite !filter_app_length. simpl.
  destruct (f w); simpl; lia.
Qed.

Lemma delete_length {A : Type} (l : list A) (i : nat) (w : A) :
  l !! i = Some w -> length l = S (length (delete i l)).
Proof.
  intros H. destruct (delete_middle l i w H) as [Hl ->].
  rewrite Hl at 1. rewrite !length_app. simpl. lia.
Qed.

(** The requests of one delivery go to the endpoint of the
    configuration. *)
Lemma sendHTTPRequest_target (config : core.Config)
    (logs : list core.LogEntry) (x : core.Exchange) :
  Forall (fun e => exists data, e = core.postOf config data)
    (List.filter core.isPost (core.sendHTTPRequest config logs x).1).
Proof.
  assert (Hnone : forall lines,
             List.filter core.isPost (map core.Stderr lines) = []).
  { induction lines as [|l lines IH]; [reflexivity | exact IH]. }
  unfold core.sendHTTPRequest.
  destruct (core.marshalled x) as [data|]; [|constructor].
  destruct (core.newRequestErr x); [constructor|]. cbv zeta.
  destruct (core.clientDo x) as [resp|].
  - destruct (core.afterResponse logs resp) as [lines|msg];
      cbn [fst List.filter core.isPost]; rewrite ?Hnone;
      (apply Forall_cons; split; [now exists data | constructor]).
  - cbn [fst List.filter core.isPost].
    apply Forall_cons; split; [now exists data | constructor].
Qed.

Lemma accounts_NewSender (config : core.Config) :
  core.accounts (core.NewSender config).
Proof.
  split; cbn; try reflexivity; try (unfold core.minWorkers; lia).
  constructor.
Qed.

Lemma accounts_sendBatch (s : core.Sender) :
  core.accounts s -> core.accounts (core.sendBatch s).
Proof.
  intros [Hs Hf Hw Hp Hn Ht]. unfold core.sendBatch. rewrite drain_spec.
  destruct (Z.of_nat (length _) =? 0); [now split|].
  unfold core.slotHolders, core.posts in *.
  split; cbn [core.workerSem core.workers core.wg core.processor core.stopCh
                core.effects core.handed core.config];
    unfold core.slotHolders, core.posts;
    cbn [core.workerSem core.workers core.wg core.processor core.stopCh
           core.effects core.handed core.config];
    rewrite ?filter_app_length, ?length_app; cbn [length];
    try assumption.
  - destruct (Z.ltb_spec 0 (core.workerSem s)); cbn; lia.
  - destruct (Z.ltb_spec 0 (core.workerSem s)); lia.
  - lia.
  - lia.
Qed.

Lemma accounts_step (s s' : core.Sender) (e : core.Event) :
  core.accounts s -> core.step s e s' -> core.accounts s'.
Proof.
  intros Hacc Hstep. destruct Hstep as
    [entry s' Hadd | | | Hp | Hp Hs | i w x Hw Hslot | Ho Hwg].
  - destruct Hacc as [Hs Hf Hw Hp Hn Ht].
    destruct Hadd as [Hroom | Hstop | Hfull Hopen]; [now split | now split |].
    unfold core.posts in *.
    split; unfold core.posts, core.slotHolders; cbn; try assumption;
      rewrite List.filter_app; cbn; rewrite app_nil_r; assumption.
  - now apply accounts_sendBatch.
  - unfold core.Shutdown. destruct (core.shutdownOnce s); try assumption.
    unfold core.shutdownBody. destruct (core.stopCh s) eqn:Es.
    + destruct Hacc as [Hs Hf Hw Hp Hn Ht]. now split.
    + apply accounts_sendBatch. destruct Hacc as [Hs Hf Hw Hp Hn Ht].
      now split.
  - now apply accounts_sendBatch.
  - destruct Hacc as [Hs' Hf Hw Hp' Hn Ht].
    split; unfold core.posts, core.slotHolders in *; cbn; try assumption.
    + rewrite Hw, Hp. lia.
    + intros _. exact Hs.
  - destruct Hacc as [Hs Hf Hwg Hp Hn Ht].
    pose proof (sendHTTPRequest_one_post (core.config s) (core.batch w) x) as H1.
    pose proof (sendHTTPRequest_target (core.config s) (core.batch w) x) as H2.
    pose proof (filter_delete_length core.holdsSlot _ _ _ Hw) as Hc.
    pose proof (delete_length _ _ _ Hw) as Hl.
    unfold core.workerDone.
    destruct (core.sendHTTPRequest _ _ _) as [es end_]. cbn [fst] in H1, H2.
    unfold core.posts, core.slotHolders in *.
    split; unfold core.posts, core.slotHolders;
      cbn [core.workerSem core.workers core.wg core.processor core.stopCh
             core.effects core.handed core.config];
      rewrite ?List.filter_app, ?length_app; try assumption.
    + destruct (core.holdsSlot w); lia.
    + destruct (core.holdsSlot w); lia.
    + lia.
    + lia.
    + apply Forall_app. split; assumption.
  - destruct Hacc as [Hs Hf Hw Hp Hn Ht]. now split.
Qed.

Lemma accounts_run (s s' : core.Sender) (es : list core.Event) :
  core.accounts s -> core.run s es s' -> core.accounts s'.
Proof.
  intros Hacc Hrun. induction Hrun as [|s e s1 es s2 _ Hstep _ IH];
    [assumption|].
  apply IH. eapply accounts_step; eassumption.
Qed.




(** The [Once] is entered by a call of [Shutdown] only. *)
Lemma once_entered (s s' : core.Sender) (es : list core.Event) :
  core.run s es s' ->
  core.shutdownOnce s = core.OnceNew -> core.shutdownOnce s' <> core.OnceNew ->
  core.CallShutdown ∈ es.
Proof.
  intros Hrun. induction Hrun as [|s e s1 es s2 _ Hstep _ IH];
    intros Hnew Hentered; [contradiction|].
  destruct Hstep as
    [entry s' Hadd | | | Hp | Hp Hs | i w x Hw Hslot | Ho Hwg];
    try (apply list_elem_of_here);
    apply list_elem_of_further, IH; try assumption.
  - now destruct Hadd.
  - unfold core.Flush. now destruct (sendBatch_spec s) as (_ & _ & _ & -> & _).
  - now destruct (sendBatch_spec s) as (_ & _ & _ & -> & _).
  - now destruct (workerDone_life s i w x) as (_ & -> & _).
  - congruence.
Qed.

End accounts.



(** X13. The slots of [workerSem]: [NewSender] puts [minWorkers] tokens
    into the channel and nothing else ever adds one, so in every run at
    most one delivery holds a slot, the channel never holds more than one
    token although it has room for [maxWorkers], and a delivery that ends
    can always give its slot back without blocking. The wait group counts
    the deliveries that are running and the batch processor. *)
Theorem worker_slots `{R : Runtime} (config : core.Config)
    (events : list core.Event) (s : core.Sender) :
  core.run (core.NewSender config) events s ->
  0 <= core.workerSem s <= core.minWorkers
  /\ core.workerSem s + core.slotHolders s = core.minWorkers
  /\ core.wg s = Z.of_nat (length (core.workers s))
                 + (if core.processor s then 1 else 0)
  /\ forall i w x,
       core.workers s !! i = Some w ->
       core.step s (core.WorkerDone i x) (core.workerDone s i w x).
Proof.
  intros Hrun.
  destruct (accounts_run _ _ _ (accounts_NewSender config) Hrun)
    as [Hs Hf Hw Hp Hn Ht].
  assert (0 <= core.slotHolders s) by (unfold core.slotHolders; lia).
  repeat split; try assumption; try lia.
  intros i w x Hi. apply core.step_WorkerDone; [exact Hi|].
  intros _. unfold core.minWorkers, core.maxWorkers in *. lia.
Qed.

Lemma worker_slots_witness :
  exists s,
    core.run (R := example.runtime) (core.NewSender example.config)
      example.shutdownEvents s
    /\ core.workerSem s + core.slotHolders s = core.minWorkers.
Proof.
  destruct (shutdownEvents_run) as [s Hs]. exists s. split; [exact Hs|].
  exact (proj1 (proj2 (worker_slots (R := example.runtime) _ _ _ Hs))).
Defined.

(** X14. [Shutdown] returns only when the sender is idle: at the moment
    [wg.Wait] returns in the call that runs the [Once], no delivery is
    running, the batch processor has returned, and [Shutdown] was called;
    the sender is then stopped. *)
Theorem Shutdown_returns_when_idle `{R : Runtime} (config : core.Config)
    (events : list core.Event) (s s' : core.Sender) :
  core.run (core.NewSender config) events s ->
  core.step s core.ShutdownReturn s' ->
  core.workers s' = [] /\ core.processor s' = false
  /\ core.stopCh s' = true /\ core.phase s' = core.STOPPED
  /\ core.CallShutdown ∈ events.
Proof.
  intros Hrun Hstep.
  destruct (accounts_run _ _ _ (accounts_NewSender config) Hrun)
    as [Hs Hf Hw Hp Hn Ht].
  inversion Hstep as [| | | | | |Ho Hwg]; subst. cbn.
  rewrite Hwg in Hw.
  assert (core.processor s = false) as Hproc
    by (destruct (core.processor s); [lia | reflexivity]).
  rewrite Hproc in Hw.
  repeat split.
  - destruct (core.workers s); [reflexivity | simpl in Hw; lia].
  - exact Hproc.
  - now apply Hp.
  - apply (once_entered _ _ _ Hrun); [reflexivity | congruence].
Qed.

Lemma Shutdown_returns_when_idle_witness :
  core.workers (R := example.runtime)
    (core.shutdownReturn
       (core.processorStop (core.Shutdown (core.NewSender example.config))))
  = [].
Proof.
  refine (proj1 (Shutdown_returns_when_idle (R := example.runtime)
                   example.config [core.CallShutdown; core.ProcessorStop]
                   (core.processorStop
                      (core.Shutdown (core.NewSender example.config)))
                   _ _ _)).
  - eapply core.run_cons; [reflexivity | apply core.step_Shutdown |].
    eapply core.run_cons;
      [reflexivity | apply core.step_ProcessorStop; reflexivity |].
    apply core.run_nil.
  - apply core.step_ShutdownReturn; reflexivity.
Defined.

(** X15. A batch is sent at most once and only to the endpoint of the
    configuration: in every run, the requests sent and the deliveries
    still running are together no more than the batches handed over, and
    each request is a POST to [Host/api/v1/logs/receiving/ProjectID] with
    the headers of the configuration. Nothing is sent again after a
    failure. *)
Theorem batches_are_posted_at_most_once `{R : Runtime} (config : core.Config)
    (events : list core.Event) (s : core.Sender) :
  core.run (core.NewSender config) events s ->
  (length (core.posts s) + length (core.workers s)
   <= length (core.handed s))%nat
  /\ Forall (fun e => exists data, e = core.postOf config data) (core.posts s).
Proof.
  intros Hrun.
  destruct (accounts_run _ _ _ (accounts_NewSender config) Hrun)
    as [Hs Hf Hw Hp Hn Ht].
  split; [exact Hn|].
  assert (core.config s = config) as <-; [|exact Ht].
  clear -Hrun. remember (core.NewSender config) as s0 eqn:E.
  assert (core.config s0 = config) as Hc by now subst.
  clear E. induction Hrun as [|s e s1 es s2 _ Hstep _ IH]; [exact Hc|].
  apply IH. rewrite <- Hc.
  destruct Hstep as
    [entry s' Hadd | | | Hp | Hp Hs | i w x Hw Hslot | Ho Hwg];
    try reflexivity.
  - now destruct Hadd.
  - unfold core.Flush.
    now destruct (sendBatch_spec s) as (_ & _ & _ & _ & _ & _ & _ & ->).
  - unfold core.Shutdown. destruct (core.shutdownOnce s); try reflexivity.
    unfold core.shutdownBody. destruct (core.stopCh s); [reflexivity|].
    now destruct (sendBatch_spec
                    {| core.config := core.config s;
                       core.logQueue := core.logQueue s;
                       core.stopCh := true; core.wg := core.wg s;
                       core.shutdownOnce := core.OnceRunning;
                       core.workerSem := core.workerSem s;
                       core.processor := core.processor s;
                       core.workers := core.workers s;
                       core.handed := core.handed s;
                       core.effects := core.effects s;
                       core.drains := S (core.drains s);
                       core.panicked := core.panicked s |})
      as (_ & _ & _ & _ & _ & _ & _ & ->).
  - now destruct (sendBatch_spec s) as (_ & _ & _ & _ & _ & _ & _ & ->).
  - unfold core.workerDone. now destruct (core.sendHTTPRequest _ _ _).
Qed.

Lemma batches_are_posted_at_most_once_witness :
  exists s,
    core.run (R := example.runtime) (core.NewSender example.config)
      example.shutdownEvents s
    /\ (length (core.posts s) + length (core.workers s)
        <= length (core.handed s))%nat.
Proof.
  destruct (shutdownEvents_run) as [s Hs]. exists s. split; [exact Hs|].
  exact (proj1 (batches_are_posted_at_most_once (R := example.runtime)
                  _ _ _ Hs)).
Defined.

Section after_stop.
Context {R : Runtime}.



End after_stop.





(** ** The logger *)

Section constructor.
Context {R : Runtime}.

Lemma ValidateProjectID_trim (s : string) :
  validation.ValidateProjectID (strings.TrimSpace s)
  = validation.ValidateProjectID s.
Proof. unfold validation.ValidateProjectID. now rewrite TrimSpace_idempotent. Qed.

Lemma ValidateHostURL_trim (s : string) :
  validation.ValidateHostURL (strings.TrimSpace s) = validation.ValidateHostURL s.
Proof. unfold validation.ValidateHostURL. now rewrite TrimSpace_idempotent. Qed.

Lemma ValidateAPIKey_trim (s : string) :
  validation.ValidateAPIKey (strings.TrimSpace s) = validation.ValidateAPIKey s.
Proof. unfold validation.ValidateAPIKey. now rewrite TrimSpace_idempotent. Qed.

(** The configuration that the four constructors keep. *)
Lemma NewLogger_unfold (config : core.Config) :
  let level := if decide (core.ConfigLogLevel config = EmptyString) then core.INFO
               else core.ConfigLogLevel config in
  let kept :=
    core.mkConfig (strings.TrimSpace (core.ProjectID config))
      (strings.TrimSpace (core.Host config))
      (strings.TrimSpace (core.APIKey config)) level in
  core.NewLogger config =
  match validation.ValidateProjectID (core.ProjectID config) with
  | Some err => inr err
  | None =>
      match validation.ValidateHostURL (core.Host config) with
      | Some err => inr err
      | None =>
          match (if decide (strings.TrimSpace (core.APIKey config) = EmptyString)
                 then None
                 else validation.ValidateAPIKey (core.APIKey config)) with
          | Some err => inr err
          | None => inl (core.mkLogger kept level ∅, core.NewSender kept)
          end
      end
  end.
Proof.
  unfold core.NewLogger.
  cbn [core.ProjectID core.Host core.APIKey core.ConfigLogLevel].
  destruct (decide (core.ConfigLogLevel config = EmptyString));
    cbn [core.ProjectID core.Host core.APIKey core.ConfigLogLevel];
    now rewrite ValidateProjectID_trim, ValidateHostURL_trim,
      ValidateAPIKey_trim.
Qed.

End constructor.

(** X18. [NewLogger] accepts a configuration exactly when its validators
    accept the project ID and the host as given and the API key is blank
    or accepted. The logger then keeps the trimmed values, has the level
    of the configuration, [INFO] when that is empty, an empty context, and
    a new sender for the kept configuration. *)
Theorem NewLogger_accepts `{R : Runtime} (config : core.Config) :
  ((exists l s, core.NewLogger config = inl (l, s))
   <-> validation.ValidateProjectID (core.ProjectID config) = None
       /\ validation.ValidateHostURL (core.Host config) = None
       /\ (strings.TrimSpace (core.APIKey config) = EmptyString
           \/ validation.ValidateAPIKey (core.APIKey config) = None))
  /\ forall l s,
       core.NewLogger config = inl (l, s) ->
       s = core.NewSender (core.loggerConfig l)
       /\ core.context l = ∅
       /\ core.minLevel l
          = (if decide (core.ConfigLogLevel config = EmptyString)
             then core.INFO else core.ConfigLogLevel config)
       /\ core.loggerConfig l
          = core.mkConfig (strings.TrimSpace (core.ProjectID config))
              (strings.TrimSpace (core.Host config))
              (strings.TrimSpace (core.APIKey config)) (core.minLevel l).
Proof.
  rewrite NewLogger_unfold.
  destruct (validation.ValidateProjectID _) as [e1|].
  { split; [|discriminate]. split; [intros (? & ? & [=]) | intros [[=] _]]. }
  destruct (validation.ValidateHostURL _) as [e2|].
  { split; [|discriminate]. split; [intros (? & ? & [=]) | intros (_ & [=] & _)]. }
  destruct (decide (strings.TrimSpace (core.APIKey config) = EmptyString)) as [Hk|Hk].
  { split; [split; eauto|]. intros l s [= <- <-]. auto. }
  destruct (validation.ValidateAPIKey _) as [e3|].
  { split; [|discriminate]. split; [intros (? & ? & [=])|].
    intros (_ & _ & [?|[=]]). contradiction. }
  split; [split; eauto|]. intros l s [= <- <-]. auto.
Qed.

(** X19. The API key of an accepted configuration: a blank key is left
    out of the requests; any other key has at least ten bytes, all of them
    letters, digits, underscores, hyphens or dots, and is sent trimmed in
    the header [X-API-Key], besides the two fixed headers. *)
Theorem accepted_api_key_is_sent `{R : Runtime} (config : core.Config)
    (l : core.LogBullLogger) (s : core.Sender) :
  core.NewLogger config = inl (l, s) ->
  let key := strings.TrimSpace (core.APIKey config) in
  let fixed := [("Content-Type", "application/json");
                ("User-Agent", "LogBull-Go-Client/1.0")] in
  (key = EmptyString -> core.requestHeaders (core.config s) = fixed)
  /\ (key <> EmptyString ->
      core.requestHeaders (core.config s)
      = (fixed ++ [("X-API-Key", key)])%list
      /\ 10 <= validation.len key
      /\ forallb validation.isKeyChar (list_ascii_of_string key) = true).
Proof.
  rewrite NewLogger_unfold.
  destruct (validation.ValidateProjectID _); [discriminate|].
  destruct (validation.ValidateHostURL _); [discriminate|].
  destruct (decide (strings.TrimSpace (core.APIKey config) = EmptyString)) as [Hk|Hk].
  - intros [= <- <-]. cbn. unfold core.requestHeaders. cbn.
    split; [|contradiction]. intros _.
    destruct (decide _); [reflexivity | contradiction].
  - unfold validation.ValidateAPIKey.
    destruct (Z.ltb_spec (validation.len (strings.TrimSpace (core.APIKey config)))
                10) as [|Hlen]; [discriminate|].
    destruct (validation.apiKeyPattern _) eqn:Hpat; [|discriminate].
    intros [= <- <-]. cbn. unfold core.requestHeaders. cbn.
    split; [contradiction|]. intros _.
    destruct (decide _); [contradiction|].
    split; [reflexivity | split; [exact Hlen|]].
    unfold validation.apiKeyPattern in Hpat.
    now apply andb_prop in Hpat as [? _].
Qed.

Lemma accepted_api_key_is_sent_witness :
  core.requestHeaders
    (core.NewSender (R := example.runtime) example.config).(core.config)
  = [("Content-Type", "application/json");
     ("User-Agent", "LogBull-Go-Client/1.0")].
Proof.
  refine (proj1 (accepted_api_key_is_sent (R := example.runtime)
                   example.config
                   (core.mkLogger example.config core.INFO ∅)
                   (core.NewSender example.config) _) _);
    reflexivity.
Defined.

Section log_calls.
Context {R : Runtime}.

Lemma printToConsole_total (entry : core.LogEntry) :
  exists e, core.printToConsole entry e.
Proof.
  unfold core.printToConsole.
  destruct (0 <? core.lenFields (core.Fields entry)) eqn:E.
  - eexists. eexists. split; [|reflexivity].
    exists (map_to_list (default ∅ (core.Fields entry))).
    split; reflexivity.
  - eexists. eexists. split; reflexivity.
Qed.

Lemma MergeFields_total (base additional : option (gmap string any)) :
  exists result, formatting.MergeFields base additional result.
Proof.
  destruct (EnsureFields_total base) as [result0 Hb].
  destruct (EnsureFields_total additional) as [extra Ha].
  exists (extra ∪ result0). apply MergeFields_as_union. eauto.
Qed.

(** What [log] does with a message and fields that pass the level filter
    and the two validations. *)
Lemma log_accepted (l : core.LogBullLogger) (level : core.LogLevel)
    (message : string) (fields : option (gmap string any))
    (w w' : core.World) :
  core.belowMinLevel l level = false ->
  validation.ValidateLogMessage message = None ->
  validation.ValidateLogFields fields None ->
  core.log l level message fields w w' ->
  exists mergedFields ensured now printed,
    formatting.MergeFields (Some (core.context l)) fields mergedFields
    /\ formatting.EnsureFields (Some mergedFields) ensured
    /\ golang.is_int64 now
    /\ let entry :=
         core.mkLogEntry level (formatting.FormatMessage message)
           (core.formatTimestamp (core.lastTimestampNs w')) (Some ensured) in
       core.lastTimestampNs w'
       = (core.GenerateUniqueTimestamp now (core.lastTimestampNs w)).2
       /\ core.printToConsole entry printed
       /\ core.console w' = (core.console w ++ [printed])%list
       /\ core.AddLog (core.sender w) entry (core.sender w').
Proof.
  intros Hpass Hmsg Hfields Hlog.
  destruct Hlog as [Hf | err _ He | err _ _ He
                    | mergedFields now ensured printed s' _ _ _ Hm Hn He Hp Ha].
  - congruence.
  - congruence.
  - exfalso.
    pose proof (proj1 (ValidateLogFields_None_iff fields None Hfields) eq_refl)
      as H.
    apply (ValidateLogFields_None_iff fields (Some err) He) in H. discriminate.
  - exists mergedFields, ensured, now, printed. cbn. auto 10.
Qed.

End log_calls.

Section log_entries.
Context {R : Runtime}.

Lemma ValidateLogMessage_accepts (message : string) :
  validation.ValidateLogMessage message = None
  <-> strings.TrimSpace message <> EmptyString
      /\ validation.len (strings.TrimSpace message)
         <= validation.maxMessageLength.
Proof.
  unfold validation.ValidateLogMessage.
  destruct (decide (strings.TrimSpace message = EmptyString)) as [He|He].
  - split; [discriminate | tauto].
  - destruct (Z.ltb_spec validation.maxMessageLength
                (validation.len (strings.TrimSpace message))).
    + split; [discriminate | lia].
    + split; [auto | reflexivity].
Qed.


Lemma AddLog_queue (s s' : core.Sender) (entry : core.LogEntry) :
  core.AddLog s entry s' ->
  core.handed s' = core.handed s
  /\ (core.logQueue s' = core.logQueue s
      \/ core.logQueue s' = (core.logQueue s ++ [entry])%list).
Proof. intros [Hroom | Hstop | Hfull Hopen]; cbn; auto. Qed.

End log_entries.



(** X21. From the constructor to the transport: a message logged on a new
    logger, with a level, a message and fields that are accepted, is
    printed once, and a call of [Flush] then hands exactly that entry to
    the transport, in a batch of its own, and leaves the queue empty. *)
Theorem logged_entry_reaches_transport `{R : Runtime} (config : core.Config)
    (l : core.LogBullLogger) (s : core.Sender) (level : core.LogLevel)
    (message : string) (fields : option (gmap string any)) (last : Z) :
  core.NewLogger config = inl (l, s) ->
  core.belowMinLevel l level = false ->
  validation.ValidateLogMessage message = None ->
  validation.ValidateLogFields fields None ->
  let w := core.mkWorld s last [] in
  (exists w', core.log l level message fields w w')
  /\ forall w',
       core.log l level message fields w w' ->
       exists entry,
         core.handed (core.sender (core.LoggerFlush w')) = [[entry]]
         /\ core.logQueue (core.sender (core.LoggerFlush w')) = []
         /\ core.Level entry = level
         /\ core.Message entry = strings.TrimSpace message
         /\ length (core.console w') = 1%nat.
Proof.
  intros Hnew Hpass Hmsg Hfields w.
  assert (s = core.NewSender (core.loggerConfig l)) as Hs.
  { rewrite NewLogger_unfold in Hnew.
    destruct (validation.ValidateProjectID _); [discriminate|].
    destruct (validation.ValidateHostURL _); [discriminate|].
    destruct (if decide _ then _ else _); [discriminate|].
    now injection Hnew as <- <-. }
  split.
  - destruct (MergeFields_total (Some (core.context l)) fields) as [merged Hm].
    destruct (EnsureFields_total (Some merged)) as [ensured He].
    set (entry := core.mkLogEntry level (formatting.FormatMessage message)
                    (core.GenerateUniqueTimestamp 0 last).1 (Some ensured)).
    destruct (printToConsole_total entry) as [printed Hp].
    destruct (AddLog_total s entry) as [s' Ha].
    eexists.
    refine (core.log_entry l level message fields w merged 0 ensured printed s'
              Hpass Hmsg Hfields Hm _ He Hp Ha).
    unfold golang.is_int64, golang.min_int64, golang.max_int64. lia.
  - intros w' Hlog.
    destruct (log_accepted _ _ _ _ _ _ Hpass Hmsg Hfields Hlog)
      as (merged & ensured & now & printed & _ & _ & _ & _ & _ & Hc & Ha).
    subst w s. cbn [core.sender core.console] in Ha, Hc.
    apply AddLog_active in Ha; [|reflexivity].
    eexists. unfold core.LoggerFlush. cbn [core.sender].
    destruct (sendBatch_spec (core.sender w')) as (Hq & Hh & _).
    unfold core.Flush. rewrite Hq, Hh, Ha.
    unfold core.submit. cbn [core.logQueue core.NewSender length].
    change (Z.of_nat 0 <? core.queueCapacity) with true. cbv iota.
    cbn [core.logQueue core.handed core.enqueue core.NewSender app].
    assert (exists k, Z.to_nat core.batchSize = S k) as [k ->]
      by (exists (Z.to_nat (core.batchSize - 1)); unfold core.batchSize; lia).
    cbn [take drop]. rewrite take_nil, drop_nil.
    split; [reflexivity | split; [reflexivity|]]. cbn.
    apply ValidateLogMessage_accepts in Hmsg as [_ Hlen].
    rewrite FormatMessage_short by exact Hlen.
    repeat split. rewrite Hc. reflexivity.
Qed.

Lemma logged_entry_reaches_transport_witness :
  exists w',
    core.log (R := example.runtime)
      (core.mkLogger (R := example.runtime) example.config core.INFO ∅)
      core.INFO "started" None
      (core.mkWorld (core.NewSender example.config) 0 []) w'.
Proof.
  refine (proj1 (logged_entry_reaches_transport (R := example.runtime)
                   example.config (core.mkLogger example.config core.INFO ∅)
                   (core.NewSender example.config) core.INFO "started" None 0
                   _ _ _ _));
    reflexivity.
Defined.

(** X22. A logger made by [WithContext] has the sender, the
    configuration and the level of its parent, and its context is the
    sanitized new context laid over the context of the parent: a key of the
    new context hides the same key of the parent. The context of the
    parent being sanitized, so is the context of the child. *)
Theorem WithContext_precedence `{R : Runtime} (l l' : core.LogBullLogger)
    (ctx : option (gmap string any)) :
  marshals_strings R ->
  formatting.sanitized (core.context l) ->
  core.WithContext l ctx l' ->
  core.loggerConfig l' = core.loggerConfig l
  /\ core.minLevel l' = core.minLevel l
  /\ formatting.sanitized (core.context l')
  /\ exists extra,
       formatting.EnsureFields ctx extra
       /\ forall key,
            core.context l' !! key
            = match extra !! key with
              | Some value => Some value
              | None => core.context l !! key
              end.
Proof.
  intros HR Hs (merged & Hm & ->). cbn.
  split; [reflexivity | split; [reflexivity | split]].
  - exact (MergeFields_sanitized HR _ _ _ Hm).
  - apply MergeFields_as_union in Hm as (result0 & extra & Hb & Ha & ->).
    apply (EnsureFields_fixed_point _ _ Hs) in Hb as ->.
    exists extra. split; [exact Ha|]. intros key. rewrite lookup_union.
    destruct (extra !! key), (core.context l !! key); reflexivity.
Qed.

Lemma WithContext_precedence_witness :
  let l := core.mkLogger (R := example.runtime) example.config core.INFO ∅ in
  let l' := core.mkLogger (R := example.runtime) example.config core.INFO
              {[ "user" := example.VString "0x7" ]} in
  formatting.sanitized (core.context l').
Proof.
  intros l l'.
  refine (proj1 (proj2 (proj2
            (WithContext_precedence (R := example.runtime) l l'
               (Some {[ "  user  " := example.VChan 7 ]})
               example_marshals_strings _ _)))).
  - apply map_Forall_empty.
  - exists {[ "user" := example.VString "0x7" ]}. split; [|reflexivity].
    apply MergeFields_as_union.
    exists ∅, {[ "user" := example.VString "0x7" ]}.
    split; [|split; [exact EnsureFields_channel|]].
    + exists []. split; [cbn; now rewrite map_to_list_empty | reflexivity].
    + now rewrite (right_id_L ∅ (∪)).
Defined.

(** ** The handlers for slog, logrus and zap *)

Section levels.
Context {R : Runtime}.

Lemma Priority_values :
  core.Priority core.DEBUG = 10 /\ core.Priority core.INFO = 20
  /\ core.Priority core.WARNING = 30 /\ core.Priority core.ERROR = 40
  /\ core.Priority core.CRITICAL = 50.
Proof. repeat split; reflexivity. Qed.

Lemma definedLevels_cases (level : core.LogLevel) :
  level ∈ core.definedLevels
  <-> level = core.DEBUG \/ level = core.INFO \/ level = core.WARNING
      \/ level = core.ERROR \/ level = core.CRITICAL.
Proof.
  unfold core.definedLevels. rewrite !elem_of_cons, elem_of_nil. tauto.
Qed.

Lemma Priority_range (level : core.LogLevel) : 0 <= core.Priority level <= 50.
Proof.
  destruct (decide (level ∈ core.definedLevels)) as [Hin|Hout].
  - destruct Priority_values as (H1 & H2 & H3 & H4 & H5).
    apply definedLevels_cases in Hin as [->|[->|[->|[->| ->]]]]; lia.
  - rewrite (Priority_unknown level Hout). lia.
Qed.

Lemma Priority_convertSlogLevel (level : Z) :
  core.Priority (handlers.convertSlogLevel level)
  = if level <? 0 then 10 else if level <? 4 then 20
    else if level <? 8 then 30 else 40.
Proof.
  unfold handlers.convertSlogLevel, slog.LevelInfo, slog.LevelWarn,
    slog.LevelError.
  destruct (level <? 0); [reflexivity|]. destruct (level <? 4); [reflexivity|].
  destruct (level <? 8); reflexivity.
Qed.

Lemma Priority_convertLogrusLevel (level : Z) :
  core.Priority (handlers.convertLogrusLevel level)
  = if (level =? 5) || (level =? 6) then 10
    else if level =? 4 then 20 else if level =? 3 then 30
    else if level =? 2 then 40
    else if (level =? 1) || (level =? 0) then 50 else 20.
Proof.
  unfold handlers.convertLogrusLevel, logrus.DebugLevel, logrus.TraceLevel,
    logrus.InfoLevel, logrus.WarnLevel, logrus.ErrorLevel, logrus.FatalLevel,
    logrus.PanicLevel.
  destruct ((level =? 5) || (level =? 6)); [reflexivity|].
  destruct (level =? 4); [reflexivity|]. destruct (level =? 3); [reflexivity|].
  destruct (level =? 2); [reflexivity|].
  destruct ((level =? 1) || (level =? 0)); reflexivity.
Qed.

Lemma Priority_convertZapLevel (level : Z) :
  core.Priority (handlers.convertZapLevel level)
  = if level =? (-1) then 10 else if level =? 0 then 20
    else if level =? 1 then 30 else if level =? 2 then 40
    else if ((level =? 3) || (level =? 4)) || (level =? 5) then 50 else 20.
Proof.
  unfold handlers.convertZapLevel, zapcore.DebugLevel, zapcore.InfoLevel,
    zapcore.WarnLevel, zapcore.ErrorLevel, zapcore.DPanicLevel,
    zapcore.PanicLevel, zapcore.FatalLevel.
  destruct (level =? (-1)); [reflexivity|]. destruct (level =? 0); [reflexivity|].
  destruct (level =? 1); [reflexivity|]. destruct (level =? 2); [reflexivity|].
  destruct (((level =? 3) || (level =? 4)) || (level =? 5)); reflexivity.
Qed.

Lemma convertLogLevelToZap_cases (level : core.LogLevel) :
  (level = core.DEBUG /\ handlers.convertLogLevelToZap level = -1)
  \/ (level = core.INFO /\ handlers.convertLogLevelToZap level = 0)
  \/ (level = core.WARNING /\ handlers.convertLogLevelToZap level = 1)
  \/ (level = core.ERROR /\ handlers.convertLogLevelToZap level = 2)
  \/ (level = core.CRITICAL /\ handlers.convertLogLevelToZap level = 5)
  \/ ((level ∉ core.definedLevels)
      /\ handlers.convertLogLevelToZap level = 0).
Proof.
  unfold handlers.convertLogLevelToZap.
  destruct (decide (level = core.DEBUG)) as [->|H1]; [auto|].
  destruct (decide (level = core.INFO)) as [->|H2]; [auto|].
  destruct (decide (level = core.WARNING)) as [->|H3]; [auto 10|].
  destruct (decide (level = core.ERROR)) as [->|H4]; [auto 10|].
  destruct (decide (level = core.CRITICAL)) as [->|H5]; [auto 10|].
  do 5 right. split; [|reflexivity]. rewrite definedLevels_cases. tauto.
Qed.

(** The loop of [levelsFromConfig] keeps the levels that pass the test, in
    the order of the list. *)
Lemma append_loop {A : Type} (f : A -> bool) (l acc : list A) :
  foldl (fun result x => if f x then (result ++ [x])%list else result) acc l
  = (acc ++ List.filter f l)%list.
Proof.
  revert acc. induction l as [|x l IH]; intros acc; simpl.
  - now rewrite app_nil_r.
  - rewrite IH. destruct (f x); [now rewrite <- app_assoc | reflexivity].
Qed.

Lemma allLevels_range (level : Z) :
  level ∈ handlers.allLevels <-> 0 <= level <= 6.
Proof.
  unfold handlers.allLevels, logrus.DebugLevel, logrus.TraceLevel,
    logrus.InfoLevel, logrus.WarnLevel, logrus.ErrorLevel, logrus.FatalLevel,
    logrus.PanicLevel.
  rewrite !elem_of_cons, elem_of_nil. lia.
Qed.

Lemma levelsFromConfig_elem (minLevel : core.LogLevel) (level : Z) :
  level ∈ handlers.levelsFromConfig minLevel
  <-> 0 <= level <= 6
      /\ core.Priority minLevel
         <= core.Priority (handlers.convertLogrusLevel level).
Proof.
  unfold handlers.levelsFromConfig. rewrite append_loop. cbn [app].
  rewrite list_elem_of_In, List.filter_In, <- list_elem_of_In, allLevels_range.
  rewrite Z.geb_leb, Z.leb_le. tauto.
Qed.

End levels.

(** X23. The five methods and the level filter. [Critical] is never filtered,
    whatever the level of the logger; each of the other methods does
    nothing at all on a logger whose level has a higher priority than its
    own, and prints one line otherwise. *)
Theorem level_methods_and_filter `{R : Runtime} (l : core.LogBullLogger)
    (message : string) (fields : option (gmap string any))
    (w w' : core.World) :
  (core.Critical l message fields w w' ->
   length (core.console w') = S (length (core.console w)))
  /\ forall method priority,
       (method, priority)
       ∈ [(core.Debug l, 10); (core.Info l, 20); (core.Warning l, 30);
          (core.Error l, 40); (core.Critical l, 50)] ->
       method message fields w w' ->
       if priority <? core.Priority (core.minLevel l) then w' = w
       else length (core.console w') = S (length (core.console w)).
Proof.
  assert (forall level,
            core.log l level message fields w w' ->
            if core.Priority level <? core.Priority (core.minLevel l)
            then w' = w
            else length (core.console w') = S (length (core.console w)))
    as Hlog.
  { intros level H.
    destruct (core.Priority level <? core.Priority (core.minLevel l)) eqn:E.
    - destruct H; unfold core.belowMinLevel in *; congruence.
    - now apply (log_prints l level message fields). }
  split.
  - intros H. apply Hlog in H.
    change (core.Priority core.CRITICAL) with 50 in H.
    pose proof (Priority_range (core.minLevel l)).
    destruct (Z.ltb_spec 50 (core.Priority (core.minLevel l))); [lia | exact H].
  - intros method priority Hin H.
    rewrite !elem_of_cons, elem_of_nil in Hin.
    destruct Hin as [[= -> ->]|[[= -> ->]|[[= -> ->]|[[= -> ->]|[[= -> ->]|[]]]]]];
      exact (Hlog _ H).
Qed.

(** X24. The constructors of the handlers make the same checks as
    [NewLogger]: [NewSlogHandler] and [NewLogrusHook] accept the same
    configurations, return the same error otherwise, and keep the same
    configuration and sender; so does [NewZapCore] as long as the project
    ID and the host are not blank. *)
Theorem handler_constructors_agree `{R : Runtime} `{!Zapcore R}
    (config : core.Config) :
  handlers.NewSlogHandler config
  = match core.NewLogger config with
    | inr err => inr err
    | inl (l, s) =>
        inl (handlers.mkSlogHandler (core.loggerConfig l) [] EmptyString, s)
    end
  /\ handlers.NewLogrusHook config
     = match core.NewLogger config with
       | inr err => inr err
       | inl (l, s) =>
           inl (handlers.mkLogrusHook (core.loggerConfig l)
                  (handlers.levelsFromConfig (core.minLevel l)), s)
       end
  /\ (strings.TrimSpace (core.ProjectID config) <> EmptyString ->
      strings.TrimSpace (core.Host config) <> EmptyString ->
      handlers.NewZapCore config
      = ([], match core.NewLogger config with
             | inr err => inr err
             | inl (l, s) =>
                 inl (handlers.mkZapCore (core.loggerConfig l) true []
                        (handlers.convertLogLevelToZap (core.minLevel l)),
                      Some s)
             end)).
Proof.
  unfold handlers.NewSlogHandler, handlers.NewLogrusHook, handlers.NewZapCore,
    core.NewLogger.
  cbn [core.ProjectID core.Host core.APIKey core.ConfigLogLevel].
  split; [|split].
  - destruct (decide (core.ConfigLogLevel config = EmptyString));
      cbn [core.ProjectID core.Host core.APIKey core.ConfigLogLevel];
      destruct (validation.ValidateProjectID _); try reflexivity;
      destruct (validation.ValidateHostURL _); try reflexivity;
      destruct (if decide _ then _ else _); reflexivity.
  - destruct (decide (core.ConfigLogLevel config = EmptyString));
      cbn [core.ProjectID core.Host core.APIKey core.ConfigLogLevel];
      destruct (validation.ValidateProjectID _); try reflexivity;
      destruct (validation.ValidateHostURL _); try reflexivity;
      destruct (if decide _ then _ else _); reflexivity.
  - intros Hp Hh.
    destruct (decide (core.ConfigLogLevel config = EmptyString));
      cbn [core.ProjectID core.Host core.APIKey core.ConfigLogLevel];
      rewrite !bool_decide_eq_false_2 by assumption; cbn [orb];
      destruct (validation.ValidateProjectID _); try reflexivity;
      destruct (validation.ValidateHostURL _); try reflexivity;
      destruct (if decide _ then _ else _); reflexivity.
Qed.

(** X25. The level filter of the slog handler. [Enabled] is monotone: a
    handler that takes a level takes every higher one. [convertSlogLevel]
    never gives [CRITICAL], so a handler configured with [CRITICAL] is
    enabled for no level at all; one configured with a level that
    [levelPriority] does not know is enabled for every level. *)
Theorem slog_level_filter `{R : Runtime} (h : handlers.SlogHandler) :
  (forall level1 level2,
     level1 <= level2 -> handlers.SlogEnabled h level1 = true ->
     handlers.SlogEnabled h level2 = true)
  /\ (forall level, handlers.convertSlogLevel level <> core.CRITICAL)
  /\ (core.ConfigLogLevel (handlers.slogConfig h) = core.CRITICAL ->
      forall level, handlers.SlogEnabled h level = false)
  /\ (core.ConfigLogLevel (handlers.slogConfig h) ∉ core.definedLevels ->
      forall level, handlers.SlogEnabled h level = true).
Proof.
  unfold handlers.SlogEnabled. repeat split.
  - intros level1 level2 Hle.
    rewrite !Z.geb_leb, !Z.leb_le, !Priority_convertSlogLevel.
    repeat match goal with
           | |- context [?a <? ?b] => destruct (Z.ltb_spec a b)
           end; lia.
  - intros level. unfold handlers.convertSlogLevel.
    destruct (level <? _); [discriminate|].
    destruct (level <? _); [discriminate|].
    destruct (level <? _); discriminate.
  - intros -> level. rewrite Z.geb_leb. apply Z.leb_gt.
    rewrite Priority_convertSlogLevel.
    destruct Priority_values as (_ & _ & _ & _ & ->).
    destruct (level <? 0); [lia|]. destruct (level <? 4); [lia|].
    destruct (level <? 8); lia.
  - intros Hout level. rewrite Z.geb_leb. apply Z.leb_le.
    rewrite (Priority_unknown _ Hout).
    apply Priority_range.
Qed.

Section slog_fields.
Context {R : Runtime}.

Lemma slogFields_app (h : handlers.SlogHandler) (record : handlers.Record_) :
  handlers.slogFields h record
  = foldl (fun fields attr => handlers.addAttrToFields fields attr
                                (handlers.group h)) ∅
      (handlers.attrs h ++ handlers.RecordAttrs record).
Proof. unfold handlers.slogFields. now rewrite foldl_app. Qed.

Lemma addAttr_loop_dom (group : string) (attrs : list handlers.Attr)
    (acc : gmap string any) (key : string) :
  key ∈ dom (foldl (fun fields attr =>
                      handlers.addAttrToFields fields attr group) acc attrs)
  <-> key ∈ dom acc
      \/ exists attr, attr ∈ attrs
                      /\ key = (if decide (group = EmptyString) then handlers.Key attr
                                else group +:+ "." +:+ handlers.Key attr).
Proof.
  revert acc. induction attrs as [|a attrs IH]; intros acc; simpl.
  - split; [auto|]. intros [H|(a & Hin & _)]; [exact H | inversion Hin].
  - rewrite IH. unfold handlers.addAttrToFields.
    rewrite dom_insert_L, elem_of_union, elem_of_singleton. split.
    + intros [[->|H]|(a' & Hin & ->)].
      * right. exists a. split; [left | reflexivity].
      * now left.
      * right. exists a'. split; [now right | reflexivity].
    + intros [H|(a' & Hin & ->)]; [auto|].
      apply elem_of_cons in Hin as [->|Hin]; [auto | eauto].
Qed.

Lemma addAttr_loop_last (group : string) (attrs : list handlers.Attr)
    (acc : gmap string any) (attr : handlers.Attr) :
  foldl (fun fields a => handlers.addAttrToFields fields a group) acc
    (attrs ++ [attr])
  !! (if decide (group = EmptyString) then handlers.Key attr
      else group +:+ "." +:+ handlers.Key attr)
  = Some (handlers.Value attr).
Proof.
  rewrite foldl_app. cbn [foldl]. unfold handlers.addAttrToFields at 1.
  apply lookup_insert_eq.
Qed.

End slog_fields.

(** X26. Attributes and groups of the slog handler. The attributes given
    to [WithAttrs] count as if they came first in every record. A group is
    one name: [WithGroup] replaces the group, it does not nest, and with a
    group set every key of the fields of an entry, for the attributes of
    the handler as for those of the record, is the name of the group, a
    dot, and the key of an attribute. When a key comes twice, the last
    value is kept. *)
Theorem slog_attributes_and_groups `{R : Runtime} (h : handlers.SlogHandler)
    (newAttrs : list handlers.Attr) (outer name : string)
    (record : handlers.Record_) :
  handlers.slogFields (handlers.WithAttrs h newAttrs) record
  = handlers.slogFields h
      (handlers.mkRecord (handlers.RecordLevel record)
         (handlers.RecordMessage record)
         (newAttrs ++ handlers.RecordAttrs record))
  /\ handlers.WithGroup (handlers.WithGroup h outer) name
     = handlers.WithGroup h name
  /\ (forall key,
        key ∈ dom (handlers.slogFields (handlers.WithGroup h name) record)
        <-> exists attr,
              attr ∈ (handlers.attrs h ++ handlers.RecordAttrs record)%list
              /\ key = (if decide (name = EmptyString) then handlers.Key attr
                        else name +:+ "." +:+ handlers.Key attr))
  /\ (forall attr rest,
        handlers.RecordAttrs record = (rest ++ [attr])%list ->
        handlers.slogFields (handlers.WithGroup h name) record
        !! (if decide (name = EmptyString) then handlers.Key attr
            else name +:+ "." +:+ handlers.Key attr)
        = Some (handlers.Value attr)).
Proof.
  split; [|split; [reflexivity | split]].
  - rewrite !slogFields_app. cbn. now rewrite app_assoc.
  - intros key. rewrite slogFields_app. cbn [handlers.WithGroup handlers.group
      handlers.attrs]. rewrite addAttr_loop_dom, dom_empty_L, elem_of_empty. tauto.
  - intros attr rest Hr. rewrite slogFields_app, Hr. cbn [handlers.WithGroup
      handlers.group handlers.attrs]. rewrite app_assoc.
    apply addAttr_loop_last.
Qed.

(** X27. The levels of the logrus hook. A level of logrus is in
    [Levels] exactly when it is one of the seven levels and its LogBull
    level is not below the configured one. [Panic] and [Fatal] are always
    in; the levels are closed towards the more severe ones; and for a
    configured level that [levelPriority] does not know, the hook fires
    for all seven. *)
Theorem logrus_levels `{R : Runtime} (minLevel : core.LogLevel) :
  (forall level,
     level ∈ handlers.levelsFromConfig minLevel
     <-> 0 <= level <= 6
         /\ core.Priority minLevel
            <= core.Priority (handlers.convertLogrusLevel level))
  /\ logrus.PanicLevel ∈ handlers.levelsFromConfig minLevel
  /\ logrus.FatalLevel ∈ handlers.levelsFromConfig minLevel
  /\ (forall level level',
        level ∈ handlers.levelsFromConfig minLevel ->
        0 <= level' <= level ->
        level' ∈ handlers.levelsFromConfig minLevel)
  /\ (minLevel ∉ core.definedLevels ->
      handlers.levelsFromConfig minLevel = handlers.allLevels)
  /\ (forall config h s,
        handlers.NewLogrusHook config = inl (h, s) ->
        handlers.Levels h
        = handlers.levelsFromConfig
            (core.ConfigLogLevel (handlers.hookConfig h))).
Proof.
  pose proof (Priority_range minLevel) as Hrange.
  split; [apply levelsFromConfig_elem | split; [|split; [|split; [|split]]]].
  - apply levelsFromConfig_elem. rewrite Priority_convertLogrusLevel.
    unfold logrus.PanicLevel. cbn. lia.
  - apply levelsFromConfig_elem. rewrite Priority_convertLogrusLevel.
    unfold logrus.FatalLevel. cbn. lia.
  - intros level level'. rewrite !levelsFromConfig_elem,
      !Priority_convertLogrusLevel.
    intros [Hr Hp] Hle. split; [lia|].
    assert (level = 0 \/ level = 1 \/ level = 2 \/ level = 3 \/ level = 4
            \/ level = 5 \/ level = 6) as Hl by lia.
    assert (level' = 0 \/ level' = 1 \/ level' = 2 \/ level' = 3 \/ level' = 4
            \/ level' = 5 \/ level' = 6) as Hl' by lia.
    destruct Hl as [->|[->|[->|[->|[->|[->| ->]]]]]];
      destruct Hl' as [->|[->|[->|[->|[->|[->| ->]]]]]];
      cbn in *; lia.
  - intros Hout. unfold handlers.levelsFromConfig.
    rewrite append_loop, (Priority_unknown _ Hout). cbn [app].
    apply forallb_filter_id. reflexivity.
  - intros config h s. unfold handlers.NewLogrusHook.
    cbn [core.ProjectID core.Host core.APIKey core.ConfigLogLevel].
    destruct (decide (core.ConfigLogLevel config = EmptyString));
      cbn [core.ProjectID core.Host core.APIKey core.ConfigLogLevel];
      (destruct (validation.ValidateProjectID _); [discriminate|]);
      (destruct (validation.ValidateHostURL _); [discriminate|]);
      (destruct (if decide _ then _ else _); [discriminate|]);
      intros [= <- <-]; reflexivity.
Qed.

Section zap.
Context {R : Runtime} {zap : Zapcore R}.

Lemma NewZapCore_level (config : core.Config) (es : list core.Effect)
    (z : handlers.ZapCore) (o : option core.Sender) :
  handlers.NewZapCore config = (es, inl (z, o)) ->
  handlers.zapMinLevel z
  = handlers.convertLogLevelToZap (core.ConfigLogLevel (handlers.zapConfig z)).
Proof.
  unfold handlers.NewZapCore.
  cbn [core.ProjectID core.Host core.APIKey core.ConfigLogLevel].
  destruct (decide (core.ConfigLogLevel config = EmptyString));
    cbn [core.ProjectID core.Host core.APIKey core.ConfigLogLevel];
    (destruct (_ || _); [intros [= <- <- <-]; reflexivity|]);
    (destruct (validation.ValidateProjectID _); [discriminate|]);
    (destruct (validation.ValidateHostURL _); [discriminate|]);
    (destruct (if decide _ then _ else _); [discriminate|]);
    intros [= <- <- <-]; reflexivity.
Qed.

End zap.

(** X28. The levels of the zap core. [convertLogLevelToZap] followed by
    [convertZapLevel] gives back each of the five levels, and a level
    that is not one of them becomes [InfoLevel]. A core made by
    [NewZapCore] is enabled only for levels whose LogBull level is not
    below the configured one (for the levels of zap up to [FatalLevel]);
    but not for all of them: configured with [CRITICAL], it is disabled
    for [DPanicLevel] and [PanicLevel], which [convertZapLevel] maps to
    [CRITICAL]. *)
Theorem zap_levels `{R : Runtime} `{!Zapcore R} :
  (forall level,
     level ∈ core.definedLevels ->
     handlers.convertZapLevel (handlers.convertLogLevelToZap level) = level)
  /\ (forall level,
        level ∉ core.definedLevels ->
        handlers.convertLogLevelToZap level = zapcore.InfoLevel)
  /\ (forall config es z o level,
        handlers.NewZapCore config = (es, inl (z, o)) ->
        level <= zapcore.FatalLevel ->
        handlers.ZapEnabled z level = true ->
        core.Priority (core.ConfigLogLevel (handlers.zapConfig z))
        <= core.Priority (handlers.convertZapLevel level))
  /\ (forall config es z o,
        handlers.NewZapCore config = (es, inl (z, o)) ->
        core.ConfigLogLevel (handlers.zapConfig z) = core.CRITICAL ->
        handlers.ZapEnabled z zapcore.DPanicLevel = false
        /\ handlers.ZapEnabled z zapcore.PanicLevel = false
        /\ handlers.convertZapLevel zapcore.DPanicLevel = core.CRITICAL
        /\ handlers.convertZapLevel zapcore.PanicLevel = core.CRITICAL).
Proof.
  split; [|split; [|split]].
  - intros level Hin.
    apply definedLevels_cases in Hin as [->|[->|[->|[->| ->]]]]; reflexivity.
  - intros level Hout.
    destruct (convertLogLevelToZap_cases level)
      as [[-> _]|[[-> _]|[[-> _]|[[-> _]|[[-> _]|[_ H]]]]]];
      try (exfalso; apply Hout; apply definedLevels_cases; tauto).
    exact H.
  - intros config es z o level Hnew Hle Hen.
    apply NewZapCore_level in Hnew. unfold handlers.ZapEnabled in Hen.
    rewrite Hnew, Z.geb_leb in Hen. apply Z.leb_le in Hen.
    unfold zapcore.FatalLevel in Hle.
    rewrite Priority_convertZapLevel.
    destruct Priority_values as (H1 & H2 & H3 & H4 & H5).
    assert (level < -1 \/ level = -1 \/ level = 0 \/ level = 1 \/ level = 2
            \/ level = 3 \/ level = 4 \/ level = 5) as Hl by lia.
    destruct (convertLogLevelToZap_cases
                (core.ConfigLogLevel (handlers.zapConfig z)))
      as [[Hc E]|[[Hc E]|[[Hc E]|[[Hc E]|[[Hc E]|[Hc E]]]]]];
      rewrite E in Hen;
      rewrite ?Hc, ?H1, ?H2, ?H3, ?H4, ?H5, ?(Priority_unknown _ Hc);
      destruct Hl as [Hl|[->|[->|[->|[->|[->|[->| ->]]]]]]];
      cbn; try lia.
  - intros config es z o Hnew Hc.
    apply NewZapCore_level in Hnew. unfold handlers.ZapEnabled.
    rewrite Hnew, Hc. repeat split; reflexivity.
Qed.

(** X29. Without credentials the zap core is disabled, where [NewLogger]
    returns an error: when the trimmed project ID or host is empty,
    [NewZapCore] returns a core without a sender and prints one line; on
    that core and on every core made from it by [With], [Write] and [Sync]
    do nothing. *)
Theorem ZapCore_without_credentials `{R : Runtime} `{!Zapcore R}
    (config : core.Config) :
  strings.TrimSpace (core.ProjectID config) = EmptyString
  \/ strings.TrimSpace (core.Host config) = EmptyString ->
  (exists err, core.NewLogger config = inr err)
  /\ exists z,
       handlers.NewZapCore config
       = ([core.Stderr
             ("LogBull: No credentials provided for ZapCore. Handler is disabled. Logs will not be sent to LogBull server."
              +:+ core.nl)],
          inl (z, None))
       /\ handlers.hasSender z = false
       /\ (forall newFields entry more w w',
             handlers.Write (handlers.With z newFields) entry more w w' ->
             w' = w)
       /\ (forall newFields w,
             handlers.Sync (handlers.With z newFields) w = w).
Proof.
  intros Hblank. split.
  - rewrite NewLogger_unfold. unfold validation.ValidateProjectID.
    destruct (decide (strings.TrimSpace (core.ProjectID config) = EmptyString));
      [eauto|].
    destruct Hblank as [|Hh]; [contradiction|].
    destruct (negb _); [eauto|]. unfold validation.ValidateHostURL.
    destruct (decide (strings.TrimSpace (core.Host config) = EmptyString));
      [eauto | contradiction].
  - unfold handlers.NewZapCore.
    cbn [core.ProjectID core.Host core.APIKey core.ConfigLogLevel].
    assert (bool_decide (strings.TrimSpace (core.ProjectID config) = EmptyString)
            || bool_decide (strings.TrimSpace (core.Host config) = EmptyString) = true)
      as Hb.
    { destruct Hblank as [H|H]; rewrite (bool_decide_eq_true_2 _ H);
        [reflexivity | apply orb_true_r]. }
    destruct (decide (core.ConfigLogLevel config = EmptyString));
      cbn [core.ProjectID core.Host core.APIKey core.ConfigLogLevel];
      rewrite Hb; eexists; (split; [reflexivity|]);
      (split; [reflexivity|]);
      (split; [intros newFields entry more w w' Hw;
               inversion Hw as [|? ? ? ? Hs]; [reflexivity | discriminate]
              | reflexivity]).
Qed.

Lemma ZapCore_without_credentials_witness :
  exists err,
    core.NewLogger (R := example.runtime)
      (core.mkConfig EmptyString "http://localhost:4005" EmptyString core.INFO)
    = inr err.
Proof.
  refine (proj1 (@ZapCore_without_credentials example.runtime example.zap
                   (core.mkConfig EmptyString "http://localhost:4005"
                      EmptyString core.INFO) _)).
  left. reflexivity.
Defined.

Section records.
Context {R : Runtime}.
Hypothesis strings_marshal : marshals_strings R.

(** The end that [Handle], [Fire] and [Write] have in common. *)
Lemma AddLog_queuesEntry (w : core.World) (s' : core.Sender) (last : Z)
    (level : core.LogLevel) (message ts : string)
    (fields ensured : gmap string any) :
  formatting.EnsureFields (Some fields) ensured ->
  core.AddLog (core.sender w)
    (core.mkLogEntry level (formatting.FormatMessage message) ts (Some ensured))
    s' ->
  handlers.queuesEntry w (core.mkWorld s' last (core.console w)) level message
    fields.
Proof.
  intros He Ha. unfold handlers.queuesEntry. cbn [core.console core.sender].
  split; [reflexivity|]. split; [now apply AddLog_queue in Ha as [? _]|].
  intros Hopen Hroom. apply AddLog_active in Ha; [|exact Hopen].
  subst s'. unfold core.submit.
  destruct (Z.ltb_spec (Z.of_nat (length (core.logQueue (core.sender w))))
              core.queueCapacity); [|lia].
  eexists _, ensured. split; [reflexivity|]. cbn.
  split; [reflexivity | split; [reflexivity | split]].
  - rewrite FormatMessage_len. lia.
  - split; [reflexivity | split; [exact He|]].
    exact (EnsureFields_sanitized strings_marshal _ _ He).
Qed.

End records.

(** X30. The three handlers check neither the level nor the message of a
    record: [Handle], [Fire] and, on a core with a sender, [Write] always
    return, print nothing, hand nothing to the transport themselves, and
    on a sender that is not shut down and has room in its queue they add
    one entry for every record, also for one whose message is empty. The
    entry has the converted level, the formatted message of the record (at
    most 10000 bytes), and the sanitized fields: those of the attributes
    for slog, a copy of [Data] for logrus, and those of the fields of the
    core followed by the fields of the call for zap. *)
Theorem handlers_queue_every_record `{R : Runtime} `{!Zapcore R}
    (w : core.World) :
  marshals_strings R ->
  (forall h record,
     (exists w', handlers.Handle h record w w')
     /\ forall w',
          handlers.Handle h record w w' ->
          handlers.queuesEntry w w'
            (handlers.convertSlogLevel (handlers.RecordLevel record))
            (handlers.RecordMessage record) (handlers.slogFields h record))
  /\ (forall h entry,
        (exists w', handlers.Fire h entry w w')
        /\ forall w',
             handlers.Fire h entry w w' ->
             handlers.queuesEntry w w'
               (handlers.convertLogrusLevel (handlers.EntryLevel entry))
               (handlers.EntryMessage entry) (handlers.Data entry))
  /\ (forall z entry more,
        handlers.hasSender z = true ->
        (exists w', handlers.Write z entry more w w')
        /\ forall w',
             handlers.Write z entry more w w' ->
             handlers.queuesEntry w w'
               (handlers.convertZapLevel (handlers.ZapLevel entry))
               (handlers.ZapMessage entry)
               (encodeFields (handlers.fields z ++ more))).
Proof.
  intros HR.
  assert (golang.is_int64 0) as Hz
    by (unfold golang.is_int64, golang.min_int64, golang.max_int64; lia).
  split; [|split].
  - intros h record. split.
    + destruct (EnsureFields_total (Some (handlers.slogFields h record)))
        as [ensured He].
      destruct (AddLog_total (core.sender w)
                  (core.mkLogEntry
                     (handlers.convertSlogLevel (handlers.RecordLevel record))
                     (formatting.FormatMessage (handlers.RecordMessage record))
                     (core.GenerateUniqueTimestamp 0 (core.lastTimestampNs w)).1
                     (Some ensured))) as [s' Ha].
      eexists. exact (handlers.Handle_entry h record w 0 ensured s' Hz He Ha).
    + intros w' Hh. destruct Hh as [now ensured s' Hn He Ha].
      eapply (AddLog_queuesEntry HR); [exact He | exact Ha].
  - intros h entry. split.
    + destruct (EnsureFields_total (Some (handlers.Data entry)))
        as [ensured He].
      destruct (AddLog_total (core.sender w)
                  (core.mkLogEntry
                     (handlers.convertLogrusLevel (handlers.EntryLevel entry))
                     (formatting.FormatMessage (handlers.EntryMessage entry))
                     (core.GenerateUniqueTimestamp 0 (core.lastTimestampNs w)).1
                     (Some ensured))) as [s' Ha].
      eexists.
      refine (handlers.Fire_entry h entry w (handlers.Data entry) 0 ensured s'
                _ Hz He Ha).
      now apply copyMap_eq.
    + intros w' Hf. destruct Hf as [fields now ensured s' Hc Hn He Ha].
      apply copyMap_eq in Hc as ->.
      eapply (AddLog_queuesEntry HR); [exact He | exact Ha].
  - intros z entry more Hs. split.
    + destruct (EnsureFields_total
                  (Some (encodeFields (handlers.fields z ++ more))))
        as [ensured He].
      destruct (AddLog_total (core.sender w)
                  (core.mkLogEntry
                     (handlers.convertZapLevel (handlers.ZapLevel entry))
                     (formatting.FormatMessage (handlers.ZapMessage entry))
                     (core.GenerateUniqueTimestamp 0 (core.lastTimestampNs w)).1
                     (Some ensured))) as [s' Ha].
      eexists.
      refine (handlers.Write_entry z entry more w
                (encodeFields (handlers.fields z ++ more)) 0 ensured s'
                Hs _ Hz He Ha).
      now apply copyMap_eq.
    + intros w' Hw.
      destruct Hw as [Hd | extracted now ensured s' _ Hx Hn He Ha];
        [congruence|].
      apply copyMap_eq in Hx as ->.
      eapply (AddLog_queuesEntry HR); [exact He | exact Ha].
Qed.

Lemma handlers_queue_every_record_witness :
  exists w',
    handlers.Handle (R := example.runtime)
      (handlers.mkSlogHandler example.config [] EmptyString)
      (handlers.mkRecord 0 EmptyString
         [handlers.mkAttr (R := example.runtime) "user"
            (example.VString "ada")])
      (core.mkWorld (core.NewSender example.config) 0 []) w'.
Proof.
  refine (proj1 (proj1 (@handlers_queue_every_record example.runtime
                          example.zap _ example_marshals_strings) _ _)).
Defined.
